(** * genai-gateway: the token-bucket rate limiter and the LLM orchestrator

    A shallow embedding of [src/core/llm-orchestrator.ts] (the [RateLimiter]
    class and the [LLMOrchestrator] class) together with the properties its
    specification states about them.

    Conventions of the embedding.
    - A JavaScript [number] that carries a token count or a time in
      milliseconds is an exact rational ([Q]); [Math.min] is [Qmin],
      [Math.ceil] is [Qceiling], [Math.floor] is [Qfloor].  The module
      [RateLimiter] computes with them exactly; the module [Doubles] gives
      the arithmetic of the bucket again with every operation rounded, as
      IEEE doubles round it.  [NaN] and the infinities are outside the
      model.
    - Every read of the clock ([performance.now()], [Date.now()]) is an
      explicit argument of the operation that performs it.
    - Objects with identity (queue entries, timer handles) are natural
      numbers naming cells of an explicit store. *)

From Stdlib Require Import QArith Qminmax Qround Qabs Qpower Lqa ZArith Lia.
From Stdlib Require Floats.
From stdpp Require Import base gmap list strings pretty sorting.

Local Open Scope Q_scope.

(** ** The rate limiter *)

Module RateLimiter.

(** The fields of the class: [tokens], [lastRefill], [queue] (references to
    the queued entry objects, oldest first), [timer] (the handle of the
    single wake-up timer, [None] for [null]) and the two constructor
    parameters. *)
Record Limiter := mkLimiter {
  tokens : Q;
  lastRefill : Q;
  queue : list nat;
  timer : option nat;
  tokensPerSecond : Q;
  bucketSize : Q
}.

Definition set_bucket (t lr : Q) (l : Limiter) : Limiter :=
  mkLimiter t lr (queue l) (timer l) (tokensPerSecond l) (bucketSize l).

Definition set_tokens (t : Q) (l : Limiter) : Limiter :=
  set_bucket t (lastRefill l) l.

Definition set_queue (q : list nat) (l : Limiter) : Limiter :=
  mkLimiter (tokens l) (lastRefill l) q (timer l) (tokensPerSecond l) (bucketSize l).

Definition set_timer (h : option nat) (l : Limiter) : Limiter :=
  mkLimiter (tokens l) (lastRefill l) (queue l) h (tokensPerSecond l) (bucketSize l).

(** [x > 0] on numbers. *)
Definition positive (x : Q) : bool := negb (Qle_bool x 0).

(** The constructor: it throws (an [inl] with the message) unless both
    parameters are positive; [now] is the clock value it reads. *)
Definition new (rate size : Q) (startFull : bool) (now : Q) : string + Limiter :=
  if negb (positive rate) then inl "tokensPerSecond must be > 0"%string
  else if negb (positive size) then inl "bucketSize must be > 0"%string
  else inr (mkLimiter (if startFull then size else 0) now [] None rate size).

(** [refillTokens]: nothing happens unless time has advanced. *)
Definition refillTokens (now : Q) (l : Limiter) : Limiter :=
  let elapsedMs := now - lastRefill l in
  if Qle_bool elapsedMs 0 then l
  else
    let added := (elapsedMs / 1000) * tokensPerSecond l in
    set_bucket (Qmin (bucketSize l) (tokens l + added)) now l.

(** [tryAcquire]: the returned flag and the limiter after the call. *)
Definition tryAcquire (now : Q) (l : Limiter) : bool * Limiter :=
  let l1 := refillTokens now l in
  if Qle_bool 1 (tokens l1) then (true, set_tokens (tokens l1 - 1) l1)
  else (false, l1).

(** The bucket invariant of the specification. *)
Definition bucket_ok (l : Limiter) : Prop :=
  0 <= tokens l /\ tokens l <= bucketSize l.

Definition config_ok (l : Limiter) : Prop :=
  0 < tokensPerSecond l /\ 0 < bucketSize l.

(** *** Waiters, timers and the event loop

    A queue entry is an object holding its per-waiter timer handle and the
    promise that [acquire] returned; the promise is settled at most once, as
    JavaScript promises are. *)
Inductive Settled := Pending | Resolved | Rejected (message : string).

Record Entry := mkEntry { entry_timer : option nat; promise : Settled }.

(** What a pending [setTimeout] will run: the limiter's [processQueue], or
    the timeout closure that [acquire] attached to one entry. *)
Inductive Callback := ProcessQueue | WaiterTimeout (entry : nat).

Record Timeout := mkTimeout { callback : Callback; delayMs : Q }.

(** How an entry left the queue ([shift] in [processQueue], [splice] in the
    timeout closure, [shift] in [shutdown]).  The list of removals is a
    history kept beside the program state; no operation reads it. *)
Inductive Removal := Granted | TimedOut | ShutDown.

Record World := mkWorld {
  lim : Limiter;
  heap : gmap nat Entry;
  timers : gmap nat Timeout;
  nextRef : nat;
  nextHandle : nat;
  removals : list (nat * Removal)
}.

Definition on_lim (f : Limiter -> Limiter) (w : World) : World :=
  mkWorld (f (lim w)) (heap w) (timers w) (nextRef w) (nextHandle w) (removals w).

Definition set_heap (hp : gmap nat Entry) (w : World) : World :=
  mkWorld (lim w) hp (timers w) (nextRef w) (nextHandle w) (removals w).

Definition set_timers (ts : gmap nat Timeout) (w : World) : World :=
  mkWorld (lim w) (heap w) ts (nextRef w) (nextHandle w) (removals w).

Definition record (r : nat) (k : Removal) (w : World) : World :=
  mkWorld (lim w) (heap w) (timers w) (nextRef w) (nextHandle w)
          (removals w ++ [(r, k)]).

Definition init (l : Limiter) : World := mkWorld l ∅ ∅ 0%nat 0%nat [].

Definition setTimeout (c : Callback) (ms : Q) (w : World) : nat * World :=
  let h := nextHandle w in
  (h, mkWorld (lim w) (heap w) (<[h := mkTimeout c ms]> (timers w))
              (nextRef w) (S h) (removals w)).

Definition clearTimeout (h : nat) (w : World) : World :=
  set_timers (delete h (timers w)) w.

(** [if (entry.timer) { clearTimeout(entry.timer); entry.timer = null; }] *)
Definition clearEntryTimer (r : nat) (w : World) : World :=
  match heap w !! r with
  | Some (mkEntry (Some h) p) =>
      set_heap (<[r := mkEntry None p]> (heap w)) (clearTimeout h w)
  | _ => w
  end.

(** The promise's own [resolve] / [reject]: only the first call counts. *)
Definition settle (r : nat) (s : Settled) (w : World) : World :=
  match heap w !! r with
  | Some (mkEntry t Pending) => set_heap (<[r := mkEntry t s]> (heap w)) w
  | _ => w
  end.

(** [entry.resolve] and [entry.reject] as [acquire] builds them. *)
Definition entry_resolve (r : nat) (w : World) : World :=
  settle r Resolved (clearEntryTimer r w).

Definition entry_reject (r : nat) (message : string) (w : World) : World :=
  settle r (Rejected message) (clearEntryTimer r w).

(** [scheduleProcess]: arm the wake-up timer for the time the next token is
    due. *)
Definition scheduleProcess (now : Q) (w : World) : World :=
  let w1 := on_lim (refillTokens now) w in
  let ms :=
    if Qle_bool 1 (tokens (lim w1)) then 0
    else
      let missing := 1 - tokens (lim w1) in
      let waitMs := Qmax 0 ((missing / tokensPerSecond (lim w1)) * 1000) in
      inject_Z (Qceiling waitMs) in
  let (h, w2) := setTimeout ProcessQueue ms w1 in
  on_lim (set_timer (Some h)) w2.

(** One turn of the loop of [processQueue]: [next] was shifted off the
    queue, leaving [rest]. *)
Definition grant (next : nat) (rest : list nat) (w : World) : World :=
  let w1 := on_lim (fun l => set_tokens (tokens l - 1) (set_queue rest l)) w in
  entry_resolve next (clearEntryTimer next (record next Granted w1)).

(** [while (this.queue.length > 0 && this.tokens >= 1)]; every turn shortens
    the queue, so its length bounds the number of turns. *)
Fixpoint drain (turns : nat) (w : World) : World :=
  match turns with
  | O => w
  | S turns' =>
      match queue (lim w) with
      | next :: rest =>
          if Qle_bool 1 (tokens (lim w)) then drain turns' (grant next rest w)
          else w
      | [] => w
      end
  end.

(** [processQueue]; [now] and [now'] are the two clock reads (its own
    refill and the one inside [scheduleProcess]). *)
Definition processQueue (now now' : Q) (w : World) : World :=
  let w1 := on_lim (fun l => refillTokens now (set_timer None l)) w in
  let w2 := drain (length (queue (lim w1))) w1 in
  match queue (lim w2) with
  | [] => w2
  | _ :: _ => scheduleProcess now' w2
  end.

(** [Array.prototype.indexOf] on the queue, [None] for [-1]. *)
Fixpoint indexOf (q : list nat) (r : nat) : option nat :=
  match q with
  | [] => None
  | x :: q' => if decide (x = r) then Some 0%nat else S <$> indexOf q' r
  end.

(** The closure that [acquire] hands to [setTimeout] for entry [r]. *)
Definition waiterTimeout (r : nat) (w : World) : World :=
  let w1 :=
    match indexOf (queue (lim w)) r with
    | Some idx =>
        record r TimedOut (on_lim (fun l => set_queue (delete idx (queue l)) l) w)
    | None => w
    end in
  entry_reject r "RateLimiter: acquire timeout" w1.

(** The loop of [shutdown]. *)
Fixpoint rejectAll (turns : nat) (w : World) : World :=
  match turns with
  | O => w
  | S turns' =>
      match queue (lim w) with
      | entry :: rest =>
          let w1 := record entry ShutDown (on_lim (set_queue rest) w) in
          rejectAll turns'
            (entry_reject entry "RateLimiter: shutdown" (clearEntryTimer entry w1))
      | [] => w
      end
  end.

Definition shutdown (w : World) : World :=
  let w1 :=
    match timer (lim w) with
    | Some h => on_lim (set_timer None) (clearTimeout h w)
    | None => w
    end in
  rejectAll (length (queue (lim w1))) w1.

(** What [acquire] returns: an already resolved promise, or the promise of
    the entry it queued. *)
Inductive Acquired := Immediate | Queued (entry : nat).

(** [acquire(timeoutMs?)]; [None] is an omitted argument. *)
Definition acquire (timeoutMs : option Q) (now now' : Q) (w : World)
  : Acquired * World :=
  let (ok, l1) := tryAcquire now (lim w) in
  if ok then (Immediate, on_lim (fun _ => l1) w)
  else
    let r := nextRef w in
    let w1 := mkWorld l1 (<[r := mkEntry None Pending]> (heap w)) (timers w)
                      (S r) (nextHandle w) (removals w) in
    let w2 :=
      match timeoutMs with
      | Some ms =>
          if positive ms then
            let (h, w') := setTimeout (WaiterTimeout r) ms w1 in
            set_heap (<[r := mkEntry (Some h) Pending]> (heap w')) w'
          else w1
      | None => w1
      end in
    let w3 := on_lim (fun l => set_queue (queue l ++ [r]) l) w2 in
    (Queued r,
     match timer (lim w3) with
     | None => scheduleProcess now' w3
     | Some _ => w3
     end).

(** A timer of the event loop fires: it leaves the set of pending timers
    and its callback runs.  A handle that is not pending (never set,
    already fired, or cleared) runs nothing. *)
Definition fire (h : nat) (now now' : Q) (w : World) : World :=
  match timers w !! h with
  | None => w
  | Some t =>
      let w1 := set_timers (delete h (timers w)) w in
      match callback t with
      | ProcessQueue => processQueue now now' w1
      | WaiterTimeout r => waiterTimeout r w1
      end
  end.

(** Everything that can happen to a limiter, each with its clock reads. *)
Inductive Op :=
| OpTryAcquire (now : Q)
| OpAcquire (timeoutMs : option Q) (now now' : Q)
| OpFire (h : nat) (now now' : Q)
| OpShutdown.

Definition step (w : World) (op : Op) : World :=
  match op with
  | OpTryAcquire now => on_lim (fun l => snd (tryAcquire now l)) w
  | OpAcquire ms now now' => snd (acquire ms now now' w)
  | OpFire h now now' => fire h now now' w
  | OpShutdown => shutdown w
  end.

Definition run (ops : list Op) (w : World) : World := fold_left step ops w.

End RateLimiter.

(** ** The bucket in double arithmetic

    The numbers of the source are IEEE doubles: each [+], [-], [*] and [/]
    gives the exact result rounded to a double.  Here the arithmetic of the
    bucket is written once more with the rounding [fl] applied after every
    operation, in the order of the source; [Math.min], [Math.max],
    [Math.ceil] and the comparisons are exact on doubles.  With the identity
    for [fl] this is the arithmetic of [RateLimiter]; [binary64] is the
    rounding of the machine. *)

Module Doubles.
Import RateLimiter.

Section Arithmetic.

Variable fl : Q -> Q.

Definition refillTokens (now : Q) (l : Limiter) : Limiter :=
  let elapsedMs := fl (now - lastRefill l) in
  if Qle_bool elapsedMs 0 then l
  else
    let added := fl (fl (elapsedMs / 1000) * tokensPerSecond l) in
    set_bucket (Qmin (bucketSize l) (fl (tokens l + added))) now l.

Definition tryAcquire (now : Q) (l : Limiter) : bool * Limiter :=
  let l1 := refillTokens now l in
  if Qle_bool 1 (tokens l1) then (true, set_tokens (fl (tokens l1 - 1)) l1)
  else (false, l1).

(** The delay that [scheduleProcess] passes to [setTimeout], from the
    limiter as it has just refilled it. *)
Definition waitMs (l1 : Limiter) : Q :=
  if Qle_bool 1 (tokens l1) then 0
  else
    let missing := fl (1 - tokens l1) in
    inject_Z (Qceiling (Qmax 0 (fl (fl (missing / tokensPerSecond l1) * 1000)))).

(** A run of calls on one limiter: [tryAcquire] at a clock reading, or the
    refill alone (as [scheduleProcess] and [processQueue] start with). *)
Inductive Call := CallTryAcquire (now : Q) | CallRefill (now : Q).

Definition call (l : Limiter) (c : Call) : Limiter :=
  match c with
  | CallTryAcquire now => snd (tryAcquire now l)
  | CallRefill now => refillTokens now l
  end.

Definition calls (cs : list Call) (l : Limiter) : Limiter := fold_left call cs l.

End Arithmetic.

End Doubles.

(** *** Rounding to the nearest double *)

Module Rounding.

(** The nearest integer, ties to the even one. *)
Definition rne (x : Q) : Z :=
  let f := Qfloor x in
  match Qcompare (x - inject_Z f) (1 # 2) with
  | Lt => f
  | Gt => (f + 1)%Z
  | Eq => if Z.even f then f else (f + 1)%Z
  end.

(** The binary exponent of [x > 0]: [2^e <= x < 2^(e+1)]. *)
Definition exponent (x : Q) : Z :=
  let k := (Z.log2 (Qnum x) - Z.log2 (Zpos (Qden x)))%Z in
  if Qle_bool (2 ^ k) x then k else (k - 1)%Z.

(** The spacing of the doubles around [x > 0]: 53 significant bits, and
    [2^-1074] among the subnormal ones. *)
Definition ulp (x : Q) : Q := 2 ^ Z.max (exponent x - 52) (-1074).

Definition nearest (x : Q) : Q := inject_Z (rne (x / ulp x)) * ulp x.

(** Rounding to the nearest double, ties to even (below the overflow
    threshold). *)
Definition binary64 (x : Q) : Q :=
  match Qcompare x 0 with
  | Eq => 0
  | Gt => nearest x
  | Lt => - nearest (- x)
  end.

(** The doubles of the proof assistant's kernel, to compare with: the
    double nearest to an integer, and the value of a finite double. *)
Definition ofZ (z : Z) : PrimFloat.float :=
  FloatOps.SF2Prim (SpecFloat.binary_normalize FloatOps.prec FloatOps.emax z 0 false).

Definition toQ (f : PrimFloat.float) : option Q :=
  match FloatOps.Prim2SF f with
  | SpecFloat.S754_zero _ => Some 0
  | SpecFloat.S754_finite s m e =>
      Some ((if s then -1 else 1) * inject_Z (Zpos m) * 2 ^ e)
  | _ => None
  end.

End Rounding.

(** ** The orchestrator

    One call of [queryAllModels] starts one asynchronous task per model.
    A task is a computation over its own state: a virtual clock (what
    [Date.now()] returns, advanced by every wait), the values [Math.random()]
    will return to it, and the trace of what the orchestrator did on its
    behalf.  A computation ends by returning or by throwing, as an [async]
    function settles its promise. *)

Module Orchestrator.

Definition MODELS : list string := ["GPT-4o"; "Claude Sonnet 3.5"; "Gemini"].

Record ModelConfig := mkConfig { cfg_tokensPerSecond : Q; cfg_bucketSize : Q }.

Definition MODEL_CONFIGS : gmap string ModelConfig :=
  list_to_map [("GPT-4o", mkConfig 3 10);
               ("Claude Sonnet 3.5", mkConfig 2 5);
               ("Gemini", mkConfig 5 15)].

(** The constructor: one full limiter per model, at clock reading [now]. *)
Definition rateLimiters (now : Q) : gmap string RateLimiter.Limiter :=
  list_to_map
    (omap (fun m =>
             match MODEL_CONFIGS !! m with
             | Some cfg =>
                 match RateLimiter.new (cfg_tokensPerSecond cfg) (cfg_bucketSize cfg)
                                       true now with
                 | inr l => Some (m, l)
                 | inl _ => None
                 end
             | None => None
             end) MODELS).

(** The types of [@/types]. *)
Record ModelResponse := mkResponse {
  id : string;
  content : string;
  confidence : Q;
  sources : list string;
  model : string
}.

Record ApiResponse := mkApiResponse {
  data : list ModelResponse;
  timestamp : Z;
  source : string
}.

Inductive Status := StIdle | StPending | StSuccess | StError.

Record ModelStatus := mkStatus {
  status_model : string;
  status : Status;
  latency : option Z;
  status_error : option string
}.

(** A thrown value: an [Error] object with its message, or anything else,
    kept as the text [String(value)] gives. *)
Inductive Thrown := ErrorObject (message : string) | OtherValue (text : string).

(** [error instanceof Error ? error.message : String(error)] *)
Definition errorMessage (e : Thrown) : string :=
  match e with
  | ErrorObject message => message
  | OtherValue text => text
  end.

(** Computations that return or throw, over a state [S]. *)
Definition Eff (S A : Type) : Type := S -> (Thrown + A) * S.

#[export] Instance eff_ret {S : Type} : MRet (Eff S) := fun A a s => (inr a, s).

#[export] Instance eff_bind {S : Type} : MBind (Eff S) := fun A B f c s =>
  match c s with
  | (inr a, s1) => f a s1
  | (inl e, s1) => (inl e, s1)
  end.

Definition throw {S A : Type} (e : Thrown) : Eff S A := fun s => (inl e, s).

(** [try { body } catch (error) { handler }] *)
Definition tryCatch {S A : Type} (body : Eff S A) (handler : Thrown -> Eff S A)
  : Eff S A :=
  fun s =>
    match body s with
    | (inr a, s1) => (inr a, s1)
    | (inl e, s1) => handler e s1
    end.

(** What any code of a task can read and move: the clock and the random
    numbers still to come. *)
Record Ambient := mkAmbient { clock : Z; entropy : nat -> Q }.

Definition dateNow : Eff Ambient Z := fun a => (inr (clock a), a).

Definition mathRandom : Eff Ambient Q :=
  fun a => (inr (entropy a 0%nat), mkAmbient (clock a) (fun n => entropy a (S n))).

(** [await new Promise((r) => setTimeout(r, ms))]: time passes. *)
Definition wait (ms : Z) : Eff Ambient unit :=
  fun a => (inr tt, mkAmbient (clock a + ms)%Z (entropy a)).

(** [simulateAPICall], the built-in provider call. *)
Definition simulateAPICall (m prompt : string) : Eff Ambient (list ModelResponse) :=
  r ← mathRandom;
  wait (200 + Qfloor (r * 400))%Z;;
  now ← dateNow;
  c ← mathRandom;
  mret [mkResponse (m +:+ "-" +:+ pretty now)
                   ("Simulated response from " +:+ m) c [m] m].

(** What the orchestrator does in a task, as the outside can see it. *)
Inductive Effect :=
| EAcquire (m : string) (timeoutMs : Z)
| ECall (m : string) (attempt : nat)
| EConsoleError (attempt : nat) (m : string) (e : Thrown)
| ESleep (ms : Z)
| EProgress (s : ModelStatus).

Record TaskState := mkTask { ambient : Ambient; effects : list Effect }.

Abbreviation Task := (Eff TaskState).

Definition lift {A : Type} (c : Eff Ambient A) : Task A :=
  fun s => let (r, a) := c (ambient s) in (r, mkTask a (effects s)).

Definition emit (e : Effect) : Task unit :=
  fun s => (inr tt, mkTask (ambient s) (effects s ++ [e])).

Definition sleep (ms : Z) : Task unit := emit (ESleep ms);; lift (wait ms).

(** [Math.pow(2, attempt) * 1000 + Math.floor(Math.random() * 200)] *)
Definition backoffMs (attempt : nat) (random : Q) : Z :=
  let base := (2 ^ Z.of_nat attempt * 1000)%Z in
  let jitter := Qfloor (random * 200) in
  (base + jitter)%Z.

Section Orchestrator.

(** The surroundings of one orchestrator.  [call] is the provider call that
    [queryModel] makes ([simulateAPICall] in the source, to be replaced by a
    real one): it takes time, may draw random numbers, and returns or
    throws.  [admission m] is how the limiter of [m] answers
    [acquire(30_000)]: after how long, and with which rejection message if it
    rejects.  [observer] tells whether [onProgress] was passed, [created]
    when the constructor ran. *)
Variable call : string -> string -> Eff Ambient (list ModelResponse).
Variable admission : string -> Z * option string.
Variable observer : bool.
Variable created : Q.

(** [await limiter.acquire(timeoutMs)] *)
Definition limiterAcquire (m : string) (timeoutMs : Z) : Task unit :=
  let (waited, verdict) := admission m in
  emit (EAcquire m timeoutMs);;
  lift (wait waited);;
  match verdict with
  | None => mret tt
  | Some message => throw (ErrorObject message)
  end.

(** The body of the retry loop for one [attempt]: [Some] of the value it
    returns, or [None] when the loop goes on. *)
Definition attemptOnce (m prompt : string) (retries attempt : nat)
  : Task (option ApiResponse) :=
  tryCatch
    (emit (ECall m attempt);;
     response ← lift (call m prompt);
     now ← lift dateNow;
     mret (Some (mkApiResponse response now m)))
    (fun error =>
       emit (EConsoleError (attempt + 1) m error);;
       if (attempt =? retries - 1)%nat then throw error
       else
         r ← lift mathRandom;
         sleep (backoffMs attempt r);;
         mret None).

(** [for (let attempt = 0; attempt < retries; attempt++)], entered with
    [remaining = retries - attempt] turns to go, and the [throw] after it. *)
Fixpoint retryLoop (remaining : nat) (m prompt : string) (retries attempt : nat)
  : Task ApiResponse :=
  match remaining with
  | O => throw (ErrorObject ("Failed after " +:+ pretty retries +:+ " retries"))
  | S remaining' =>
      r ← attemptOnce m prompt retries attempt;
      match r with
      | Some response => mret response
      | None => retryLoop remaining' m prompt retries (S attempt)
      end
  end.

Definition queryModel (m prompt : string) (retries : nat) : Task ApiResponse :=
  match rateLimiters created !! m with
  | None => throw (ErrorObject ("No rate limiter for " +:+ m))
  | Some _ =>
      limiterAcquire m 30000;;
      retryLoop retries m prompt retries 0
  end.

(** [onProgress?.(status)] *)
Definition onProgress (s : ModelStatus) : Task unit :=
  if observer then emit (EProgress s) else mret tt.

(** The [async (model) => ...] that [queryAllModels] maps over the models. *)
Definition queryTask (prompt m : string) : Task ApiResponse :=
  onProgress (mkStatus m StPending None None);;
  tryCatch
    (startTime ← lift dateNow;
     result ← queryModel m prompt 3;
     now ← lift dateNow;
     onProgress (mkStatus m StSuccess (Some (now - startTime)%Z) None);;
     mret result)
    (fun error =>
       onProgress (mkStatus m StError None (Some (errorMessage error)));;
       throw error).

(** What [Promise.allSettled] reports for one promise. *)
Inductive Settlement (A : Type) := fulfilled (value : A) | rejected (reason : Thrown).

Definition settlement {A : Type} (r : Thrown + A) : Settlement A :=
  match r with
  | inr a => fulfilled A a
  | inl e => rejected A e
  end.

(** [{ ...item, sources: [...(item.sources || []), modelName],
       model: modelName }] *)
Definition tagged (modelName : string) (item : ModelResponse) : ModelResponse :=
  mkResponse (id item) (content item) (confidence item)
             (sources item ++ [modelName]) modelName.

(** [results.forEach((result, index) => ...)] from [index] on, pushing onto
    [responses]. *)
Fixpoint collect (index : nat) (results : list (Settlement ApiResponse))
    (responses : list ModelResponse) : list ModelResponse :=
  match results with
  | [] => responses
  | result :: rest =>
      collect (S index) rest
        match result, MODELS !! index with
        | fulfilled _ value, Some modelName =>
            responses ++ map (tagged modelName) (data value)
        | _, _ => responses
        end
  end.

(** Each task starts at the time of the call, with its own supply of random
    numbers and an empty trace. *)
Definition start (t0 : Z) (supply : string -> nat -> Q) (m : string) : TaskState :=
  mkTask (mkAmbient t0 (supply m)) [].

(** The calls of [onProgress] found in a trace, in order. *)
Definition progressOf (es : list Effect) : list ModelStatus :=
  omap (fun e => match e with EProgress s => Some s | _ => None end) es.

(** [queryAllModels]: what its promise settles with, and the calls the
    observer received.  Every task runs synchronously up to its first
    [await], so the observer hears the first event of each task in model
    order; the later events arrive task by task in the order [settled] in
    which the event loop lets the tasks finish. *)
Definition queryAllModels (prompt : string) (t0 : Z) (supply : string -> nat -> Q)
    (settled : list string) : (Thrown + list ModelResponse) * list ModelStatus :=
  let run := fun m => queryTask prompt m (start t0 supply m) in
  let heard := fun m => progressOf (effects (snd (run m))) in
  let results := map (fun m => settlement (fst (run m))) MODELS in
  (inr (collect 0 results []),
   flat_map (fun m => take 1 (heard m)) MODELS
   ++ flat_map (fun m => drop 1 (heard m)) settled).

End Orchestrator.

End Orchestrator.

(** ** Properties of the bucket arithmetic *)

Module RateLimiterFacts.
Import RateLimiter.

Lemma positive_spec (x : Q) : positive x = true <-> 0 < x.
Proof.
  unfold positive. rewrite negb_true_iff.
  destruct (Qle_bool x 0) eqn:E.
  - apply Qle_bool_iff in E. split; [discriminate | lra].
  - split; [intros _ | reflexivity].
    destruct (Qlt_le_dec 0 x) as [H | H]; [exact H |].
    apply Qle_bool_iff in H. congruence.
Qed.

Lemma Qle_bool_false (x y : Q) : Qle_bool x y = false <-> y < x.
Proof.
  split; intros H.
  - destruct (Qlt_le_dec y x) as [H1 | H1]; [exact H1 |].
    apply Qle_bool_iff in H1. congruence.
  - destruct (Qle_bool x y) eqn:E; [| reflexivity].
    apply Qle_bool_iff in E. lra.
Qed.

Lemma new_inr rate size startFull now l :
  new rate size startFull now = inr l ->
  0 < rate /\ 0 < size /\
  l = mkLimiter (if startFull then size else 0) now [] None rate size.
Proof.
  unfold new. intros H.
  destruct (positive rate) eqn:Hr; simpl in H; [| discriminate].
  destruct (positive size) eqn:Hs; simpl in H; [| discriminate].
  apply positive_spec in Hr. apply positive_spec in Hs.
  inversion H. auto.
Qed.

Lemma refillTokens_idle now l :
  now <= lastRefill l -> refillTokens now l = l.
Proof.
  intros H. unfold refillTokens.
  assert (E : Qle_bool (now - lastRefill l) 0 = true) by (apply Qle_bool_iff; lra).
  now rewrite E.
Qed.

Lemma refillTokens_advance now l :
  lastRefill l < now ->
  refillTokens now l =
  set_bucket (Qmin (bucketSize l)
                (tokens l + (now - lastRefill l) / 1000 * tokensPerSecond l)) now l.
Proof.
  intros H. unfold refillTokens.
  assert (E : Qle_bool (now - lastRefill l) 0 = false) by (apply Qle_bool_false; lra).
  now rewrite E.
Qed.

Lemma refillTokens_frame now l :
  queue (refillTokens now l) = queue l /\
  timer (refillTokens now l) = timer l /\
  tokensPerSecond (refillTokens now l) = tokensPerSecond l /\
  bucketSize (refillTokens now l) = bucketSize l.
Proof. unfold refillTokens. destruct (Qle_bool _ _); simpl; auto. Qed.

Lemma refillTokens_bucket_ok now l :
  config_ok l -> bucket_ok l -> bucket_ok (refillTokens now l).
Proof.
  intros [Hr Hs] [H0 H1].
  destruct (Qlt_le_dec (lastRefill l) now) as [Hadv | Hidle].
  - rewrite (refillTokens_advance _ _ Hadv). unfold bucket_ok; simpl. split.
    + apply Q.min_glb; [lra |].
      assert (0 <= (now - lastRefill l) / 1000 * tokensPerSecond l); [| lra].
      apply Qmult_le_0_compat; [| lra].
      unfold Qdiv. apply Qmult_le_0_compat; [lra |].
      apply Qlt_le_weak, Qinv_lt_0_compat. lra.
    + apply Q.le_min_l.
  - rewrite (refillTokens_idle _ _ Hidle). split; assumption.
Qed.

Lemma tryAcquire_frame now l :
  queue (snd (tryAcquire now l)) = queue l /\
  timer (snd (tryAcquire now l)) = timer l /\
  tokensPerSecond (snd (tryAcquire now l)) = tokensPerSecond l /\
  bucketSize (snd (tryAcquire now l)) = bucketSize l.
Proof.
  unfold tryAcquire. pose proof (refillTokens_frame now l) as F.
  destruct (Qle_bool 1 _); simpl; exact F.
Qed.

Lemma tryAcquire_bucket_ok now l :
  config_ok l -> bucket_ok l -> bucket_ok (snd (tryAcquire now l)).
Proof.
  intros Hc Hb. pose proof (refillTokens_bucket_ok now l Hc Hb) as [H0 H1].
  pose proof (refillTokens_frame now l) as (_ & _ & _ & Hs).
  unfold tryAcquire.
  destruct (Qle_bool 1 (tokens (refillTokens now l))) eqn:E; simpl.
  - apply Qle_bool_iff in E. unfold bucket_ok; simpl. lra.
  - split; assumption.
Qed.

(** *** Store operations leave the limiter's own fields alone *)

Lemma lim_clearEntryTimer r w : lim (clearEntryTimer r w) = lim w.
Proof.
  unfold clearEntryTimer.
  destruct (heap w !! r) as [[[h|] p]|]; reflexivity.
Qed.

Lemma lim_settle r s w : lim (settle r s w) = lim w.
Proof.
  unfold settle.
  destruct (heap w !! r) as [[t [| |m]]|]; reflexivity.
Qed.

Lemma lim_entry_resolve r w : lim (entry_resolve r w) = lim w.
Proof. unfold entry_resolve. now rewrite lim_settle, lim_clearEntryTimer. Qed.

Lemma lim_entry_reject r m w : lim (entry_reject r m w) = lim w.
Proof. unfold entry_reject. now rewrite lim_settle, lim_clearEntryTimer. Qed.

Lemma lim_grant next rest w :
  lim (grant next rest w) =
  set_tokens (tokens (lim w) - 1) (set_queue rest (lim w)).
Proof.
  unfold grant. now rewrite lim_entry_resolve, lim_clearEntryTimer.
Qed.

Lemma lim_scheduleProcess now w :
  exists h, lim (scheduleProcess now w) = set_timer (Some h) (refillTokens now (lim w)).
Proof. unfold scheduleProcess. simpl. eauto. Qed.

Lemma lim_waiterTimeout r w :
  lim (waiterTimeout r w) =
  match indexOf (queue (lim w)) r with
  | Some idx => set_queue (delete idx (queue (lim w))) (lim w)
  | None => lim w
  end.
Proof.
  unfold waiterTimeout. rewrite lim_entry_reject.
  destruct (indexOf _ _); reflexivity.
Qed.

(** *** The bucket invariant is kept by every operation *)

(** The invariant of a limiter of capacity [C]: its parameters are the
    positive ones it was built with and [0 <= tokens <= C]. *)
Definition bucket_inv (C : Q) (w : World) : Prop :=
  config_ok (lim w) /\ bucket_ok (lim w) /\ bucketSize (lim w) = C.

Lemma bucket_inv_lim C w w' :
  tokens (lim w') = tokens (lim w) ->
  tokensPerSecond (lim w') = tokensPerSecond (lim w) ->
  bucketSize (lim w') = bucketSize (lim w) ->
  bucket_inv C w -> bucket_inv C w'.
Proof.
  unfold bucket_inv, config_ok, bucket_ok. intros -> -> ->. tauto.
Qed.

Lemma bucket_inv_refill C now w :
  bucket_inv C w -> bucket_inv C (on_lim (refillTokens now) w).
Proof.
  intros (Hc & Hb & HC).
  pose proof (refillTokens_frame now (lim w)) as (_ & _ & Hr & Hs).
  repeat split; simpl; try (rewrite ?Hr, ?Hs; first [apply Hc | exact HC]);
    now apply refillTokens_bucket_ok.
Qed.

Lemma bucket_inv_scheduleProcess C now w :
  bucket_inv C w -> bucket_inv C (scheduleProcess now w).
Proof.
  intros H. apply (bucket_inv_refill C now) in H.
  revert H. apply bucket_inv_lim; reflexivity.
Qed.

Lemma bucket_inv_grant C next rest w :
  1 <= tokens (lim w) -> bucket_inv C w -> bucket_inv C (grant next rest w).
Proof.
  intros H1 ([Hr Hs] & [H0 Hle] & HC).
  unfold bucket_inv, config_ok, bucket_ok. rewrite lim_grant. simpl.
  repeat split; try assumption; lra.
Qed.

Lemma bucket_inv_drain C turns w :
  bucket_inv C w -> bucket_inv C (drain turns w).
Proof.
  revert w. induction turns as [| n IH]; intros w H; simpl; [exact H |].
  destruct (queue (lim w)) as [| next rest]; [exact H |].
  destruct (Qle_bool 1 (tokens (lim w))) eqn:E; [| exact H].
  apply IH, bucket_inv_grant; [now apply Qle_bool_iff | exact H].
Qed.

(** The loop of [processQueue] runs until its condition fails: the turns
    it is given are enough. *)
Lemma drain_exit turns w :
  (length (queue (lim w)) <= turns)%nat ->
  queue (lim (drain turns w)) = [] \/ tokens (lim (drain turns w)) < 1.
Proof.
  revert w. induction turns as [| n IH]; intros w Hlen; simpl.
  - left. destruct (queue (lim w)); [reflexivity | simpl in Hlen; lia].
  - destruct (queue (lim w)) as [| next rest] eqn:Eq; [now left; rewrite Eq |].
    destruct (Qle_bool 1 (tokens (lim w))) eqn:E.
    + apply IH. rewrite lim_grant. simpl in *. lia.
    + right. now apply Qle_bool_false.
Qed.

Lemma bucket_inv_processQueue C now now' w :
  bucket_inv C w -> bucket_inv C (processQueue now now' w).
Proof.
  intros H. unfold processQueue.
  set (w1 := on_lim _ w).
  assert (H1 : bucket_inv C w1).
  { assert (Hw : bucket_inv C (on_lim (set_timer None) w))
      by (revert H; apply bucket_inv_lim; reflexivity).
    apply (bucket_inv_refill C now) in Hw. exact Hw. }
  pose proof (bucket_inv_drain C (length (queue (lim w1))) w1 H1) as H2.
  destruct (queue (lim (drain _ w1))); [exact H2 |].
  now apply bucket_inv_scheduleProcess.
Qed.

Lemma bucket_inv_waiterTimeout C r w :
  bucket_inv C w -> bucket_inv C (waiterTimeout r w).
Proof.
  apply bucket_inv_lim; rewrite lim_waiterTimeout;
    destruct (indexOf _ _); reflexivity.
Qed.

Lemma bucket_inv_rejectAll C turns w :
  bucket_inv C w -> bucket_inv C (rejectAll turns w).
Proof.
  revert w. induction turns as [| n IH]; intros w H; simpl; [exact H |].
  destruct (queue (lim w)) as [| e rest]; [exact H |].
  apply IH. revert H.
  apply bucket_inv_lim; rewrite lim_entry_reject, lim_clearEntryTimer; reflexivity.
Qed.

Lemma bucket_inv_shutdown C w : bucket_inv C w -> bucket_inv C (shutdown w).
Proof.
  intros H. unfold shutdown. apply bucket_inv_rejectAll.
  destruct (timer (lim w)); [| exact H].
  revert H. apply bucket_inv_lim; reflexivity.
Qed.

Lemma bucket_inv_tryAcquire C now w :
  bucket_inv C w -> bucket_inv C (on_lim (fun l => snd (tryAcquire now l)) w).
Proof.
  intros (Hc & Hb & HC).
  pose proof (tryAcquire_frame now (lim w)) as (_ & _ & Hr & Hs).
  repeat split; simpl; try (rewrite ?Hr, ?Hs; first [apply Hc | exact HC]);
    now apply tryAcquire_bucket_ok.
Qed.

Lemma bucket_inv_acquire C ms now now' w :
  bucket_inv C w -> bucket_inv C (snd (acquire ms now now' w)).
Proof.
  intros H. pose proof (bucket_inv_tryAcquire C now w H) as H1.
  unfold acquire. destruct (tryAcquire now (lim w)) as [ok l1] eqn:E.
  assert (H1' : bucket_inv C (on_lim (fun _ => l1) w)).
  { revert H1. apply bucket_inv_lim; simpl; now rewrite E. }
  destruct ok; simpl; [exact H1' |].
  match goal with |- bucket_inv C (match timer (lim ?w3) with _ => _ end) =>
    assert (H3 : bucket_inv C w3) end.
  { revert H1'. apply bucket_inv_lim;
      destruct ms as [ms|]; simpl; try destruct (positive ms); reflexivity. }
  destruct (timer _); [exact H3 |].
  now apply bucket_inv_scheduleProcess.
Qed.

Lemma bucket_inv_fire C h now now' w :
  bucket_inv C w -> bucket_inv C (fire h now now' w).
Proof.
  intros H. unfold fire. destruct (timers w !! h) as [t|]; [| exact H].
  destruct (callback t).
  - apply bucket_inv_processQueue. exact H.
  - apply bucket_inv_waiterTimeout. exact H.
Qed.

Lemma bucket_inv_step C w op : bucket_inv C w -> bucket_inv C (step w op).
Proof.
  destruct op; simpl.
  - apply bucket_inv_tryAcquire.
  - apply bucket_inv_acquire.
  - apply bucket_inv_fire.
  - apply bucket_inv_shutdown.
Qed.

Lemma bucket_inv_run C ops w : bucket_inv C w -> bucket_inv C (run ops w).
Proof.
  revert w. induction ops as [| op ops IH]; intros w H; simpl; [exact H |].
  apply IH, bucket_inv_step, H.
Qed.

Lemma bucket_inv_new rate C startFull now l :
  new rate C startFull now = inr l -> bucket_inv C (init l).
Proof.
  intros H. apply new_inr in H as (Hr & Hs & ->).
  unfold bucket_inv, config_ok, bucket_ok; simpl.
  repeat split; try assumption; destruct startFull; lra.
Qed.

(** C3.  A limiter built by the constructor with capacity [C] keeps
    [0 <= tokens <= C] through every sequence of operations: [tryAcquire],
    [acquire] (with or without a timeout), the firing of any timer (which
    runs [processQueue] or a waiter's timeout closure) and [shutdown], at
    arbitrary clock readings. *)
Theorem tokens_within_capacity (rate C : Q) (startFull : bool) (now : Q)
    (l : Limiter) (ops : list Op) :
  new rate C startFull now = inr l ->
  0 <= tokens (lim (run ops (init l))) /\ tokens (lim (run ops (init l))) <= C.
Proof.
  intros Hnew.
  pose proof (bucket_inv_run C ops (init l) (bucket_inv_new _ _ _ _ _ Hnew))
    as (_ & [H0 H1] & HC).
  rewrite HC in H1. split; assumption.
Qed.

Definition demo_limiter : Limiter := mkLimiter 5 0 [] None 5 5.

Definition demo_ops : list Op :=
  [OpAcquire (Some 1) 0 0; OpAcquire None 0 0; OpAcquire None 0 0;
   OpTryAcquire 0; OpTryAcquire 0; OpAcquire (Some 50) 0 0;
   OpAcquire None 0 0; OpFire 0%nat 1 1; OpFire 1%nat 60 60;
   OpFire 2%nat 250 250; OpShutdown; OpTryAcquire 5000].

Lemma tokens_within_capacity_witness :
  0 <= tokens (lim (run demo_ops (init demo_limiter))) /\
  tokens (lim (run demo_ops (init demo_limiter))) <= 5.
Proof.
  apply (tokens_within_capacity 5 5 true 0 demo_limiter demo_ops).
  reflexivity.
Defined.



(** A full bucket of capacity 5 serves five [tryAcquire] calls made at the
    same instant and refuses the sixth. *)
Example full_bucket_serves_capacity :
  map (fun n => fst (tryAcquire 0 (lim (run (replicate n (OpTryAcquire 0))
                                             (init demo_limiter)))))
      [0; 1; 2; 3; 4; 5]%nat
  = [true; true; true; true; true; false].
Proof. reflexivity. Qed.

(** The scenario [demo_ops]: the bucket is emptied, a waiter with a 50 ms
    deadline and one without are queued; the first times out, the second is
    granted the first token that comes back. *)
Example demo_history :
  removals (run demo_ops (init demo_limiter)) = [(0%nat, TimedOut); (1%nat, Granted)]
  /\ queue (lim (run demo_ops (init demo_limiter))) = []
  /\ tokens (lim (run demo_ops (init demo_limiter))) == 4.
Proof. vm_compute. auto. Qed.

(** Three waiters on an empty bucket (5 tokens per second) are served in
    arrival order, one per wake-up. *)
Example waiters_served_in_order :
  removals (run [OpAcquire None 0 0; OpAcquire None 0 0; OpAcquire None 0 0;
                 OpFire 0%nat 200 200; OpFire 1%nat 400 400; OpFire 2%nat 600 600]
                (init (mkLimiter 0 0 [] None 5 5)))
  = [(0%nat, Granted); (1%nat, Granted); (2%nat, Granted)].
Proof. vm_compute. reflexivity. Qed.

(** *** [shutdown] and the bucket *)

Lemma set_queue_same l : set_queue (queue l) l = l.
Proof. now destruct l. Qed.

Lemma refillTokens_requeue now q t l :
  refillTokens now (set_timer t (set_queue q l)) =
  set_timer t (set_queue q (refillTokens now l)).
Proof.
  unfold refillTokens. simpl. destruct (Qle_bool _ _); reflexivity.
Qed.

Lemma tryAcquire_requeue now q t l :
  tryAcquire now (set_timer t (set_queue q l)) =
  (fst (tryAcquire now l), set_timer t (set_queue q (snd (tryAcquire now l)))).
Proof.
  unfold tryAcquire. rewrite refillTokens_requeue. simpl.
  destruct (Qle_bool 1 (tokens (refillTokens now l))); reflexivity.
Qed.

Lemma counters_clearEntryTimer r w :
  nextRef (clearEntryTimer r w) = nextRef w /\
  nextHandle (clearEntryTimer r w) = nextHandle w.
Proof.
  unfold clearEntryTimer. destruct (heap w !! r) as [[[h|] p]|]; auto.
Qed.

Lemma counters_settle r s w :
  nextRef (settle r s w) = nextRef w /\ nextHandle (settle r s w) = nextHandle w.
Proof.
  unfold settle. destruct (heap w !! r) as [[t [| |m]]|]; auto.
Qed.

Lemma counters_entry_reject r m w :
  nextRef (entry_reject r m w) = nextRef w /\
  nextHandle (entry_reject r m w) = nextHandle w.
Proof.
  unfold entry_reject.
  destruct (counters_settle r (Rejected m) (clearEntryTimer r w)) as [-> ->].
  apply counters_clearEntryTimer.
Qed.

Lemma rejectAll_frame turns w :
  lim (rejectAll turns w) = set_queue (drop turns (queue (lim w))) (lim w) /\
  nextRef (rejectAll turns w) = nextRef w /\
  nextHandle (rejectAll turns w) = nextHandle w.
Proof.
  revert w. induction turns as [| n IH]; intros w; simpl.
  - rewrite drop_0, set_queue_same. auto.
  - destruct (queue (lim w)) as [| e rest] eqn:Eq.
    + simpl. rewrite <- Eq, set_queue_same. auto.
    + match goal with |- context [rejectAll n ?v] =>
        destruct (IH v) as (-> & -> & ->);
        destruct (counters_entry_reject e "RateLimiter: shutdown"
                    (clearEntryTimer e (record e ShutDown (on_lim (set_queue rest) w))))
          as [-> ->];
        destruct (counters_clearEntryTimer e (record e ShutDown (on_lim (set_queue rest) w)))
          as [-> ->]
      end.
      rewrite lim_entry_reject, lim_clearEntryTimer. simpl. auto.
Qed.

Lemma shutdown_frame w :
  lim (shutdown w) = set_timer None (set_queue [] (lim w)) /\
  nextRef (shutdown w) = nextRef w /\
  nextHandle (shutdown w) = nextHandle w.
Proof.
  unfold shutdown.
  match goal with |- context [rejectAll ?n ?v] =>
    destruct (rejectAll_frame n v) as (-> & -> & ->) end.
  rewrite drop_all.
  destruct w as [[t lr q [h|] r c] hp ts nr nh rm]; simpl; auto.
Qed.

Lemma acquire_fst ms now now' w :
  fst (acquire ms now now' w) =
  if fst (tryAcquire now (lim w)) then Immediate else Queued (nextRef w).
Proof.
  unfold acquire. destruct (tryAcquire now (lim w)) as [[|] l1]; reflexivity.
Qed.

Lemma acquire_lim_ext ms now now' v w :
  lim v = lim w -> nextRef v = nextRef w -> nextHandle v = nextHandle w ->
  fst (acquire ms now now' v) = fst (acquire ms now now' w) /\
  lim (snd (acquire ms now now' v)) = lim (snd (acquire ms now now' w)).
Proof.
  destruct v, w. simpl. intros -> -> ->.
  unfold acquire; simpl.
  destruct (tryAcquire now _) as [[|] l1]; simpl; [auto |].
  destruct ms as [ms|]; simpl; [destruct (positive ms); simpl |];
    destruct (timer l1); simpl; auto.
Qed.

(** C10.  [shutdown] does not touch [tokens] or [lastRefill]: the limiter
    it leaves is the same limiter with an empty queue and no wake-up timer.
    Hence [tryAcquire] afterwards answers as it would have without the
    shutdown and takes the same token, and [acquire] afterwards takes the
    same path (immediate, or queueing the same new entry), acting exactly as
    on any limiter that holds the same bucket with nobody waiting: a caller
    that must wait is queued (alone) and a wake-up timer is armed. *)
Theorem shutdown_keeps_bucket (w : World) (ms : option Q) (now now' : Q) :
  let w' := shutdown w in
  (tokens (lim w') = tokens (lim w) /\ lastRefill (lim w') = lastRefill (lim w)) /\
  lim w' = set_timer None (set_queue [] (lim w)) /\
  (fst (tryAcquire now (lim w')) = fst (tryAcquire now (lim w)) /\
   tokens (snd (tryAcquire now (lim w'))) = tokens (snd (tryAcquire now (lim w))) /\
   lastRefill (snd (tryAcquire now (lim w')))
     = lastRefill (snd (tryAcquire now (lim w)))) /\
  fst (acquire ms now now' w') = fst (acquire ms now now' w) /\
  (forall v : World,
     lim v = set_timer None (set_queue [] (lim w)) ->
     nextRef v = nextRef w -> nextHandle v = nextHandle w ->
     fst (acquire ms now now' v) = fst (acquire ms now now' w') /\
     lim (snd (acquire ms now now' v)) = lim (snd (acquire ms now now' w'))) /\
  (fst (tryAcquire now (lim w)) = false ->
     fst (acquire ms now now' w') = Queued (nextRef w) /\
     queue (lim (snd (acquire ms now now' w'))) = [nextRef w] /\
     is_Some (timer (lim (snd (acquire ms now now' w'))))).
Proof.
  cbv zeta. destruct (shutdown_frame w) as (Hl & Hr & Hh).
  split; [rewrite Hl; split; reflexivity |].
  split; [exact Hl |].
  split; [rewrite Hl, tryAcquire_requeue; simpl; auto |].
  split.
  { rewrite !acquire_fst, Hr, Hl, tryAcquire_requeue. reflexivity. }
  split.
  { intros v Hv Hvr Hvh. apply acquire_lim_ext; congruence. }
  intros Hfail. rewrite acquire_fst, Hr, Hl, tryAcquire_requeue. simpl.
  rewrite Hfail. split; [reflexivity |].
  unfold acquire. rewrite Hl, tryAcquire_requeue, Hfail.
  pose proof (tryAcquire_frame now (lim w)) as (Hq & _).
  destruct ms as [ms|]; simpl; [destruct (positive ms); simpl |];
    rewrite ?(proj1 (refillTokens_frame _ _)); simpl; rewrite Hr; eauto.
Qed.

(** *** Waiters: the well-formedness of the queue, the store and the timers *)

(** How the promise of an entry is settled by each way of leaving the
    queue. *)
Definition outcome (k : Removal) : Settled :=
  match k with
  | Granted => Resolved
  | TimedOut => Rejected "RateLimiter: acquire timeout"
  | ShutDown => Rejected "RateLimiter: shutdown"
  end.

(** [wf_gen skip w]: the invariant of the worlds a limiter can reach.  The
    entry [skip], if any, is one whose timer has just fired and whose
    closure has not run yet: only [wf_armed] is relaxed for it. *)
Record wf_gen (skip : option nat) (w : World) : Prop := mkWf {
  wf_nodup : NoDup (queue (lim w));
  wf_queued : forall r, r ∈ queue (lim w) ->
    (r ∉ (removals w).*1) /\ exists t, heap w !! r = Some (mkEntry t Pending);
  wf_once : NoDup (removals w).*1;
  wf_removed : forall r k, (r, k) ∈ removals w ->
    heap w !! r = Some (mkEntry None (outcome k));
  wf_created : forall r,
    (r < nextRef w)%nat <-> r ∈ queue (lim w) \/ r ∈ (removals w).*1;
  wf_timers : forall h r d,
    timers w !! h = Some (mkTimeout (WaiterTimeout r) d) ->
    r ∈ queue (lim w) /\ exists p, heap w !! r = Some (mkEntry (Some h) p);
  wf_armed : forall r h p,
    r ∈ queue (lim w) -> Some r <> skip ->
    heap w !! r = Some (mkEntry (Some h) p) ->
    exists d, timers w !! h = Some (mkTimeout (WaiterTimeout r) d);
  wf_wake : forall h t,
    timer (lim w) = Some h -> timers w !! h = Some t -> callback t = ProcessQueue;
  wf_handles : forall h,
    is_Some (timers w !! h) \/ timer (lim w) = Some h \/
    (exists r p, heap w !! r = Some (mkEntry (Some h) p)) ->
    (h < nextHandle w)%nat;
  wf_inj : forall r r' h p p',
    heap w !! r = Some (mkEntry (Some h) p) ->
    heap w !! r' = Some (mkEntry (Some h) p') -> r = r'
}.

Definition wf : World -> Prop := wf_gen None.

(** [entry.resolve] / [entry.reject] on an entry whose promise is pending. *)
Definition retire (r : nat) (s : Settled) (w : World) : World :=
  settle r s (clearEntryTimer r w).

Lemma clearEntryTimer_idem r w :
  clearEntryTimer r (clearEntryTimer r w) = clearEntryTimer r w.
Proof.
  unfold clearEntryTimer at 2.
  destruct (heap w !! r) as [[[h|] p]|] eqn:E.
  - unfold clearEntryTimer, set_heap, clearTimeout, set_timers. simpl.
    now rewrite lookup_insert_eq, E.
  - unfold clearEntryTimer. now rewrite E.
  - unfold clearEntryTimer. now rewrite E.
Qed.

Lemma retire_pending r s w hr :
  heap w !! r = Some (mkEntry hr Pending) ->
  retire r s w =
  mkWorld (lim w) (<[r := mkEntry None s]> (heap w))
          (match hr with Some h => delete h (timers w) | None => timers w end)
          (nextRef w) (nextHandle w) (removals w).
Proof.
  intros E. unfold retire, clearEntryTimer. rewrite E.
  destruct hr as [h|]; unfold settle; simpl.
  - rewrite lookup_insert_eq. unfold set_heap. simpl.
    now rewrite insert_insert_eq.
  - rewrite E. reflexivity.
Qed.

Lemma retire_settled r s w p :
  heap w !! r = Some (mkEntry None p) -> p <> Pending -> retire r s w = w.
Proof.
  intros E Hp. unfold retire, clearEntryTimer. rewrite E.
  unfold settle. rewrite E. destruct p; congruence.
Qed.

Lemma retire_clear r s w : retire r s (clearEntryTimer r w) = retire r s w.
Proof. unfold retire. now rewrite clearEntryTimer_idem. Qed.

Lemma wf_gen_weaken skip w : wf w -> wf_gen skip w.
Proof.
  intros [H1 H2 H3 H4 H5 H6 H7 H8 H9 H10].
  constructor; try assumption.
  intros r h p Hr _. now apply H7.
Qed.

(** The invariant does not look at the bucket. *)
Lemma wf_gen_on_lim skip f w :
  queue (f (lim w)) = queue (lim w) ->
  timer (f (lim w)) = timer (lim w) \/ timer (f (lim w)) = None ->
  wf_gen skip w -> wf_gen skip (on_lim f w).
Proof.
  intros Hq Ht [H1 H2 H3 H4 H5 H6 H7 H8 H9 H10].
  constructor; simpl; rewrite ?Hq; try assumption.
  - intros h t Hh. destruct Ht as [E | E]; rewrite E in Hh.
    + now apply H8.
    + discriminate.
  - intros h [Hh | [Hh | Hh]]; apply H9; auto.
    destruct Ht as [E | E]; rewrite E in Hh; [auto | discriminate].
Qed.

Lemma removed_snoc (rm : list (nat * Removal)) r k x :
  x ∈ (rm ++ [(r, k)]).*1 <-> x ∈ rm.*1 \/ x = r.
Proof.
  rewrite fmap_app, elem_of_app. simpl. now rewrite list_elem_of_singleton.
Qed.

(** The common shape of the three ways an entry leaves the queue: [r] goes
    from the queue to the history, its timer (if any) is cleared and its
    promise settled. *)
Lemma wf_leave r k hr l' w :
  wf_gen (Some r) w ->
  r ∈ queue (lim w) ->
  heap w !! r = Some (mkEntry hr Pending) ->
  timer l' = timer (lim w) ->
  NoDup (queue l') ->
  (forall x, x ∈ queue l' <-> x ∈ queue (lim w) /\ x <> r) ->
  wf (mkWorld l' (<[r := mkEntry None (outcome k)]> (heap w))
        (match hr with Some h => delete h (timers w) | None => timers w end)
        (nextRef w) (nextHandle w) (removals w ++ [(r, k)])).
Proof.
  intros [H1 H2 H3 H4 H5 H6 H7 H8 H9 H10] Hr Er Ht Hnd Hq.
  destruct (H2 r Hr) as [Hfresh _].
  assert (Hsub : forall h t,
    match hr with Some h0 => delete h0 (timers w) | None => timers w end !! h = Some t ->
    timers w !! h = Some t /\ hr <> Some h).
  { intros h t. destruct hr as [h0|]; [| intros ->; split; [reflexivity | discriminate]].
    rewrite lookup_delete. case_decide as E; [discriminate |].
    intros ->. split; [reflexivity | congruence]. }
  constructor; simpl.
  - exact Hnd.
  - intros x Hx. apply Hq in Hx as [Hx Hne].
    destruct (H2 x Hx) as [Hx1 Hx2]. split.
    + rewrite removed_snoc. tauto.
    + now rewrite lookup_insert_ne by congruence.
  - rewrite fmap_app. apply NoDup_app. split; [exact H3 |].
    split; [| apply NoDup_singleton].
    intros x Hx Hx'. simpl in Hx'. apply list_elem_of_singleton in Hx'. congruence.
  - intros x k' Hx. apply elem_of_app in Hx as [Hx | Hx].
    + assert (x <> r).
      { intros ->. apply Hfresh. apply list_elem_of_fmap. now exists (r, k'). }
      rewrite lookup_insert_ne by congruence. now apply H4.
    + apply list_elem_of_singleton in Hx. inversion Hx; subst.
      apply lookup_insert_eq.
  - intros x. rewrite H5, Hq, removed_snoc.
    destruct (decide (x = r)) as [-> | Hne]; tauto.
  - intros h x d Hh. apply Hsub in Hh as [Hh Hne].
    destruct (H6 h x d Hh) as [Hx [p Hp]].
    assert (x <> r) by (intros ->; rewrite Er in Hp; congruence).
    split; [apply Hq; auto |].
    exists p. now rewrite lookup_insert_ne by congruence.
  - intros x h p Hx _ Hp. apply Hq in Hx as [Hx Hne].
    rewrite lookup_insert_ne in Hp by congruence.
    destruct (H7 x h p Hx ltac:(congruence) Hp) as [d Hd].
    exists d. destruct hr as [h0|]; [| exact Hd].
    rewrite lookup_delete_ne; [exact Hd |].
    intros ->. apply Hne. symmetry. exact (H10 _ _ _ _ _ Er Hp).
  - intros h t Hh Hl. rewrite Ht in Hh. apply Hsub in Hl as [Hl _]. eauto.
  - intros h [[t Hh] | [Hh | (x & p & Hp)]]; apply H9.
    + apply Hsub in Hh as [Hh _]. left. eauto.
    + right. left. congruence.
    + right. right. destruct (decide (x = r)) as [-> | Hne].
      * rewrite lookup_insert_eq in Hp. discriminate.
      * rewrite lookup_insert_ne in Hp by congruence. eauto.
  - intros x x' h p p' Hp Hp'.
    destruct (decide (x = r)) as [-> | Hne];
      [rewrite lookup_insert_eq in Hp; discriminate |].
    destruct (decide (x' = r)) as [-> | Hne'];
      [rewrite lookup_insert_eq in Hp'; discriminate |].
    rewrite lookup_insert_ne in Hp, Hp' by congruence. eauto.
Qed.

Lemma indexOf_None q r : indexOf q r = None <-> r ∉ q.
Proof.
  induction q as [| x q IH]; simpl.
  - split; [intros _; apply not_elem_of_nil | reflexivity].
  - rewrite not_elem_of_cons. destruct (decide (x = r)) as [-> | Hne].
    + split; [discriminate | tauto].
    + destruct (indexOf q r) as [i|]; simpl.
      * split; [discriminate |]. intros [_ H]. now apply IH in H.
      * split; [| reflexivity]. intros _. split; [congruence | now apply IH].
Qed.

Lemma indexOf_Some q r i :
  indexOf q r = Some i -> NoDup q ->
  r ∈ q /\ NoDup (delete i q) /\ forall x, x ∈ delete i q <-> x ∈ q /\ x <> r.
Proof.
  revert i. induction q as [| y q IH]; simpl; intros i Hi Hnd; [discriminate |].
  apply NoDup_cons in Hnd as [Hy Hq].
  destruct (decide (y = r)) as [-> | Hne].
  - inversion Hi; subst. simpl. split; [apply list_elem_of_here |].
    split; [exact Hq |]. intros x. rewrite elem_of_cons.
    split; [intros Hx; split; [tauto | congruence] | tauto].
  - destruct (indexOf q r) as [j|] eqn:Ej; simpl in Hi; [| discriminate].
    inversion Hi; subst. destruct (IH j eq_refl Hq) as (Hr & Hnd' & Hmem).
    simpl. split; [now apply list_elem_of_further |]. split.
    + apply NoDup_cons. split; [| exact Hnd'].
      intros Hy'. apply Hmem in Hy'. tauto.
    + intros x. rewrite !elem_of_cons, Hmem.
      split; [intros [-> | [? ?]]; auto | tauto].
Qed.

Lemma grant_eq next rest w hr :
  heap w !! next = Some (mkEntry hr Pending) ->
  grant next rest w =
  mkWorld (set_tokens (tokens (lim w) - 1) (set_queue rest (lim w)))
          (<[next := mkEntry None Resolved]> (heap w))
          (match hr with Some h => delete h (timers w) | None => timers w end)
          (nextRef w) (nextHandle w) (removals w ++ [(next, Granted)]).
Proof.
  intros E. unfold grant.
  change (entry_resolve next) with (retire next Resolved).
  now rewrite retire_clear, (retire_pending _ _ _ hr).
Qed.

Lemma wf_grant next rest w :
  wf w -> queue (lim w) = next :: rest -> wf (grant next rest w).
Proof.
  intros Hwf Eq.
  assert (Hin : next ∈ queue (lim w)) by (rewrite Eq; apply list_elem_of_here).
  destruct (wf_queued _ _ Hwf next Hin) as [_ [hr Er]].
  rewrite (grant_eq _ _ _ hr Er).
  pose proof (wf_nodup _ _ Hwf) as Hnd. rewrite Eq in Hnd.
  apply NoDup_cons in Hnd as [Hn Hnd].
  apply (wf_leave next Granted hr); simpl; auto using wf_gen_weaken.
  intros x. rewrite Eq, elem_of_cons.
  split; [intros Hx; split; [tauto | congruence] | tauto].
Qed.

Lemma wf_drain turns w : wf w -> wf (drain turns w).
Proof.
  revert w. induction turns as [| n IH]; intros w H; simpl; [exact H |].
  destruct (queue (lim w)) as [| next rest] eqn:Eq; [exact H |].
  destruct (Qle_bool 1 (tokens (lim w))); [| exact H].
  now apply IH, wf_grant.
Qed.

Lemma rejectOne_eq entry rest w hr :
  heap w !! entry = Some (mkEntry hr Pending) ->
  entry_reject entry "RateLimiter: shutdown"
    (clearEntryTimer entry (record entry ShutDown (on_lim (set_queue rest) w))) =
  mkWorld (set_queue rest (lim w))
          (<[entry := mkEntry None (outcome ShutDown)]> (heap w))
          (match hr with Some h => delete h (timers w) | None => timers w end)
          (nextRef w) (nextHandle w) (removals w ++ [(entry, ShutDown)]).
Proof.
  intros E.
  change (entry_reject entry "RateLimiter: shutdown")
    with (retire entry (Rejected "RateLimiter: shutdown")).
  now rewrite retire_clear, (retire_pending _ _ _ hr).
Qed.

Lemma wf_rejectAll turns w : wf w -> wf (rejectAll turns w).
Proof.
  revert w. induction turns as [| n IH]; intros w Hwf; simpl; [exact Hwf |].
  destruct (queue (lim w)) as [| e rest] eqn:Eq; [exact Hwf |].
  apply IH.
  assert (Hin : e ∈ queue (lim w)) by (rewrite Eq; apply list_elem_of_here).
  destruct (wf_queued _ _ Hwf e Hin) as [_ [hr Er]].
  rewrite (rejectOne_eq _ _ _ hr Er).
  pose proof (wf_nodup _ _ Hwf) as Hnd. rewrite Eq in Hnd.
  apply NoDup_cons in Hnd as [Hn Hnd].
  apply (wf_leave e ShutDown hr); simpl; auto using wf_gen_weaken.
  intros x. rewrite Eq, elem_of_cons.
  split; [intros Hx; split; [tauto | congruence] | tauto].
Qed.

(** A timer leaves the set of pending timers (it fired, or was cleared).
    If it was the deadline of a queued entry, that entry becomes [skip]. *)
Lemma wf_gen_delete_timer skip h w :
  wf w ->
  (forall r d, timers w !! h = Some (mkTimeout (WaiterTimeout r) d) -> skip = Some r) ->
  wf_gen skip (set_timers (delete h (timers w)) w).
Proof.
  intros [H1 H2 H3 H4 H5 H6 H7 H8 H9 H10] Hskip.
  constructor; simpl; try assumption.
  - intros h' r d. rewrite lookup_delete. case_decide; [discriminate | apply H6].
  - intros r h' p Hr Hne Hp.
    destruct (H7 r h' p Hr ltac:(discriminate) Hp) as [d Hd]. exists d.
    rewrite lookup_delete_ne; [exact Hd |].
    intros ->. apply Hne. symmetry. eauto.
  - intros h' t Hl. rewrite lookup_delete. case_decide; [discriminate | now apply H8].
  - intros h' [[t Ht] | Hh]; apply H9; [left | right; exact Hh].
    rewrite lookup_delete in Ht. case_decide; [discriminate | eauto].
Qed.

Lemma scheduleProcess_eq now w :
  exists ms,
    scheduleProcess now w =
    mkWorld (set_timer (Some (nextHandle w)) (refillTokens now (lim w))) (heap w)
            (<[nextHandle w := mkTimeout ProcessQueue ms]> (timers w))
            (nextRef w) (S (nextHandle w)) (removals w).
Proof. unfold scheduleProcess, setTimeout. simpl. eauto. Qed.

Lemma wf_scheduleProcess now w : wf w -> wf (scheduleProcess now w).
Proof.
  intros [H1 H2 H3 H4 H5 H6 H7 H8 H9 H10].
  destruct (scheduleProcess_eq now w) as [ms ->].
  pose proof (refillTokens_frame now (lim w)) as (Hq & _).
  constructor; simpl; rewrite ?Hq; try assumption.
  - intros h r d. rewrite lookup_insert. case_decide; [discriminate | apply H6].
  - intros r h p Hr Hne Hp. destruct (H7 r h p Hr Hne Hp) as [d Hd]. exists d.
    rewrite lookup_insert_ne; [exact Hd |].
    assert (h < nextHandle w)%nat by (apply H9; eauto). lia.
  - intros h t [= <-]. rewrite lookup_insert_eq. now intros [= <-].
  - intros h [[t Ht] | [[= <-] | Hh]]; [| lia |].
    + rewrite lookup_insert in Ht. case_decide; [lia |].
      assert (h < nextHandle w)%nat by (apply H9; eauto). lia.
    + assert (h < nextHandle w)%nat by (apply H9; eauto). lia.
Qed.

Lemma wf_processQueue now now' w : wf w -> wf (processQueue now now' w).
Proof.
  intros Hwf. unfold processQueue.
  set (w1 := on_lim _ w).
  assert (H1 : wf w1).
  { apply wf_gen_on_lim; [| | exact Hwf].
    - now rewrite (proj1 (refillTokens_frame now _)).
    - right. now rewrite (proj1 (proj2 (refillTokens_frame now _))). }
  pose proof (wf_drain (length (queue (lim w1))) w1 H1) as H2.
  destruct (queue (lim (drain _ w1))); [exact H2 |].
  now apply wf_scheduleProcess.
Qed.

Lemma wf_shutdown w : wf w -> wf (shutdown w).
Proof.
  intros Hwf. unfold shutdown. apply wf_rejectAll.
  destruct (timer (lim w)) as [h|] eqn:Et; [| exact Hwf].
  apply (wf_gen_on_lim None (set_timer None) (clearTimeout h w)); auto.
  apply wf_gen_delete_timer; [exact Hwf |].
  intros r d Hd. pose proof (wf_wake _ _ Hwf h _ Et Hd) as Hc. discriminate.
Qed.

(** The timeout closure of [r], run on a world where [r] is still queued. *)
Lemma waiterTimeout_eq r w idx hr :
  indexOf (queue (lim w)) r = Some idx ->
  heap w !! r = Some (mkEntry hr Pending) ->
  waiterTimeout r w =
  mkWorld (set_queue (delete idx (queue (lim w))) (lim w))
          (<[r := mkEntry None (outcome TimedOut)]> (heap w))
          (match hr with Some h => delete h (timers w) | None => timers w end)
          (nextRef w) (nextHandle w) (removals w ++ [(r, TimedOut)]).
Proof.
  intros Ei E. unfold waiterTimeout. rewrite Ei.
  change (entry_reject r "RateLimiter: acquire timeout")
    with (retire r (Rejected "RateLimiter: acquire timeout")).
  now rewrite (retire_pending _ _ _ hr).
Qed.

Lemma wf_waiterTimeout r w :
  wf_gen (Some r) w -> r ∈ queue (lim w) -> wf (waiterTimeout r w).
Proof.
  intros Hwf Hr.
  destruct (wf_queued _ _ Hwf r Hr) as [_ [hr Er]].
  destruct (indexOf (queue (lim w)) r) as [idx|] eqn:Ei;
    [| now apply indexOf_None in Ei].
  destruct (indexOf_Some _ _ _ Ei (wf_nodup _ _ Hwf)) as (_ & Hnd & Hmem).
  rewrite (waiterTimeout_eq _ _ idx hr Ei Er).
  now apply (wf_leave r TimedOut hr).
Qed.

Lemma wf_fire h now now' w : wf w -> wf (fire h now now' w).
Proof.
  intros Hwf. unfold fire.
  destruct (timers w !! h) as [[c d]|] eqn:Eh; [| exact Hwf]. simpl.
  destruct c as [| r].
  - apply wf_processQueue, wf_gen_delete_timer; [exact Hwf |].
    intros r d' Hd. congruence.
  - apply wf_waiterTimeout.
    + apply wf_gen_delete_timer; [exact Hwf |]. intros r' d' Hd. congruence.
    + simpl. now apply (wf_timers _ _ Hwf h r d).
Qed.

(** The deadline [acquire] attaches: only a positive number counts. *)
Definition deadline (timeoutMs : option Q) : option Q :=
  match timeoutMs with
  | Some ms => if positive ms then Some ms else None
  | None => None
  end.

(** The world right after [acquire] has pushed its new entry (before it
    looks at the wake-up timer). *)
Definition enqueued (dl : option Q) (l1 : Limiter) (w : World) : World :=
  let r := nextRef w in
  match dl with
  | Some ms =>
      mkWorld (set_queue (queue l1 ++ [r]) l1)
              (<[r := mkEntry (Some (nextHandle w)) Pending]> (heap w))
              (<[nextHandle w := mkTimeout (WaiterTimeout r) ms]> (timers w))
              (S r) (S (nextHandle w)) (removals w)
  | None =>
      mkWorld (set_queue (queue l1 ++ [r]) l1)
              (<[r := mkEntry None Pending]> (heap w)) (timers w)
              (S r) (nextHandle w) (removals w)
  end.

Lemma acquire_fast ms now now' w l1 :
  tryAcquire now (lim w) = (true, l1) ->
  acquire ms now now' w = (Immediate, on_lim (fun _ => l1) w).
Proof. intros E. unfold acquire. now rewrite E. Qed.

Lemma acquire_slow ms now now' w l1 :
  tryAcquire now (lim w) = (false, l1) ->
  acquire ms now now' w =
  (Queued (nextRef w),
   match timer l1 with
   | None => scheduleProcess now' (enqueued (deadline ms) l1 w)
   | Some _ => enqueued (deadline ms) l1 w
   end).
Proof.
  intros E. unfold acquire. rewrite E. f_equal.
  unfold enqueued, deadline, setTimeout, set_heap, on_lim.
  destruct ms as [ms|]; simpl; [destruct (positive ms); simpl |];
    rewrite ?insert_insert_eq; reflexivity.
Qed.

Lemma wf_enqueued dl l1 w :
  wf w -> queue l1 = queue (lim w) -> timer l1 = timer (lim w) ->
  wf (enqueued dl l1 w).
Proof.
  intros [H1 H2 H3 H4 H5 H6 H7 H8 H9 H10] Hq Ht.
  assert (Hfresh : forall x, x ∈ queue (lim w) \/ x ∈ (removals w).*1 -> x <> nextRef w).
  { intros x Hx. apply H5 in Hx. lia. }
  assert (Hold : forall h,
    is_Some (timers w !! h) \/ timer (lim w) = Some h \/
    (exists r p, heap w !! r = Some (mkEntry (Some h) p)) -> h <> nextHandle w).
  { intros h Hh. apply H9 in Hh. lia. }
  assert (Hmem : forall x, x ∈ queue l1 ++ [nextRef w] <->
                           x ∈ queue (lim w) \/ x = nextRef w).
  { intros x. now rewrite Hq, elem_of_app, list_elem_of_singleton. }
  unfold enqueued. destruct dl as [ms|]; constructor; simpl; try assumption.
  (* with a deadline *)
  - rewrite Hq. apply NoDup_app. split; [exact H1 |]. split; [| apply NoDup_singleton].
    intros x Hx Hx'. apply list_elem_of_singleton in Hx'. apply (Hfresh x); auto.
  - intros x Hx. apply Hmem in Hx as [Hx | ->].
    + destruct (H2 x Hx). rewrite lookup_insert_ne by (apply not_eq_sym, Hfresh; auto).
      auto.
    + split; [intros Hx; apply (Hfresh (nextRef w)); auto |].
      rewrite lookup_insert_eq. eauto.
  - intros x k Hx. rewrite lookup_insert_ne; [now apply H4 |].
    apply not_eq_sym, Hfresh. right. apply list_elem_of_fmap. now exists (x, k).
  - intros x. rewrite Hmem. specialize (H5 x).
    destruct (decide (x = nextRef w)) as [-> | Hne]; [split; [auto | lia] |].
    split; [intros Hx; assert (x < nextRef w)%nat by lia; tauto |].
    intros [[Hx | Hx] | Hx]; [| tauto |]; assert (x < nextRef w)%nat by tauto; lia.
  - intros h x d. rewrite lookup_insert. case_decide as Eh.
    + intros [= <- <-]. subst h. split; [apply Hmem; auto |].
      rewrite lookup_insert_eq. eauto.
    + intros Hh. destruct (H6 h x d Hh) as [Hx [p Hp]].
      split; [apply Hmem; auto |]. exists p.
      rewrite lookup_insert_ne; [exact Hp |]. apply not_eq_sym, Hfresh. auto.
  - intros x h p Hx Hne Hp. apply Hmem in Hx as [Hx | ->].
    + rewrite lookup_insert_ne in Hp by (apply not_eq_sym, Hfresh; auto).
      destruct (H7 x h p Hx Hne Hp) as [d Hd]. exists d.
      rewrite lookup_insert_ne; [exact Hd |]. apply not_eq_sym, Hold. eauto.
    + rewrite lookup_insert_eq in Hp. injection Hp as <- <-.
      rewrite lookup_insert_eq. eauto.
  - intros h t Hh. rewrite Ht in Hh.
    rewrite lookup_insert_ne by (apply not_eq_sym, Hold; auto). now apply H8.
  - intros h [[t Hh] | [Hh | (x & p & Hp)]].
    + rewrite lookup_insert in Hh. case_decide; [lia |].
      assert (h < nextHandle w)%nat by (apply H9; eauto). lia.
    + rewrite Ht in Hh. assert (h < nextHandle w)%nat by (apply H9; eauto). lia.
    + rewrite lookup_insert in Hp. case_decide; [injection Hp as <- _; lia |].
      assert (h < nextHandle w)%nat by (apply H9; eauto 6). lia.
  - intros x x' h p p'. rewrite !lookup_insert.
    repeat case_decide; subst; intros Hp Hp'; try congruence.
    + injection Hp as <- _. exfalso. apply (Hold (nextHandle w)); eauto 6.
    + injection Hp' as <- _. exfalso. apply (Hold (nextHandle w)); eauto 6.
    + eauto.
  (* without a deadline *)
  - rewrite Hq. apply NoDup_app. split; [exact H1 |]. split; [| apply NoDup_singleton].
    intros x Hx Hx'. apply list_elem_of_singleton in Hx'. apply (Hfresh x); auto.
  - intros x Hx. apply Hmem in Hx as [Hx | ->].
    + destruct (H2 x Hx). rewrite lookup_insert_ne by (apply not_eq_sym, Hfresh; auto).
      auto.
    + split; [intros Hx; apply (Hfresh (nextRef w)); auto |].
      rewrite lookup_insert_eq. eauto.
  - intros x k Hx. rewrite lookup_insert_ne; [now apply H4 |].
    apply not_eq_sym, Hfresh. right. apply list_elem_of_fmap. now exists (x, k).
  - intros x. rewrite Hmem. specialize (H5 x).
    destruct (decide (x = nextRef w)) as [-> | Hne]; [split; [auto | lia] |].
    split; [intros Hx; assert (x < nextRef w)%nat by lia; tauto |].
    intros [[Hx | Hx] | Hx]; [| tauto |]; assert (x < nextRef w)%nat by tauto; lia.
  - intros h x d Hh. destruct (H6 h x d Hh) as [Hx [p Hp]].
    split; [apply Hmem; auto |]. exists p.
    rewrite lookup_insert_ne; [exact Hp |]. apply not_eq_sym, Hfresh. auto.
  - intros x h p Hx Hne Hp. apply Hmem in Hx as [Hx | ->].
    + rewrite lookup_insert_ne in Hp by (apply not_eq_sym, Hfresh; auto).
      now apply (H7 x h p).
    + rewrite lookup_insert_eq in Hp. discriminate.
  - intros h t Hh. rewrite Ht in Hh. now apply H8.
  - intros h [Hh | [Hh | (x & p & Hp)]]; apply H9; [auto | rewrite <- Ht; auto |].
    rewrite lookup_insert in Hp. case_decide; [discriminate | eauto 6].
  - intros x x' h p p'. rewrite !lookup_insert.
    repeat case_decide; subst; intros Hp Hp'; try congruence. eauto.
Qed.

Lemma wf_acquire ms now now' w : wf w -> wf (snd (acquire ms now now' w)).
Proof.
  intros Hwf. pose proof (tryAcquire_frame now (lim w)) as (Hq & Ht & _).
  destruct (tryAcquire now (lim w)) as [[|] l1] eqn:E; simpl in Hq, Ht.
  - rewrite (acquire_fast _ _ _ _ _ E). simpl.
    apply wf_gen_on_lim; auto.
  - rewrite (acquire_slow _ _ _ _ _ E). simpl.
    pose proof (wf_enqueued (deadline ms) l1 w Hwf Hq Ht) as H3.
    destruct (timer l1); [exact H3 | now apply wf_scheduleProcess].
Qed.

Lemma wf_step w op : wf w -> wf (step w op).
Proof.
  destruct op; simpl.
  - apply wf_gen_on_lim.
    + apply tryAcquire_frame.
    + left. apply tryAcquire_frame.
  - apply wf_acquire.
  - apply wf_fire.
  - apply wf_shutdown.
Qed.

Lemma wf_run ops w : wf w -> wf (run ops w).
Proof.
  revert w. induction ops as [| op ops IH]; intros w H; simpl; [exact H |].
  apply IH, wf_step, H.
Qed.

Lemma wf_init l : queue l = [] -> timer l = None -> wf (init l).
Proof.
  intros Hq Ht. constructor; simpl; rewrite ?Hq, ?Ht.
  - apply NoDup_nil_2.
  - intros r Hr. now apply not_elem_of_nil in Hr.
  - apply NoDup_nil_2.
  - intros r k Hr. now apply not_elem_of_nil in Hr.
  - intros r. split; [lia |]. intros [Hr | Hr]; now apply not_elem_of_nil in Hr.
  - intros h r d. rewrite lookup_empty. discriminate.
  - intros r h p Hr. now apply not_elem_of_nil in Hr.
  - discriminate.
  - intros h [[t Hh] | [Hh | (x & p & Hp)]];
      [rewrite lookup_empty in Hh | | rewrite lookup_empty in Hp]; discriminate.
  - intros r r' h p p'. rewrite lookup_empty. discriminate.
Qed.

(** *** The history only grows *)

Definition grows (w w' : World) : Prop :=
  forall x, x ∈ removals w -> x ∈ removals w'.

Lemma grows_refl w : grows w w.
Proof. intros x Hx. exact Hx. Qed.

Lemma grows_trans w1 w2 w3 : grows w1 w2 -> grows w2 w3 -> grows w1 w3.
Proof. intros H1 H2 x Hx. auto. Qed.

Lemma grows_same w w' : removals w' = removals w -> grows w w'.
Proof. intros E x. now rewrite E. Qed.

Lemma removals_clearEntryTimer r w : removals (clearEntryTimer r w) = removals w.
Proof.
  unfold clearEntryTimer. destruct (heap w !! r) as [[[h|] p]|]; reflexivity.
Qed.

Lemma removals_retire r s w : removals (retire r s w) = removals w.
Proof.
  unfold retire, settle.
  destruct (heap (clearEntryTimer r w) !! r) as [[t [| |m]]|]; simpl;
    apply removals_clearEntryTimer.
Qed.

Lemma grows_record r k w w' :
  removals w' = removals w ++ [(r, k)] -> grows w w'.
Proof. intros E x Hx. rewrite E. apply elem_of_app. auto. Qed.

Lemma grows_grant next rest w : grows w (grant next rest w).
Proof.
  apply (grows_record next Granted). unfold grant.
  change (entry_resolve next) with (retire next Resolved).
  now rewrite removals_retire, removals_clearEntryTimer.
Qed.

Lemma grows_drain turns w : grows w (drain turns w).
Proof.
  revert w. induction turns as [| n IH]; intros w; simpl; [apply grows_refl |].
  destruct (queue (lim w)) as [| next rest]; [apply grows_refl |].
  destruct (Qle_bool 1 (tokens (lim w))); [| apply grows_refl].
  eapply grows_trans; [apply grows_grant | apply IH].
Qed.

Lemma grows_scheduleProcess now w : grows w (scheduleProcess now w).
Proof. now apply grows_same. Qed.

Lemma grows_processQueue now now' w : grows w (processQueue now now' w).
Proof.
  unfold processQueue. set (w1 := on_lim _ w).
  assert (H : grows w (drain (length (queue (lim w1))) w1))
    by (eapply grows_trans; [| apply grows_drain]; now apply grows_same).
  destruct (queue (lim (drain _ w1))); [exact H |].
  eapply grows_trans; [exact H | apply grows_scheduleProcess].
Qed.

Lemma grows_waiterTimeout r w : grows w (waiterTimeout r w).
Proof.
  unfold waiterTimeout.
  change (entry_reject r "RateLimiter: acquire timeout")
    with (retire r (Rejected "RateLimiter: acquire timeout")).
  destruct (indexOf _ _).
  - apply (grows_record r TimedOut). now rewrite removals_retire.
  - apply grows_same. now rewrite removals_retire.
Qed.

Lemma grows_rejectAll turns w : grows w (rejectAll turns w).
Proof.
  revert w. induction turns as [| n IH]; intros w; simpl; [apply grows_refl |].
  destruct (queue (lim w)) as [| e rest]; [apply grows_refl |].
  eapply grows_trans; [| apply IH].
  apply (grows_record e ShutDown).
  change (entry_reject e "RateLimiter: shutdown")
    with (retire e (Rejected "RateLimiter: shutdown")).
  now rewrite removals_retire, removals_clearEntryTimer.
Qed.

Lemma grows_step w op : grows w (step w op).
Proof.
  destruct op; simpl.
  - now apply grows_same.
  - destruct (tryAcquire now (lim w)) as [[|] l1] eqn:E.
    + rewrite (acquire_fast _ _ _ _ _ E). now apply grows_same.
    + rewrite (acquire_slow _ _ _ _ _ E). simpl.
      assert (H3 : grows w (enqueued (deadline timeoutMs) l1 w)).
      { apply grows_same. unfold enqueued. now destruct (deadline timeoutMs). }
      destruct (timer l1); [exact H3 |].
      eapply grows_trans; [exact H3 | apply grows_scheduleProcess].
  - unfold fire. destruct (timers w !! h) as [[[| r] d]|]; simpl.
    + eapply grows_trans; [| apply grows_processQueue]. now apply grows_same.
    + eapply grows_trans; [| apply grows_waiterTimeout]. now apply grows_same.
    + apply grows_refl.
  - unfold shutdown. eapply grows_trans; [| apply grows_rejectAll].
    apply grows_same. destruct (timer (lim w)); reflexivity.
Qed.

Lemma grows_run ops w : grows w (run ops w).
Proof.
  revert w. induction ops as [| op ops IH]; intros w; simpl; [apply grows_refl |].
  eapply grows_trans; [apply grows_step | apply IH].
Qed.

(** Without [shutdown], an entry leaves the queue granted or timed out. *)

Definition race (k : Removal) : Prop := k = Granted \/ k = TimedOut.

Definition adds_races (w w' : World) : Prop :=
  forall r k, (r, k) ∈ removals w' -> (r, k) ∈ removals w \/ race k.

Lemma adds_races_refl w : adds_races w w.
Proof. intros r k Hk. now left. Qed.

Lemma adds_races_trans w1 w2 w3 :
  adds_races w1 w2 -> adds_races w2 w3 -> adds_races w1 w3.
Proof.
  intros H1 H2 r k Hk. destruct (H2 r k Hk) as [Hk' | Hk']; [auto | now right].
Qed.

Lemma adds_races_same w w' : removals w' = removals w -> adds_races w w'.
Proof. intros E r k. rewrite E. now left. Qed.

Lemma adds_races_record r k w w' :
  race k -> removals w' = removals w ++ [(r, k)] -> adds_races w w'.
Proof.
  intros Hk E r' k'. rewrite E, elem_of_app, list_elem_of_singleton.
  intros [H | [= -> ->]]; auto.
Qed.

Lemma adds_races_drain turns w : adds_races w (drain turns w).
Proof.
  revert w. induction turns as [| n IH]; intros w; simpl; [apply adds_races_refl |].
  destruct (queue (lim w)) as [| next rest]; [apply adds_races_refl |].
  destruct (Qle_bool 1 (tokens (lim w))); [| apply adds_races_refl].
  eapply adds_races_trans; [| apply IH].
  apply (adds_races_record next Granted); [now left |]. unfold grant.
  change (entry_resolve next) with (retire next Resolved).
  now rewrite removals_retire, removals_clearEntryTimer.
Qed.

Lemma adds_races_processQueue now now' w : adds_races w (processQueue now now' w).
Proof.
  unfold processQueue. set (w1 := on_lim _ w).
  assert (H : adds_races w (drain (length (queue (lim w1))) w1))
    by (eapply adds_races_trans; [| apply adds_races_drain]; now apply adds_races_same).
  destruct (queue (lim (drain _ w1))); [exact H |].
  eapply adds_races_trans; [exact H | now apply adds_races_same].
Qed.

Lemma adds_races_waiterTimeout r w : adds_races w (waiterTimeout r w).
Proof.
  unfold waiterTimeout.
  change (entry_reject r "RateLimiter: acquire timeout")
    with (retire r (Rejected "RateLimiter: acquire timeout")).
  destruct (indexOf _ _).
  - apply (adds_races_record r TimedOut); [now right |]. now rewrite removals_retire.
  - apply adds_races_same. now rewrite removals_retire.
Qed.

Lemma adds_races_step w op : op <> OpShutdown -> adds_races w (step w op).
Proof.
  intros Hop. destruct op; simpl; [| | | congruence].
  - now apply adds_races_same.
  - destruct (tryAcquire now (lim w)) as [[|] l1] eqn:E.
    + rewrite (acquire_fast _ _ _ _ _ E). now apply adds_races_same.
    + rewrite (acquire_slow _ _ _ _ _ E). simpl.
      assert (H3 : adds_races w (enqueued (deadline timeoutMs) l1 w)).
      { apply adds_races_same. unfold enqueued. now destruct (deadline timeoutMs). }
      destruct (timer l1); [exact H3 |].
      eapply adds_races_trans; [exact H3 | now apply adds_races_same].
  - unfold fire. destruct (timers w !! h) as [[[| r] d]|]; simpl.
    + eapply adds_races_trans; [| apply adds_races_processQueue].
      now apply adds_races_same.
    + eapply adds_races_trans; [| apply adds_races_waiterTimeout].
      now apply adds_races_same.
    + apply adds_races_refl.
Qed.

Lemma adds_races_run ops w : OpShutdown ∉ ops -> adds_races w (run ops w).
Proof.
  revert w. induction ops as [| op ops IH]; intros w Hops; simpl;
    [apply adds_races_refl |].
  apply not_elem_of_cons in Hops as [Hop Hops].
  apply (adds_races_trans _ (step w op)); [| now apply IH].
  apply adds_races_step. now intros ->.
Qed.

(** *** Consequences of the invariant *)

Lemma removed_unique w r k k' :
  wf w -> (r, k) ∈ removals w -> (r, k') ∈ removals w -> k = k'.
Proof.
  intros Hwf Hk Hk'.
  pose proof (wf_removed _ _ Hwf r k Hk) as E.
  pose proof (wf_removed _ _ Hwf r k' Hk') as E'.
  rewrite E in E'. destruct k, k'; simpl in E'; congruence.
Qed.

Lemma removed_not_queued w r k :
  wf w -> (r, k) ∈ removals w -> r ∉ queue (lim w).
Proof.
  intros Hwf Hk Hq. destruct (wf_queued _ _ Hwf r Hq) as [Hn _].
  apply Hn. apply list_elem_of_fmap. now exists (r, k).
Qed.

(** The closure of a waiter that has already left the queue does nothing. *)
Lemma waiterTimeout_late w r k :
  wf w -> (r, k) ∈ removals w -> waiterTimeout r w = w.
Proof.
  intros Hwf Hk. unfold waiterTimeout.
  pose proof (removed_not_queued _ _ _ Hwf Hk) as Hq.
  apply indexOf_None in Hq. rewrite Hq.
  change (entry_reject r "RateLimiter: acquire timeout")
    with (retire r (Rejected "RateLimiter: acquire timeout")).
  apply (retire_settled _ _ _ (outcome k)).
  - now apply (wf_removed _ _ Hwf).
  - destruct k; discriminate.
Qed.

(** A queued waiter with a deadline: its timer is pending, and when it
    fires the waiter leaves the queue, timed out. *)
Lemma fire_deadline w r h p now now' :
  wf w -> r ∈ queue (lim w) -> heap w !! r = Some (mkEntry (Some h) p) ->
  (exists d, timers w !! h = Some (mkTimeout (WaiterTimeout r) d)) /\
  (r, TimedOut) ∈ removals (fire h now now' w) /\
  (r ∉ queue (lim (fire h now now' w))) /\
  heap (fire h now now' w) !! r = Some (mkEntry None (outcome TimedOut)).
Proof.
  intros Hwf Hr Hp.
  destruct (wf_armed _ _ Hwf r h p Hr ltac:(discriminate) Hp) as [d Hd].
  split; [eauto |].
  assert (Hwf' : wf (fire h now now' w)) by now apply wf_fire.
  assert (Hin : (r, TimedOut) ∈ removals (fire h now now' w)).
  { unfold fire. rewrite Hd. cbn [callback].
    destruct (wf_queued _ _ Hwf r Hr) as [_ [t Et]].
    destruct (indexOf (queue (lim w)) r) as [idx|] eqn:Ei;
      [| now apply indexOf_None in Ei].
    rewrite (waiterTimeout_eq r (set_timers (delete h (timers w)) w) idx t Ei Et).
    simpl.
    apply elem_of_app. right. apply list_elem_of_here. }
  split; [exact Hin |]. split.
  - now apply (removed_not_queued _ _ TimedOut).
  - now apply (wf_removed _ _ Hwf').
Qed.

(** C7.  On every world a limiter built by the constructor can reach, by any
    sequence of operations and timer firings: no waiter is removed from the
    queue twice, in particular none is both granted and timed out, and unless
    the limiter is shut down these are the only two ways to leave; every
    waiter [acquire] ever queued is either still queued (once, pending) or
    has left exactly once, its promise settled accordingly.  Whichever
    removal came first wins: from then on no pending timer refers to the
    waiter, running its timeout closure changes nothing at all, and no later
    operation queues, removes or re-settles it.  While a waiter with a
    deadline is queued its timer is pending, and its firing removes the
    waiter with the timeout rejection. *)
Theorem waiter_leaves_once (rate C : Q) (startFull : bool) (t0 : Q)
    (l : Limiter) (ops : list Op) :
  new rate C startFull t0 = inr l ->
  let w := run ops (init l) in
  NoDup (removals w).*1 /\
  (forall r, (r, Granted) ∈ removals w -> (r, TimedOut) ∉ removals w) /\
  (OpShutdown ∉ ops ->
   forall r k, (r, k) ∈ removals w -> k = Granted \/ k = TimedOut) /\
  NoDup (queue (lim w)) /\
  (forall r, (r < nextRef w)%nat ->
     (r ∈ queue (lim w) /\ (r ∉ (removals w).*1) /\
      exists t, heap w !! r = Some (mkEntry t Pending)) \/
     ((r ∉ queue (lim w)) /\
      exists k, (r, k) ∈ removals w /\
                heap w !! r = Some (mkEntry None (outcome k)))) /\
  (forall r k, (r, k) ∈ removals w ->
     (forall h t, timers w !! h = Some t -> callback t <> WaiterTimeout r) /\
     waiterTimeout r w = w /\
     forall more,
       (r, k) ∈ removals (run more w) /\
       (forall k', (r, k') ∈ removals (run more w) -> k' = k) /\
       (r ∉ queue (lim (run more w))) /\
       heap (run more w) !! r = Some (mkEntry None (outcome k))) /\
  (forall r h p now now',
     r ∈ queue (lim w) -> heap w !! r = Some (mkEntry (Some h) p) ->
     (exists d, timers w !! h = Some (mkTimeout (WaiterTimeout r) d)) /\
     (r, TimedOut) ∈ removals (fire h now now' w) /\
     (r ∉ queue (lim (fire h now now' w))) /\
     heap (fire h now now' w) !! r = Some (mkEntry None (outcome TimedOut))).
Proof.
  intros Hnew. cbv zeta.
  apply new_inr in Hnew as (_ & _ & ->).
  set (w := run ops _).
  assert (Hwf : wf w) by (apply wf_run, wf_init; reflexivity).
  split; [apply (wf_once _ _ Hwf) |].
  split.
  { intros r Hg Ht. pose proof (removed_unique _ _ _ _ Hwf Hg Ht). discriminate. }
  split.
  { intros Hcalm r k Hk.
    destruct (adds_races_run ops _ Hcalm r k Hk) as [Hk' | Hk']; [| exact Hk'].
    now apply not_elem_of_nil in Hk'. }
  split; [apply (wf_nodup _ _ Hwf) |].
  split.
  { intros r Hr. apply (wf_created _ _ Hwf) in Hr.
    destruct (decide (r ∈ queue (lim w))) as [Hq | Hq].
    - left. split; [exact Hq |]. apply (wf_queued _ _ Hwf r Hq).
    - right. split; [exact Hq |]. destruct Hr as [Hr | Hr]; [tauto |].
      apply list_elem_of_fmap in Hr as [[r' k] [-> Hk]]. simpl.
      exists k. split; [exact Hk | now apply (wf_removed _ _ Hwf)]. }
  split.
  { intros r k Hk. split; [| split].
    - intros h [c d] Hh Hc. simpl in Hc. subst c.
      destruct (wf_timers _ _ Hwf h r d Hh) as [Hq _].
      now apply (removed_not_queued _ _ _ Hwf Hk).
    - now apply (waiterTimeout_late _ _ k).
    - intros more.
      assert (Hwf' : wf (run more w)) by now apply wf_run.
      assert (Hk' : (r, k) ∈ removals (run more w)) by now apply grows_run.
      split; [exact Hk' |]. split; [| split].
      + intros k' Hk''. now apply (removed_unique _ r _ _ Hwf').
      + now apply (removed_not_queued _ _ k).
      + now apply (wf_removed _ _ Hwf'). }
  intros r h p now now'. now apply fire_deadline.
Qed.

(** A bucket of two tokens is emptied; three callers queue, two of them with
    deadlines (100 ms, 300 ms).  The first deadline passes before a token is
    back.  The wake-up at 200 ms grants the second caller and clears its
    timer, so that handle (2), fired at 300 ms, runs nothing; the next
    wake-up serves the third caller. *)
Definition race_limiter : Limiter := mkLimiter 2 0 [] None 5 2.

Definition race_ops : list Op :=
  [OpTryAcquire 0; OpTryAcquire 0;
   OpAcquire (Some 100) 0 0; OpAcquire (Some 300) 0 0; OpAcquire None 0 0;
   OpFire 0%nat 100 100; OpFire 1%nat 200 200; OpFire 2%nat 300 300;
   OpFire 3%nat 400 400].

Example race_history :
  removals (run race_ops (init race_limiter))
  = [(0%nat, TimedOut); (1%nat, Granted); (2%nat, Granted)].
Proof. vm_compute. reflexivity. Qed.

Lemma waiter_leaves_once_witness :
  let w := run race_ops (init race_limiter) in
  NoDup (removals w).*1 /\
  (forall r, (r, Granted) ∈ removals w -> (r, TimedOut) ∉ removals w) /\
  (OpShutdown ∉ race_ops ->
   forall r k, (r, k) ∈ removals w -> k = Granted \/ k = TimedOut) /\
  NoDup (queue (lim w)) /\
  (forall r, (r < nextRef w)%nat ->
     (r ∈ queue (lim w) /\ (r ∉ (removals w).*1) /\
      exists t, heap w !! r = Some (mkEntry t Pending)) \/
     ((r ∉ queue (lim w)) /\
      exists k, (r, k) ∈ removals w /\
                heap w !! r = Some (mkEntry None (outcome k)))) /\
  (forall r k, (r, k) ∈ removals w ->
     (forall h t, timers w !! h = Some t -> callback t <> WaiterTimeout r) /\
     waiterTimeout r w = w /\
     forall more,
       (r, k) ∈ removals (run more w) /\
       (forall k', (r, k') ∈ removals (run more w) -> k' = k) /\
       (r ∉ queue (lim (run more w))) /\
       heap (run more w) !! r = Some (mkEntry None (outcome k))) /\
  (forall r h p now now',
     r ∈ queue (lim w) -> heap w !! r = Some (mkEntry (Some h) p) ->
     (exists d, timers w !! h = Some (mkTimeout (WaiterTimeout r) d)) /\
     (r, TimedOut) ∈ removals (fire h now now' w) /\
     (r ∉ queue (lim (fire h now now' w))) /\
     heap (fire h now now' w) !! r = Some (mkEntry None (outcome TimedOut))).
Proof.
  apply (waiter_leaves_once 5 2 true 0 race_limiter race_ops).
  reflexivity.
Defined.

(** *** Waiters without a deadline *)

(** [no_deadline r w]: the entry [r] exists, has not timed out, and while
    it is queued it carries no timer. *)
Definition no_deadline (r : nat) (w : World) : Prop :=
  (r < nextRef w)%nat /\
  ((r, TimedOut) ∉ removals w) /\
  (r ∈ queue (lim w) -> heap w !! r = Some (mkEntry None Pending)).

Lemma no_deadline_ext r w w' :
  nextRef w' = nextRef w -> removals w' = removals w ->
  queue (lim w') = queue (lim w) -> heap w' = heap w ->
  no_deadline r w -> no_deadline r w'.
Proof. unfold no_deadline. intros -> -> -> ->. tauto. Qed.

Lemma no_deadline_leave r r' k e l' ts nh w :
  no_deadline r w ->
  (forall x, x ∈ queue l' -> x ∈ queue (lim w) /\ x <> r') ->
  (r', k) <> (r, TimedOut) ->
  no_deadline r (mkWorld l' (<[r' := e]> (heap w)) ts (nextRef w) nh
                         (removals w ++ [(r', k)])).
Proof.
  intros (H1 & H2 & H3) Hq Hk. split; [exact H1 |]. split; simpl.
  - rewrite elem_of_app, list_elem_of_singleton. intros [H | H]; congruence.
  - intros Hr. apply Hq in Hr as [Hr Hne].
    rewrite lookup_insert_ne by congruence. auto.
Qed.

Lemma no_deadline_grant r next rest w :
  wf w -> queue (lim w) = next :: rest ->
  no_deadline r w -> no_deadline r (grant next rest w).
Proof.
  intros Hwf Eq HJ.
  assert (Hin : next ∈ queue (lim w)) by (rewrite Eq; apply list_elem_of_here).
  destruct (wf_queued _ _ Hwf next Hin) as [_ [hr Er]].
  rewrite (grant_eq _ _ _ hr Er).
  pose proof (wf_nodup _ _ Hwf) as Hnd. rewrite Eq in Hnd.
  apply NoDup_cons in Hnd as [Hn Hnd].
  apply no_deadline_leave; [exact HJ | | discriminate].
  simpl. intros x Hx. rewrite Eq. split; [now apply list_elem_of_further | congruence].
Qed.

Lemma no_deadline_drain r turns w :
  wf w -> no_deadline r w -> no_deadline r (drain turns w).
Proof.
  revert w. induction turns as [| n IH]; intros w Hwf HJ; simpl; [exact HJ |].
  destruct (queue (lim w)) as [| next rest] eqn:Eq; [exact HJ |].
  destruct (Qle_bool 1 (tokens (lim w))); [| exact HJ].
  apply IH; [now apply wf_grant | now apply no_deadline_grant].
Qed.

Lemma no_deadline_scheduleProcess r now w :
  no_deadline r w -> no_deadline r (scheduleProcess now w).
Proof.
  destruct (scheduleProcess_eq now w) as [ms ->].
  apply no_deadline_ext; simpl; try reflexivity.
  apply refillTokens_frame.
Qed.

Lemma no_deadline_processQueue r now now' w :
  wf w -> no_deadline r w -> no_deadline r (processQueue now now' w).
Proof.
  intros Hwf HJ. unfold processQueue. set (w1 := on_lim _ w).
  assert (H1 : wf w1).
  { apply wf_gen_on_lim; [| | exact Hwf].
    - now rewrite (proj1 (refillTokens_frame now _)).
    - right. now rewrite (proj1 (proj2 (refillTokens_frame now _))). }
  assert (J1 : no_deadline r w1).
  { revert HJ. apply no_deadline_ext; simpl; try reflexivity.
    now rewrite (proj1 (refillTokens_frame now _)). }
  pose proof (no_deadline_drain r (length (queue (lim w1))) w1 H1 J1) as J2.
  destruct (queue (lim (drain _ w1))); [exact J2 |].
  now apply no_deadline_scheduleProcess.
Qed.

Lemma no_deadline_rejectAll r turns w :
  wf w -> no_deadline r w -> no_deadline r (rejectAll turns w).
Proof.
  revert w. induction turns as [| n IH]; intros w Hwf HJ; simpl; [exact HJ |].
  destruct (queue (lim w)) as [| e rest] eqn:Eq; [exact HJ |].
  pose proof (wf_rejectAll 1 w Hwf) as Hwf1. simpl in Hwf1. rewrite Eq in Hwf1.
  apply IH; [exact Hwf1 |].
  assert (Hin : e ∈ queue (lim w)) by (rewrite Eq; apply list_elem_of_here).
  destruct (wf_queued _ _ Hwf e Hin) as [_ [hr Er]].
  rewrite (rejectOne_eq _ _ _ hr Er).
  pose proof (wf_nodup _ _ Hwf) as Hnd. rewrite Eq in Hnd.
  apply NoDup_cons in Hnd as [Hn Hnd].
  apply no_deadline_leave; [exact HJ | | discriminate].
  simpl. intros x Hx. rewrite Eq. split; [now apply list_elem_of_further | congruence].
Qed.

Lemma no_deadline_step r w op :
  wf w -> no_deadline r w -> no_deadline r (step w op).
Proof.
  intros Hwf HJ. destruct op; simpl.
  - revert HJ. apply no_deadline_ext; simpl; try reflexivity.
    apply tryAcquire_frame.
  - pose proof (tryAcquire_frame now (lim w)) as (Hq & Ht & _).
    destruct (tryAcquire now (lim w)) as [[|] l1] eqn:E; simpl in Hq, Ht.
    + rewrite (acquire_fast _ _ _ _ _ E). simpl.
      revert HJ. now apply no_deadline_ext.
    + rewrite (acquire_slow _ _ _ _ _ E). simpl.
      assert (J3 : no_deadline r (enqueued (deadline timeoutMs) l1 w)).
      { destruct HJ as (H1 & H2 & H3).
        assert (Hq' : r ∈ queue l1 ++ [nextRef w] -> r ∈ queue (lim w)).
        { rewrite Hq, elem_of_app, list_elem_of_singleton. intros [H | H]; [exact H | lia]. }
        unfold enqueued, no_deadline.
        destruct (deadline timeoutMs); simpl;
          (split; [lia |]; split; [exact H2 |]; intros Hr;
           rewrite lookup_insert_ne by lia; auto). }
      destruct (timer l1); [exact J3 | now apply no_deadline_scheduleProcess].
  - unfold fire. destruct (timers w !! h) as [[c d]|] eqn:Eh; [| exact HJ]. simpl.
    assert (J1 : no_deadline r (set_timers (delete h (timers w)) w))
      by (revert HJ; now apply no_deadline_ext).
    destruct c as [| r'].
    + apply no_deadline_processQueue; [| exact J1].
      apply wf_gen_delete_timer; [exact Hwf |]. intros x d' Hd. congruence.
    + destruct (wf_timers _ _ Hwf h r' d Eh) as [Hr' [p Hp]].
      assert (Hne : r' <> r).
      { intros ->. destruct HJ as (_ & _ & H3). rewrite (H3 Hr') in Hp. discriminate. }
      destruct (wf_queued _ _ Hwf r' Hr') as [_ [t Et]].
      destruct (indexOf (queue (lim w)) r') as [idx|] eqn:Ei;
        [| now apply indexOf_None in Ei].
      rewrite (waiterTimeout_eq r' (set_timers (delete h (timers w)) w) idx t Ei Et).
      apply no_deadline_leave; [exact J1 | | congruence].
      simpl. intros x Hx.
      now apply (indexOf_Some _ _ _ Ei (wf_nodup _ _ Hwf)).
  - unfold shutdown. destruct (timer (lim w)) as [h|] eqn:Et.
    + assert (Hwf1 : wf (on_lim (set_timer None) (clearTimeout h w))).
      { apply (wf_gen_on_lim None (set_timer None) (clearTimeout h w)); auto.
        apply wf_gen_delete_timer; [exact Hwf |].
        intros x d Hd. pose proof (wf_wake _ _ Hwf h _ Et Hd). discriminate. }
      apply no_deadline_rejectAll; [exact Hwf1 |].
      revert HJ. now apply no_deadline_ext.
    + now apply no_deadline_rejectAll.
Qed.

Lemma no_deadline_run r ops w :
  wf w -> no_deadline r w -> no_deadline r (run ops w).
Proof.
  revert w. induction ops as [| op ops IH]; intros w Hwf HJ; simpl; [exact HJ |].
  apply IH; [now apply wf_step | now apply no_deadline_step].
Qed.

Lemma deadline_absent ms :
  ms = None \/ (exists t, ms = Some t /\ t <= 0) -> deadline ms = None.
Proof.
  intros [-> | (t & -> & Ht)]; [reflexivity |]. unfold deadline.
  destruct (positive t) eqn:E; [| reflexivity].
  apply positive_spec in E. lra.
Qed.

(** C9.  A call [acquire(timeoutMs)] whose argument is omitted, zero or
    negative, made when no token is available (on any world the limiter can
    reach), queues its entry with no timer attached: no pending timer refers
    to the entry, then or at any later time.  Whatever happens afterwards the
    entry never times out -- its promise is never rejected with the
    acquire-timeout error -- and it stays queued, pending, until it is
    granted a token or the limiter is shut down. *)
Theorem acquire_without_deadline (rate C : Q) (startFull : bool) (t0 : Q)
    (l : Limiter) (ops more : list Op) (ms : option Q) (now now' : Q) :
  new rate C startFull t0 = inr l ->
  ms = None \/ (exists t, ms = Some t /\ t <= 0) ->
  let w := run ops (init l) in
  fst (tryAcquire now (lim w)) = false ->
  let r := nextRef w in
  let w1 := snd (acquire ms now now' w) in
  let w' := run more w1 in
  fst (acquire ms now now' w) = Queued r /\
  heap w1 !! r = Some (mkEntry None Pending) /\
  r ∈ queue (lim w1) /\
  (forall h t, timers w1 !! h = Some t -> callback t <> WaiterTimeout r) /\
  (forall h t, timers w' !! h = Some t -> callback t <> WaiterTimeout r) /\
  ((r, TimedOut) ∉ removals w') /\
  (forall t, heap w' !! r
             <> Some (mkEntry t (Rejected "RateLimiter: acquire timeout"))) /\
  ((r ∈ queue (lim w') /\ heap w' !! r = Some (mkEntry None Pending)) \/
   (r, Granted) ∈ removals w' \/ (r, ShutDown) ∈ removals w').
Proof.
  intros Hnew Hms. cbv zeta.
  apply new_inr in Hnew as (_ & _ & ->).
  set (w := run ops _). intros Hfail.
  assert (Hwf : wf w) by (apply wf_run, wf_init; reflexivity).
  pose proof (tryAcquire_frame now (lim w)) as (Hq & _).
  destruct (tryAcquire now (lim w)) as [ok l1] eqn:E. simpl in Hfail, Hq. subst ok.
  pose (w1 := match timer l1 with
              | Some _ => enqueued None l1 w
              | None => scheduleProcess now' (enqueued None l1 w)
              end).
  assert (Ea : acquire ms now now' w = (Queued (nextRef w), w1))
    by now rewrite (acquire_slow _ _ _ _ _ E), (deadline_absent _ Hms).
  assert (Hwf1 : wf w1).
  { pose proof (wf_acquire ms now now' w Hwf) as H. now rewrite Ea in H. }
  rewrite Ea. cbn [fst snd].
  assert (Hheap : heap w1 = <[nextRef w := mkEntry None Pending]> (heap w)).
  { unfold w1. destruct (timer l1); [reflexivity |].
    now destruct (scheduleProcess_eq now' (enqueued None l1 w)) as [d ->]. }
  assert (Hqueue : queue (lim w1) = queue l1 ++ [nextRef w]).
  { unfold w1. destruct (timer l1); [reflexivity |].
    destruct (scheduleProcess_eq now' (enqueued None l1 w)) as [d ->]. simpl.
    now rewrite (proj1 (refillTokens_frame _ _)). }
  assert (Hrem : removals w1 = removals w /\ nextRef w1 = S (nextRef w)).
  { unfold w1. destruct (timer l1); [auto |].
    now destruct (scheduleProcess_eq now' (enqueued None l1 w)) as [d ->]. }
  destruct Hrem as [Hrem Hnext].
  assert (Hlook : heap w1 !! nextRef w = Some (mkEntry None Pending))
    by (rewrite Hheap; apply lookup_insert_eq).
  assert (HJ : no_deadline (nextRef w) w1).
  { split; [lia |]. split; [| auto]. rewrite Hrem. intros Hin.
    assert (nextRef w < nextRef w)%nat; [| lia].
    apply (wf_created _ _ Hwf). right. apply list_elem_of_fmap.
    now exists (nextRef w, TimedOut). }
  assert (Hdead : forall v, wf v -> no_deadline (nextRef w) v ->
            forall h t, timers v !! h = Some t -> callback t <> WaiterTimeout (nextRef w)).
  { intros v Hv (_ & _ & H3) h [c d] Hh Hc. simpl in Hc. subst c.
    destruct (wf_timers _ _ Hv h _ d Hh) as [Hin [p Hp]].
    rewrite (H3 Hin) in Hp. discriminate. }
  split; [reflexivity |]. split; [exact Hlook |].
  split; [rewrite Hqueue, elem_of_app, list_elem_of_singleton; auto |].
  split; [now apply Hdead |].
  assert (Hwf' : wf (run more w1)) by now apply wf_run.
  assert (HJ' : no_deadline (nextRef w) (run more w1)) by now apply no_deadline_run.
  split; [now apply Hdead |].
  destruct HJ' as (H1 & H2 & H3).
  split; [exact H2 |].
  destruct (decide (nextRef w ∈ queue (lim (run more w1)))) as [Hin | Hout].
  - split; [rewrite (H3 Hin); congruence | auto].
  - apply (wf_created _ _ Hwf') in H1 as [H1 | H1]; [tauto |].
    apply list_elem_of_fmap in H1 as [[r' k] [Er Hk]]. simpl in Er. subst r'.
    pose proof (wf_removed _ _ Hwf' _ _ Hk) as Hp.
    destruct k; [| tauto |]; (split; [rewrite Hp; simpl; congruence | auto]).
Qed.

Lemma acquire_without_deadline_witness :
  let w := run [OpTryAcquire 0] (init (mkLimiter 0 0 [] None 5 5)) in
  let w1 := snd (acquire (Some 0) 0 0 w) in
  let w' := run [OpFire 0%nat 200 200] w1 in
  fst (acquire (Some 0) 0 0 w) = Queued (nextRef w) /\
  heap w1 !! nextRef w = Some (mkEntry None Pending) /\
  nextRef w ∈ queue (lim w1) /\
  (forall h t, timers w1 !! h = Some t -> callback t <> WaiterTimeout (nextRef w)) /\
  (forall h t, timers w' !! h = Some t -> callback t <> WaiterTimeout (nextRef w)) /\
  ((nextRef w, TimedOut) ∉ removals w') /\
  (forall t, heap w' !! nextRef w
             <> Some (mkEntry t (Rejected "RateLimiter: acquire timeout"))) /\
  ((nextRef w ∈ queue (lim w') /\ heap w' !! nextRef w = Some (mkEntry None Pending)) \/
   (nextRef w, Granted) ∈ removals w' \/ (nextRef w, ShutDown) ∈ removals w').
Proof.
  apply (acquire_without_deadline 5 5 false 0 (mkLimiter 0 0 [] None 5 5)
           [OpTryAcquire 0] [OpFire 0%nat 200 200] (Some 0) 0 0).
  - reflexivity.
  - right. exists 0. split; [reflexivity | lra].
  - reflexivity.
Defined.

End RateLimiterFacts.

(** ** Properties of the orchestrator *)

Module OrchestratorFacts.
Import Orchestrator.

(** The constructor gives every model of [MODELS] a limiter, with the
    parameters of [MODEL_CONFIGS]. *)
Lemma rateLimiters_models created m :
  m ∈ MODELS ->
  exists rate size,
    MODEL_CONFIGS !! m = Some (mkConfig rate size) /\
    rateLimiters created !! m
    = Some (RateLimiter.mkLimiter size created [] None rate size).
Proof.
  intros Hm. unfold MODELS in Hm.
  repeat (apply elem_of_cons in Hm as [-> | Hm];
          [do 2 eexists; split; vm_compute; reflexivity |]).
  now apply not_elem_of_nil in Hm.
Qed.

Lemma jitter_range (r : Q) :
  0 <= r < 1 -> (0 <= Qfloor (r * 200) < 200)%Z.
Proof.
  intros [H0 H1]. split.
  - change 0%Z with (Qfloor 0). apply Qfloor_resp_le.
    apply Qmult_le_0_compat; [exact H0 | discriminate].
  - pose proof (Qfloor_le (r * 200)) as Hle.
    assert (Hlt : inject_Z (Qfloor (r * 200)) < inject_Z 200)
      by (apply Qle_lt_trans with (r * 200); [exact Hle | change (inject_Z 200) with 200; lra]).
    now rewrite <- Zlt_Qlt in Hlt.
Qed.

(** A provider that always fails, limiters that admit at once, and the
    waits found in a trace. *)
Definition failing (_ _ : string) : Eff Ambient (list ModelResponse) :=
  throw (ErrorObject "503").

Definition admitted (_ : string) : Z * option string := (0%Z, None).

Definition sleepsOf (es : list Effect) : list Z :=
  omap (fun e => match e with ESleep ms => Some ms | _ => None end) es.

(** C6 as stated fails: the wait before a retry is not
    [min(cap, 2^attempt * 1000)] for any cap -- the code doubles it without
    bound.  With six attempts that all fail and [Math.random()] returning 0
    (no jitter) [queryModel] waits 1, 2, 4, 8 and 16 seconds. *)
Lemma backoff_has_no_cap :
  sleepsOf (effects (snd (queryModel failing admitted 0 "Gemini" "hello" 6
                            (start 0 (fun _ _ => 0) "Gemini"))))
  = [1000; 2000; 4000; 8000; 16000]%Z /\
  ~ exists cap : Z, forall attempt : nat,
      backoffMs attempt 0 = (Z.min cap (2 ^ Z.of_nat attempt * 1000) + 0)%Z.
Proof.
  split; [vm_compute; reflexivity |].
  intros [cap H].
  pose (n := Z.to_nat (Z.max 0 cap)).
  specialize (H n). unfold backoffMs in H.
  change (Qfloor (0 * 200)) with 0%Z in H.
  assert (Hn : (Z.max 0 cap = Z.of_nat n)%Z) by (unfold n; lia).
  assert (Hpow : (Z.of_nat n < 2 ^ Z.of_nat n)%Z)
    by (apply Z.pow_gt_lin_r; lia).
  lia.
Qed.

Section Facts.

Variable call : string -> string -> Eff Ambient (list ModelResponse).
Variable admission : string -> Z * option string.
Variable observer : bool.
Variable created : Q.

(** C6, amended.  When the provider call of an attempt fails and it is not
    the last attempt, the loop logs the failure, waits
    [2^attempt * 1000 + jitter] milliseconds -- with no cap -- where
    [jitter = floor(random * 200)] is an integer in [0, 200), and then makes
    the next attempt; when the attempt is the last one, the same error is
    thrown at once: no wait and no further call. *)
Theorem retry_backoff (m prompt : string) (retries attempt remaining : nat)
    (s : TaskState) (e : Thrown) (a1 : Ambient) :
  (attempt + S remaining = retries)%nat ->
  call m prompt (ambient s) = (inl e, a1) ->
  let failed := (effects s ++ [ECall m attempt])
                ++ [EConsoleError (attempt + 1) m e] in
  let jitter := Qfloor (entropy a1 0%nat * 200) in
  let waitMs := (2 ^ Z.of_nat attempt * 1000 + jitter)%Z in
  (remaining <> 0%nat ->
     retryLoop call (S remaining) m prompt retries attempt s =
     retryLoop call remaining m prompt retries (S attempt)
       (mkTask (mkAmbient (clock a1 + waitMs) (fun n => entropy a1 (S n)))
               (failed ++ [ESleep waitMs])) /\
     (0 <= entropy a1 0%nat < 1 -> (0 <= jitter < 200)%Z)) /\
  (remaining = 0%nat ->
     retryLoop call (S remaining) m prompt retries attempt s
     = (inl e, mkTask a1 failed)).
Proof.
  intros Hpos Hcall. cbv zeta. split.
  - intros Hmore. split; [| apply jitter_range].
    assert (Hlast : (attempt =? retries - 1)%nat = false)
      by (apply Nat.eqb_neq; lia).
    cbn [retryLoop].
    cbv [mbind eff_bind mret eff_ret attemptOnce tryCatch emit lift sleep throw
         mathRandom wait backoffMs].
    cbn [ambient effects]. rewrite Hcall, Hlast.
    cbn [ambient effects clock entropy]. reflexivity.
  - intros ->.
    assert (Hlast : (attempt =? retries - 1)%nat = true)
      by (apply Nat.eqb_eq; lia).
    cbn [retryLoop].
    cbv [mbind eff_bind mret eff_ret attemptOnce tryCatch emit lift throw].
    cbn [ambient effects]. rewrite Hcall, Hlast. reflexivity.
Qed.

(** *** Only [onProgress] talks to the observer *)

Definition quiet {A : Type} (c : Task A) : Prop :=
  forall s, progressOf (effects (snd (c s))) = progressOf (effects s).

Lemma progressOf_snoc es e :
  progressOf (es ++ [e]) = progressOf es ++ progressOf [e].
Proof. unfold progressOf. apply omap_app. Qed.

Lemma quiet_ret {A : Type} (a : A) : quiet (mret a).
Proof. intros s. reflexivity. Qed.

Lemma quiet_throw {A : Type} (e : Thrown) : quiet (throw e : Task A).
Proof. intros s. reflexivity. Qed.

Lemma quiet_bind {A B : Type} (c : Task A) (f : A -> Task B) :
  quiet c -> (forall a, quiet (f a)) -> quiet (c ≫= f).
Proof.
  intros Hc Hf s. specialize (Hc s). unfold mbind, eff_bind.
  destruct (c s) as [[e | a] s1]; simpl in *; [exact Hc |].
  now rewrite Hf.
Qed.

Lemma quiet_tryCatch {A : Type} (c : Task A) (h : Thrown -> Task A) :
  quiet c -> (forall e, quiet (h e)) -> quiet (tryCatch c h).
Proof.
  intros Hc Hh s. specialize (Hc s). unfold tryCatch.
  destruct (c s) as [[e | a] s1]; simpl in *; [| exact Hc].
  now rewrite Hh.
Qed.

Lemma quiet_lift {A : Type} (c : Eff Ambient A) : quiet (lift c).
Proof. intros s. unfold lift. now destruct (c (ambient s)). Qed.

Lemma quiet_emit e : progressOf [e] = [] -> quiet (emit e).
Proof.
  intros He s. unfold emit. simpl. rewrite progressOf_snoc, He.
  apply app_nil_r.
Qed.

Create HintDb quiet.

#[local] Hint Resolve quiet_ret quiet_throw quiet_lift : quiet.

Ltac quiet_step :=
  first [ apply quiet_bind; [| intros ?]
        | apply quiet_tryCatch; [| intros ?]
        | apply quiet_emit; reflexivity
        | solve [auto with quiet] ].

Lemma quiet_attemptOnce m prompt retries attempt :
  quiet (attemptOnce call m prompt retries attempt).
Proof.
  unfold attemptOnce, sleep. repeat quiet_step.
  destruct (attempt =? retries - 1)%nat; repeat quiet_step.
Qed.

Lemma quiet_retryLoop remaining m prompt retries attempt :
  quiet (retryLoop call remaining m prompt retries attempt).
Proof.
  revert attempt. induction remaining as [| n IH]; intros attempt; simpl.
  - apply quiet_throw.
  - apply quiet_bind; [apply quiet_attemptOnce |].
    intros [r |]; [apply quiet_ret | apply IH].
Qed.

Lemma quiet_queryModel m prompt retries :
  quiet (queryModel call admission created m prompt retries).
Proof.
  unfold queryModel. destruct (rateLimiters created !! m); [| apply quiet_throw].
  apply quiet_bind; [| intros ?; apply quiet_retryLoop].
  unfold limiterAcquire. destruct (admission m) as [waited [msg |]];
    repeat quiet_step.
Qed.

(** *** One task *)

Definition pendingEvent (m : string) : ModelStatus := mkStatus m StPending None None.

(** The event that ends a task, after an outcome reached at clock [t1] by a
    task started at [t0]. *)
Definition terminalEvent (m : string) (t0 t1 : Z) (r : Thrown + ApiResponse)
  : ModelStatus :=
  match r with
  | inr _ => mkStatus m StSuccess (Some (t1 - t0)%Z) None
  | inl e => mkStatus m StError None (Some (errorMessage e))
  end.

Definition told (s : TaskState) (ev : ModelStatus) : TaskState :=
  if observer then mkTask (ambient s) (effects s ++ [EProgress ev]) else s.

Lemma queryTask_run prompt m s :
  let q := queryModel call admission created m prompt 3 (told s (pendingEvent m)) in
  queryTask call admission observer created prompt m s =
  (fst q,
   told (snd q)
     (terminalEvent m (clock (ambient s)) (clock (ambient (snd q))) (fst q))).
Proof.
  cbv zeta. unfold queryTask, told, onProgress, pendingEvent.
  destruct s as [a es].
  destruct observer;
    cbv [mbind eff_bind mret eff_ret tryCatch emit lift throw dateNow];
    cbn [ambient effects];
    match goal with |- context [queryModel _ _ _ _ _ _ ?s0] =>
      destruct (queryModel call admission created m prompt 3 s0)
        as [[e | r] [a1 es1]]
    end; reflexivity.
Qed.

Lemma queryTask_outcome prompt m s :
  fst (queryTask call admission observer created prompt m s) =
  fst (queryModel call admission created m prompt 3 (told s (pendingEvent m))).
Proof. now rewrite queryTask_run. Qed.

Lemma queryTask_heard prompt m s :
  observer = true ->
  exists t1,
    progressOf (effects (snd (queryTask call admission observer created prompt m s))) =
    progressOf (effects s) ++
    [pendingEvent m;
     terminalEvent m (clock (ambient s)) t1
       (fst (queryTask call admission observer created prompt m s))].
Proof.
  intros Hobs. rewrite queryTask_run. cbv zeta. cbn [fst snd].
  set (q := queryModel _ _ _ _ _ _ _).
  exists (clock (ambient (snd q))).
  pose proof (quiet_queryModel m prompt 3 (told s (pendingEvent m))) as Hq.
  fold q in Hq. unfold told in *. rewrite Hobs in *. cbn [effects] in *.
  rewrite progressOf_snoc, Hq, progressOf_snoc, <- app_assoc. reflexivity.
Qed.

Lemma queryTask_unheard prompt m s :
  observer = false ->
  progressOf (effects (snd (queryTask call admission observer created prompt m s))) =
  progressOf (effects s).
Proof.
  intros Hobs. rewrite queryTask_run. cbv zeta. cbn [fst snd].
  pose proof (quiet_queryModel m prompt 3 (told s (pendingEvent m))) as Hq.
  unfold told in *. rewrite Hobs in *. exact Hq.
Qed.

(** *** The merge *)

(** What the task of one model adds to the result, given its outcome. *)
Definition contribution (m : string) (r : Thrown + ApiResponse) : list ModelResponse :=
  match r with
  | inr response => map (tagged m) (data response)
  | inl _ => []
  end.

Lemma collect_from (out : string -> Thrown + ApiResponse) ms index acc :
  drop index MODELS = ms ->
  collect index (map (fun m => settlement (out m)) ms) acc =
  acc ++ concat (map (fun m => contribution m (out m)) ms).
Proof.
  revert index acc. induction ms as [| m ms IH]; intros index acc Hdrop; simpl.
  - now rewrite app_nil_r.
  - assert (Hm : MODELS !! index = Some m).
    { rewrite <- (Nat.add_0_r index), <- lookup_drop, Hdrop. reflexivity. }
    assert (Hrest : drop (S index) MODELS = ms).
    { rewrite (drop_S _ _ _ Hm) in Hdrop. now inversion Hdrop. }
    rewrite Hm, (IH _ _ Hrest).
    destruct (out m) as [e | r]; simpl; [reflexivity | now rewrite app_assoc].
Qed.

Lemma queryAllModels_result prompt t0 supply settled :
  fst (queryAllModels call admission observer created prompt t0 supply settled) =
  inr (concat (map (fun m => contribution m
                     (fst (queryTask call admission observer created prompt m
                             (start t0 supply m))))
                   MODELS)).
Proof.
  unfold queryAllModels. cbn [fst]. f_equal.
  now rewrite (collect_from
    (fun m => fst (queryTask call admission observer created prompt m
                     (start t0 supply m))) MODELS 0 []).
Qed.

Lemma queryAllModels_hears prompt t0 supply settled m :
  observer = true -> m ∈ settled ->
  exists t1,
    terminalEvent m t0 t1
      (fst (queryTask call admission observer created prompt m (start t0 supply m)))
    ∈ snd (queryAllModels call admission observer created prompt t0 supply settled).
Proof.
  intros Hobs Hm.
  destruct (queryTask_heard prompt m (start t0 supply m) Hobs) as [t1 Ht].
  exists t1. unfold queryAllModels. cbn [snd].
  apply elem_of_app. right. apply list_elem_of_In, in_flat_map.
  exists m. split; [now apply list_elem_of_In |].
  rewrite Ht. simpl. now left.
Qed.


(** C2.  If the query of every model fails, [queryAllModels] still settles
    with a value, the empty list, and an observer, if one was passed, has
    heard for every model an error event carrying the message of that
    model's failure -- and no success event. *)
Theorem queryAllModels_total_outage (prompt : string) (t0 : Z)
    (supply : string -> nat -> Q) (settled : list string)
    (failure : string -> Thrown) :
  (forall m, m ∈ MODELS ->
     fst (queryModel call admission created m prompt 3
            (told (start t0 supply m) (pendingEvent m))) = inl (failure m)) ->
  let answer := queryAllModels call admission observer created prompt t0 supply settled in
  fst answer = inr [] /\
  (observer = true -> forall m, m ∈ MODELS -> m ∈ settled ->
     mkStatus m StError None (Some (errorMessage (failure m))) ∈ snd answer) /\
  ((forall m, m ∈ settled -> m ∈ MODELS) ->
   forall ev, ev ∈ snd answer -> status ev <> StSuccess).
Proof.
  intros Hfail. cbv zeta.
  assert (Hout : forall m, m ∈ MODELS ->
    fst (queryTask call admission observer created prompt m (start t0 supply m))
    = inl (failure m)).
  { intros m Hm. rewrite queryTask_outcome. now apply Hfail. }
  split; [| split].
  - rewrite queryAllModels_result. f_equal.
    apply concat_nil_Forall, Forall_map, Forall_forall.
    intros m Hm. now rewrite (Hout m Hm).
  - intros Hobs m Hm Hs.
    destruct (queryAllModels_hears prompt t0 supply settled m Hobs Hs) as [t1 Ht].
    now rewrite (Hout m Hm) in Ht.
  - intros Hsub ev Hev. unfold queryAllModels in Hev. cbn [snd] in Hev.
    assert (Hheard : forall m, m ∈ MODELS ->
      forall ev', ev' ∈ progressOf (effects (snd
        (queryTask call admission observer created prompt m (start t0 supply m)))) ->
      status ev' <> StSuccess).
    { intros m Hm ev' Hev'.
      assert (Hcase : observer = true \/ observer = false)
        by (destruct observer; auto).
      destruct Hcase as [Hobs | Hobs].
      - destruct (queryTask_heard prompt m (start t0 supply m) Hobs) as [t1 Ht].
        rewrite Ht, (Hout m Hm) in Hev'. simpl in Hev'.
        apply elem_of_cons in Hev' as [-> | Hev']; [discriminate |].
        apply list_elem_of_singleton in Hev' as ->. discriminate.
      - rewrite (queryTask_unheard prompt m (start t0 supply m) Hobs) in Hev'.
        now apply not_elem_of_nil in Hev'. }
    apply elem_of_app in Hev as [Hev | Hev];
      apply list_elem_of_In, in_flat_map in Hev as (m & Hm & Hev);
      apply (proj2 (list_elem_of_In _ _)) in Hm;
      apply (proj2 (list_elem_of_In _ _)) in Hev.
    + apply (Hheard m Hm ev). exact (subseteq_take 1 _ _ Hev).
    + apply (Hheard m (Hsub m Hm) ev). exact (subseteq_drop 1 _ _ Hev).
Qed.

End Facts.

(** *** The built-in provider *)

Lemma queryModel_simulated admission created m prompt s r :
  fst (queryModel simulateAPICall admission created m prompt 3 s) = inr r ->
  exists i c, data r = [mkResponse i ("Simulated response from " +:+ m) c [m] m].
Proof.
  unfold queryModel. destruct (rateLimiters created !! m); [| discriminate].
  unfold limiterAcquire. destruct (admission m) as [waited [msg |]];
    cbv [mbind eff_bind mret eff_ret emit lift wait throw];
    cbn [ambient effects]; [discriminate |].
  cbn [retryLoop].
  cbv [attemptOnce tryCatch mbind eff_bind mret eff_ret emit lift throw
       simulateAPICall mathRandom dateNow wait].
  cbn [ambient effects clock entropy fst].
  intros [= <-]. cbn [data]. eauto.
Qed.

(** C8.  With the built-in simulated provider, every item that
    [queryAllModels] returns comes from one of the models, whose name is
    the item's [model] and stands exactly twice in its [sources] -- once put
    there by [simulateAPICall], once appended by [queryAllModels] -- so it
    occurs at least twice and is its last element. *)
Theorem simulated_items_name_model_twice (admission : string -> Z * option string)
    (observer : bool) (created : Q) (prompt : string) (t0 : Z)
    (supply : string -> nat -> Q) (settled : list string) :
  exists responses,
    fst (queryAllModels simulateAPICall admission observer created
           prompt t0 supply settled) = inr responses /\
    Forall (fun item =>
              model item ∈ MODELS /\
              sources item = [model item; model item] /\
              (2 <= length (filter (fun x => x = model item) (sources item)))%nat /\
              last (sources item) = Some (model item))
           responses.
Proof.
  eexists. split; [apply queryAllModels_result |].
  apply Forall_concat, Forall_map, Forall_forall. intros m Hm.
  unfold contribution.
  destruct (fst (queryTask _ _ _ _ _ _ _)) as [e | r] eqn:E; [constructor |].
  rewrite queryTask_outcome in E.
  apply queryModel_simulated in E as (i & c & ->).
  cbn [map]. apply Forall_cons. split; [| apply Forall_nil; exact I].
  cbn [tagged sources model app].
  split; [exact Hm |]. split; [reflexivity |]. split; [| reflexivity].
  rewrite !filter_cons_True by reflexivity. simpl. lia.
Qed.

Definition outage (_ : string) : Z * option string :=
  (30000%Z, Some "RateLimiter: acquire timeout").

Lemma queryAllModels_total_outage_witness :
  let answer := queryAllModels simulateAPICall outage true 0 "hello" 0
                               (fun _ _ => 0) MODELS in
  fst answer = inr [] /\
  (true = true -> forall m, m ∈ MODELS -> m ∈ MODELS ->
     mkStatus m StError None
       (Some (errorMessage (ErrorObject "RateLimiter: acquire timeout")))
     ∈ snd answer) /\
  ((forall m, m ∈ MODELS -> m ∈ MODELS) ->
   forall ev, ev ∈ snd answer -> status ev <> StSuccess).
Proof.
  apply (queryAllModels_total_outage simulateAPICall outage true 0 "hello" 0
           (fun _ _ => 0) MODELS
           (fun _ => ErrorObject "RateLimiter: acquire timeout")).
  intros m Hm. unfold MODELS in Hm.
  repeat (apply elem_of_cons in Hm as [-> | Hm]; [reflexivity |]).
  now apply not_elem_of_nil in Hm.
Defined.

Lemma retry_backoff_witness :
  let s := start 0 (fun _ _ => 1 # 2) "Gemini" in
  let e := ErrorObject "503" in
  let failed := (effects s ++ [ECall "Gemini" 1]) ++ [EConsoleError (1 + 1) "Gemini" e] in
  let jitter := Qfloor ((1 # 2) * 200) in
  let waitMs := (2 ^ Z.of_nat 1 * 1000 + jitter)%Z in
  (1%nat <> 0%nat ->
     retryLoop failing 2 "Gemini" "hello" 3 1 s =
     retryLoop failing 1 "Gemini" "hello" 3 2
       (mkTask (mkAmbient (0 + waitMs) (fun n => 1 # 2)) (failed ++ [ESleep waitMs])) /\
     (0 <= 1 # 2 < 1 -> (0 <= jitter < 200)%Z)) /\
  (1%nat = 0%nat ->
     retryLoop failing 2 "Gemini" "hello" 3 1 s = (inl e, mkTask (ambient s) failed)).
Proof.
  apply (retry_backoff failing "Gemini" "hello" 3 1 1
           (start 0 (fun _ _ => 1 # 2) "Gemini") (ErrorObject "503")
           (mkAmbient 0 (fun _ => 1 # 2))).
  - reflexivity.
  - reflexivity.
Defined.

(** *** Two runs *)

Definition geminiDown (m : string) : Z * option string :=
  if String.eqb m "Gemini" then (30000%Z, Some "RateLimiter: acquire timeout")
  else (0%Z, None).

(** One limiter times out, the two other models answer: their items come
    back in the order of [MODELS], whatever the order of completion, and the
    observer hears three pending events, then two successes and one error. *)
Example one_backend_down :
  let answer := queryAllModels simulateAPICall geminiDown true 0 "hello" 1000
                  (fun m _ => if String.eqb m "GPT-4o" then 1 # 2 else 1 # 4)
                  ["Claude Sonnet 3.5"; "GPT-4o"; "Gemini"] in
  match fst answer with
  | inr responses => map model responses = ["GPT-4o"; "Claude Sonnet 3.5"]
  | inl _ => False
  end /\
  map (fun ev => (status_model ev, status ev, latency ev, status_error ev)) (snd answer)
  = [("GPT-4o", StPending, None, None);
     ("Claude Sonnet 3.5", StPending, None, None);
     ("Gemini", StPending, None, None);
     ("Claude Sonnet 3.5", StSuccess, Some 300%Z, None);
     ("GPT-4o", StSuccess, Some 400%Z, None);
     ("Gemini", StError, None, Some "RateLimiter: acquire timeout")].
Proof. vm_compute. auto. Qed.

(** A provider that fails until two seconds have passed: with three
    attempts the query succeeds on the third, after two waits. *)
Definition flaky (m prompt : string) : Eff Ambient (list ModelResponse) :=
  fun a => if (clock a <? 2000)%Z then (inl (ErrorObject "503"), a)
           else simulateAPICall m prompt a.

Example fails_twice_then_succeeds :
  effects (snd (queryModel flaky geminiDown 0 "GPT-4o" "hello" 3
                  (start 0 (fun _ _ => 1 # 2) "GPT-4o")))
  = [EAcquire "GPT-4o" 30000; ECall "GPT-4o" 0;
     EConsoleError 1 "GPT-4o" (ErrorObject "503"); ESleep 1100;
     ECall "GPT-4o" 1;
     EConsoleError 2 "GPT-4o" (ErrorObject "503"); ESleep 2100;
     ECall "GPT-4o" 2].
Proof. vm_compute. reflexivity. Qed.

End OrchestratorFacts.

(** ** More on the rate limiter *)

Module RateLimiterMore.
Import RateLimiter RateLimiterFacts.

(** *** Bursts *)

(** [n] calls of [tryAcquire] in a row, all reading the clock at [now]: the
    flags they return. *)
Fixpoint burst (n : nat) (now : Q) (l : Limiter) : list bool :=
  match n with
  | O => []
  | S n' => let (ok, l1) := tryAcquire now l in ok :: burst n' now l1
  end.

Lemma tryAcquire_idle_take now l :
  now <= lastRefill l -> 1 <= tokens l ->
  tryAcquire now l = (true, set_tokens (tokens l - 1) l).
Proof.
  intros Hidle H1. unfold tryAcquire. rewrite (refillTokens_idle _ _ Hidle).
  apply Qle_bool_iff in H1. now rewrite H1.
Qed.

Lemma tryAcquire_idle_refuse now l :
  now <= lastRefill l -> tokens l < 1 -> tryAcquire now l = (false, l).
Proof.
  intros Hidle H1. unfold tryAcquire. rewrite (refillTokens_idle _ _ Hidle).
  apply Qle_bool_false in H1. now rewrite H1.
Qed.

Lemma burst_refused n now l :
  now <= lastRefill l -> tokens l < 1 -> burst n now l = replicate n false.
Proof.
  intros Hidle H1. induction n as [| n IH]; simpl; [reflexivity |].
  rewrite (tryAcquire_idle_refuse _ _ Hidle H1). now rewrite IH.
Qed.

(** X1.  With no time passing between the calls, a bucket holding between
    [N] and [N + 1] tokens answers [true] to exactly the first [N] calls of
    [tryAcquire] and [false] to every later one: a full bucket of integer
    capacity [N] serves a burst of [N] and no more. *)
Theorem burst_serves_whole_tokens (N k : nat) (now : Q) (l : Limiter) :
  now <= lastRefill l ->
  inject_Z (Z.of_nat N) <= tokens l ->
  tokens l < inject_Z (Z.of_nat N) + 1 ->
  burst (N + k) now l = replicate N true ++ replicate k false.
Proof.
  revert l. induction N as [| N IH]; intros l Hidle Hlo Hhi.
  - simpl. apply burst_refused; [exact Hidle |].
    change (inject_Z (Z.of_nat 0)) with 0 in Hhi. lra.
  - assert (E : inject_Z (Z.of_nat (S N)) == inject_Z (Z.of_nat N) + 1).
    { rewrite Nat2Z.inj_succ. unfold Z.succ. rewrite inject_Z_plus. reflexivity. }
    rewrite E in Hlo, Hhi.
    assert (H0 : 0 <= inject_Z (Z.of_nat N)).
    { change 0 with (inject_Z 0). rewrite <- Zle_Qle. lia. }
    simpl. rewrite (tryAcquire_idle_take now l Hidle) by lra.
    f_equal. apply IH; simpl; [exact Hidle | lra | lra].
Qed.

Lemma burst_serves_whole_tokens_witness :
  burst (3 + 2) 0 (mkLimiter 3 0 [] None 1 3)
  = replicate 3 true ++ replicate 2 false.
Proof.
  apply (burst_serves_whole_tokens 3 2 0 (mkLimiter 3 0 [] None 1 3));
    vm_compute; congruence.
Defined.

(** *** The wake-up *)

(** The delay [scheduleProcess] passes to [setTimeout], from the limiter as
    refilled at [now]. *)
Definition wakeDelay (l1 : Limiter) : Q :=
  if Qle_bool 1 (tokens l1) then 0
  else inject_Z (Qceiling (Qmax 0 ((1 - tokens l1) / tokensPerSecond l1 * 1000))).

Lemma scheduleProcess_delay now w :
  scheduleProcess now w =
  mkWorld (set_timer (Some (nextHandle w)) (refillTokens now (lim w))) (heap w)
          (<[nextHandle w := mkTimeout ProcessQueue
                               (wakeDelay (refillTokens now (lim w)))]> (timers w))
          (nextRef w) (S (nextHandle w)) (removals w).
Proof. reflexivity. Qed.


(** *** What each operation adds to the history *)

Lemma removals_grant next rest w :
  removals (grant next rest w) = removals w ++ [(next, Granted)].
Proof.
  unfold grant. change (entry_resolve next) with (retire next Resolved).
  now rewrite removals_retire, removals_clearEntryTimer.
Qed.

Lemma removals_waiterTimeout r w :
  removals (waiterTimeout r w) =
  removals w ++ match indexOf (queue (lim w)) r with
                | Some _ => [(r, TimedOut)]
                | None => []
                end.
Proof.
  unfold waiterTimeout.
  change (entry_reject r "RateLimiter: acquire timeout")
    with (retire r (Rejected "RateLimiter: acquire timeout")).
  rewrite removals_retire. destruct (indexOf _ _); simpl; [reflexivity |].
  now rewrite app_nil_r.
Qed.

Lemma rejectAll_removals turns w :
  removals (rejectAll turns w) =
  removals w ++ map (fun r => (r, ShutDown)) (take turns (queue (lim w))).
Proof.
  revert w. induction turns as [| n IH]; intros w; simpl.
  - now rewrite app_nil_r.
  - destruct (queue (lim w)) as [| e rest] eqn:Eq; simpl; [now rewrite app_nil_r |].
    rewrite IH, lim_entry_reject, lim_clearEntryTimer.
    change (entry_reject e "RateLimiter: shutdown")
      with (retire e (Rejected "RateLimiter: shutdown")).
    rewrite removals_retire, removals_clearEntryTimer.
    simpl. now rewrite <- app_assoc.
Qed.

Lemma removals_shutdown w :
  removals (shutdown w) = removals w ++ map (fun r => (r, ShutDown)) (queue (lim w)).
Proof.
  unfold shutdown. rewrite rejectAll_removals, firstn_all.
  destruct (timer (lim w)); reflexivity.
Qed.

Lemma removals_acquire ms now now' w :
  removals (snd (acquire ms now now' w)) = removals w.
Proof.
  destruct (tryAcquire now (lim w)) as [[|] l1] eqn:E.
  - now rewrite (acquire_fast _ _ _ _ _ E).
  - rewrite (acquire_slow _ _ _ _ _ E). simpl.
    destruct (timer l1); [| rewrite scheduleProcess_delay; simpl];
      unfold enqueued; now destruct (deadline ms).
Qed.

(** *** Counting admissions *)

Definition isGranted (x : nat * Removal) : bool :=
  match snd x with Granted => true | _ => false end.

(** The queued callers served so far. *)
Definition granted (w : World) : nat := length (List.filter isGranted (removals w)).

(** Callers served on the spot by this operation: a [tryAcquire] that
    returns [true], an [acquire] that takes the fast path. *)
Definition instant (w : World) (op : Op) : nat :=
  match op with
  | OpTryAcquire now | OpAcquire _ now _ =>
      if fst (tryAcquire now (lim w)) then 1%nat else 0%nat
  | _ => 0%nat
  end.

Fixpoint instants (ops : list Op) (w : World) : nat :=
  match ops with
  | [] => 0%nat
  | op :: ops' => (instant w op + instants ops' (step w op))%nat
  end.

(** All tokens handed out over a run: on the spot, or to queued callers. *)
Definition admissions (ops : list Op) (w : World) : nat :=
  (instants ops w + (granted (run ops w) - granted w))%nat.

Definition inj (k : nat) : Q := inject_Z (Z.of_nat k).

Lemma inj_S k : inj (S k) == inj k + 1.
Proof.
  unfold inj. rewrite Nat2Z.inj_succ. unfold Z.succ. now rewrite inject_Z_plus.
Qed.

Lemma inj_add a b : inj (a + b) == inj a + inj b.
Proof. unfold inj. now rewrite Nat2Z.inj_add, inject_Z_plus. Qed.

Lemma granted_snoc w w' r k :
  removals w' = removals w ++ [(r, k)] ->
  granted w' = (granted w + if isGranted (r, k) then 1 else 0)%nat.
Proof.
  intros E. unfold granted. rewrite E, List.filter_app, length_app. simpl.
  now destruct (isGranted (r, k)).
Qed.

Lemma granted_same w w' : removals w' = removals w -> granted w' = granted w.
Proof. unfold granted. now intros ->. Qed.

Lemma granted_app_others w w' rs k :
  k <> Granted ->
  removals w' = removals w ++ map (fun r => (r, k)) rs -> granted w' = granted w.
Proof.
  intros Hk E. unfold granted. rewrite E, List.filter_app, length_app.
  assert (E0 : List.filter isGranted (map (fun r : nat => (r, k)) rs) = []).
  { clear E. induction rs as [| r rs IH]; simpl; [reflexivity |].
    unfold isGranted at 1. simpl. destruct k; [congruence | exact IH | exact IH]. }
  rewrite E0. simpl. lia.
Qed.

(** *** First come, first served *)

(** The queued callers granted so far, in the order they were granted.
    Entries are numbered as [acquire] creates them, so a smaller number is an
    earlier arrival. *)
Definition grantedRefs (w : World) : list nat :=
  map fst (List.filter isGranted (removals w)).

Record ordered (w : World) : Prop := mkOrdered {
  ord_queue : StronglySorted lt (queue (lim w));
  ord_granted : StronglySorted lt (grantedRefs w);
  ord_before : forall g q, g ∈ grantedRefs w -> q ∈ queue (lim w) -> (g < q)%nat;
  ord_bound : forall r, r ∈ queue (lim w) \/ r ∈ grantedRefs w -> (r < nextRef w)%nat
}.

Lemma ordered_same w w' :
  queue (lim w') = queue (lim w) -> removals w' = removals w ->
  nextRef w' = nextRef w -> ordered w -> ordered w'.
Proof.
  intros Hq Hr Hn [H1 H2 H3 H4].
  constructor; unfold grantedRefs in *; rewrite ?Hq, ?Hr, ?Hn; assumption.
Qed.

Lemma grantedRefs_snoc w w' r k :
  removals w' = removals w ++ [(r, k)] ->
  grantedRefs w' = grantedRefs w ++ if isGranted (r, k) then [r] else [].
Proof.
  intros E. unfold grantedRefs. rewrite E, List.filter_app, map_app. simpl.
  now destruct (isGranted (r, k)).
Qed.

Lemma StronglySorted_delete (q : list nat) i :
  StronglySorted lt q -> StronglySorted lt (delete i q).
Proof.
  intros H. revert i. induction H as [| a q Hq IH Ha]; intros i; [constructor |].
  destruct i as [| i]; simpl; [exact Hq |].
  constructor; [apply IH | now apply Forall_delete].
Qed.

(** An entry leaves the queue without being granted. *)
Lemma ordered_drop w w' r k :
  k <> Granted ->
  StronglySorted lt (queue (lim w')) ->
  (forall x, x ∈ queue (lim w') -> x ∈ queue (lim w)) ->
  removals w' = removals w ++ [(r, k)] -> nextRef w' = nextRef w ->
  ordered w -> ordered w'.
Proof.
  intros Hk Hs Hsub Hr Hn [H1 H2 H3 H4].
  assert (Hg : grantedRefs w' = grantedRefs w).
  { rewrite (grantedRefs_snoc w w' r k Hr). unfold isGranted. simpl.
    destruct k; [congruence | |]; apply app_nil_r. }
  constructor; rewrite ?Hg, ?Hn; auto.
  intros x [Hx | Hx]; apply H4; auto.
Qed.

(** The head of the queue is granted. *)
Lemma ordered_grant next rest w :
  queue (lim w) = next :: rest -> ordered w -> ordered (grant next rest w).
Proof.
  intros Eq [H1 H2 H3 H4]. rewrite Eq in *.
  apply StronglySorted_inv in H1 as [H1 Hnext]. rewrite Forall_forall in Hnext.
  assert (Hg : grantedRefs (grant next rest w) = grantedRefs w ++ [next])
    by (rewrite (grantedRefs_snoc w _ next Granted (removals_grant next rest w));
        reflexivity).
  assert (Hn : nextRef (grant next rest w) = nextRef w).
  { unfold grant, entry_resolve.
    rewrite (proj1 (counters_settle _ _ _)), !(proj1 (counters_clearEntryTimer _ _)).
    reflexivity. }
  constructor; rewrite ?Hg, ?Hn, ?lim_grant; simpl.
  - exact H1.
  - apply StronglySorted_app_2; [| exact H2 | repeat constructor].
    intros g x Hgr Hx. apply list_elem_of_singleton in Hx as ->.
    apply H3; [exact Hgr | apply list_elem_of_here].
  - intros g q Hgr Hq. apply elem_of_app in Hgr as [Hgr | Hgr].
    + apply H3; [exact Hgr | now apply list_elem_of_further].
    + apply list_elem_of_singleton in Hgr as ->. now apply Hnext.
  - intros r [Hr | Hr]; apply H4.
    + left. now apply list_elem_of_further.
    + apply elem_of_app in Hr as [Hr | Hr]; [now right |].
      apply list_elem_of_singleton in Hr as ->. left. apply list_elem_of_here.
Qed.

Lemma ordered_drain turns w : ordered w -> ordered (drain turns w).
Proof.
  revert w. induction turns as [| n IH]; intros w H; simpl; [exact H |].
  destruct (queue (lim w)) as [| next rest] eqn:Eq; [exact H |].
  destruct (Qle_bool 1 (tokens (lim w))); [| exact H].
  now apply IH, ordered_grant.
Qed.

Lemma ordered_scheduleProcess now w : ordered w -> ordered (scheduleProcess now w).
Proof.
  rewrite scheduleProcess_delay. apply ordered_same; simpl; try reflexivity.
  apply refillTokens_frame.
Qed.

Lemma ordered_rejectAll turns w : ordered w -> ordered (rejectAll turns w).
Proof.
  revert w. induction turns as [| n IH]; intros w H; simpl; [exact H |].
  destruct (queue (lim w)) as [| e rest] eqn:Eq; [exact H |].
  apply IH.
  set (w2 := entry_reject e "RateLimiter: shutdown"
               (clearEntryTimer e (record e ShutDown (on_lim (set_queue rest) w)))).
  assert (Hl : lim w2 = set_queue rest (lim w))
    by (unfold w2; now rewrite lim_entry_reject, lim_clearEntryTimer).
  assert (Hrm : removals w2 = removals w ++ [(e, ShutDown)]).
  { unfold w2.
    change (entry_reject e "RateLimiter: shutdown")
      with (retire e (Rejected "RateLimiter: shutdown")).
    now rewrite removals_retire, removals_clearEntryTimer. }
  assert (Hn : nextRef w2 = nextRef w).
  { unfold w2. rewrite (proj1 (counters_entry_reject _ _ _)),
      (proj1 (counters_clearEntryTimer _ _)). reflexivity. }
  pose proof (ord_queue w H) as Hs. rewrite Eq in Hs.
  apply StronglySorted_inv in Hs as [Hs _].
  apply (ordered_drop w w2 e ShutDown);
    [discriminate | now rewrite Hl | | exact Hrm | exact Hn | exact H].
  rewrite Hl, Eq. simpl. intros x Hx. now apply list_elem_of_further.
Qed.

Lemma ordered_step w op : ordered w -> ordered (step w op).
Proof.
  intros H. destruct op as [now | ms now now' | h now now' |]; simpl.
  - revert H. apply ordered_same; simpl; try reflexivity. apply tryAcquire_frame.
  - pose proof (tryAcquire_frame now (lim w)) as (Hq & _).
    destruct (tryAcquire now (lim w)) as [[|] l1] eqn:E; simpl in Hq.
    + rewrite (acquire_fast _ _ _ _ _ E). simpl. revert H. now apply ordered_same.
    + rewrite (acquire_slow _ _ _ _ _ E). simpl.
      assert (H3 : ordered (enqueued (deadline ms) l1 w)).
      { destruct H as [H1 H2 H3 H4].
        assert (Hrm : removals (enqueued (deadline ms) l1 w) = removals w)
          by (unfold enqueued; now destruct (deadline ms)).
        assert (Hqq : queue (lim (enqueued (deadline ms) l1 w))
                      = queue (lim w) ++ [nextRef w])
          by (unfold enqueued; destruct (deadline ms); simpl; now rewrite Hq).
        assert (Hnn : nextRef (enqueued (deadline ms) l1 w) = S (nextRef w))
          by (unfold enqueued; now destruct (deadline ms)).
        constructor; unfold grantedRefs in *; rewrite ?Hrm, ?Hqq, ?Hnn.
        - apply StronglySorted_app_2; [| exact H1 | repeat constructor].
          intros x y Hx Hy. apply list_elem_of_singleton in Hy as ->. apply H4. auto.
        - exact H2.
        - intros g q Hg Hqm. apply elem_of_app in Hqm as [Hqm | Hqm]; [auto |].
          apply list_elem_of_singleton in Hqm as ->. apply H4. auto.
        - intros r [Hr | Hr].
          + apply elem_of_app in Hr as [Hr | Hr].
            * assert (r < nextRef w)%nat by (apply H4; auto). lia.
            * apply list_elem_of_singleton in Hr as ->. lia.
          + assert (r < nextRef w)%nat by (apply H4; auto). lia. }
      destruct (timer l1); [exact H3 | now apply ordered_scheduleProcess].
  - unfold fire. destruct (timers w !! h) as [[[| r] d]|]; cbn [callback];
      [| | exact H].
    + unfold processQueue.
      set (w1 := on_lim _ (set_timers _ w)).
      assert (H1 : ordered w1).
      { revert H. apply ordered_same; simpl; try reflexivity.
        now rewrite (proj1 (refillTokens_frame _ _)). }
      pose proof (ordered_drain (length (queue (lim w1))) w1 H1) as H2.
      destruct (queue (lim (drain _ w1))); [exact H2 |].
      now apply ordered_scheduleProcess.
    + set (w1 := set_timers (delete h (timers w)) w).
      assert (H1 : ordered w1) by (revert H; now apply ordered_same).
      pose proof (removals_waiterTimeout r w1) as Hrm.
      pose proof (lim_waiterTimeout r w1) as Hl.
      assert (Hn : nextRef (waiterTimeout r w1) = nextRef w1).
      { unfold waiterTimeout. rewrite (proj1 (counters_entry_reject _ _ _)).
        now destruct (indexOf _ _). }
      destruct (indexOf (queue (lim w1)) r) as [idx|].
      * revert H1. apply (ordered_drop _ _ r TimedOut);
          [discriminate | | | exact Hrm | exact Hn]; rewrite Hl; simpl.
        -- apply StronglySorted_delete, (ord_queue _ H).
        -- intros x Hx. exact (elem_of_sublist _ _ _ Hx (sublist_delete _ idx)).
      * rewrite app_nil_r in Hrm. revert H1. apply ordered_same; [now rewrite Hl | exact Hrm | exact Hn].
  - unfold shutdown. apply ordered_rejectAll.
    destruct (timer (lim w)); [| exact H]. revert H. now apply ordered_same.
Qed.

Lemma ordered_run ops w : ordered w -> ordered (run ops w).
Proof.
  revert w. induction ops as [| op ops IH]; intros w H; simpl; [exact H |].
  apply IH, ordered_step, H.
Qed.

(** X4.  Waiters of one limiter are served first come, first served.  On
    every world a limiter can reach: the queue holds its waiters in order
    of arrival and a new waiter joins at the back; the waiters granted so
    far were granted in order of arrival; and every granted waiter arrived
    before every waiter still queued -- nobody is granted a token while an
    earlier arrival is still waiting in the queue. *)
Theorem waiters_first_come_first_served (rate C : Q) (startFull : bool) (t0 : Q)
    (l : Limiter) (ops : list Op) (ms : option Q) (now now' : Q) :
  new rate C startFull t0 = inr l ->
  let w := run ops (init l) in
  StronglySorted lt (queue (lim w)) /\
  StronglySorted lt (grantedRefs w) /\
  (forall g q, g ∈ grantedRefs w -> q ∈ queue (lim w) -> (g < q)%nat) /\
  (forall r, r ∈ queue (lim w) \/ r ∈ grantedRefs w -> (r < nextRef w)%nat) /\
  (forall r, fst (acquire ms now now' w) = Queued r ->
     r = nextRef w /\
     queue (lim (snd (acquire ms now now' w))) = queue (lim w) ++ [r]).
Proof.
  intros Hnew. cbv zeta. apply new_inr in Hnew as (_ & _ & ->).
  set (w := run ops _).
  assert (H : ordered w).
  { apply ordered_run. constructor; simpl; try constructor.
    - intros g q Hg. now apply not_elem_of_nil in Hg.
    - intros r [Hr | Hr]; now apply not_elem_of_nil in Hr. }
  destruct H as [H1 H2 H3 H4].
  split; [exact H1 |]. split; [exact H2 |]. split; [exact H3 |]. split; [exact H4 |].
  intros r Hr. pose proof (tryAcquire_frame now (lim w)) as (Hq & _).
  destruct (tryAcquire now (lim w)) as [[|] l1] eqn:E; simpl in Hq.
  - rewrite (acquire_fast _ _ _ _ _ E) in Hr. discriminate.
  - rewrite (acquire_slow _ _ _ _ _ E) in Hr |- *. simpl in Hr |- *.
    injection Hr as <-. split; [reflexivity |].
    destruct (timer l1); [| rewrite scheduleProcess_delay; simpl;
                            rewrite (proj1 (refillTokens_frame _ _))];
      unfold enqueued; destruct (deadline ms); simpl; now rewrite Hq.
Qed.

Lemma waiters_first_come_first_served_witness :
  let w := run race_ops (init race_limiter) in
  StronglySorted lt (queue (lim w)) /\
  StronglySorted lt (grantedRefs w) /\
  (forall g q, g ∈ grantedRefs w -> q ∈ queue (lim w) -> (g < q)%nat) /\
  (forall r, r ∈ queue (lim w) \/ r ∈ grantedRefs w -> (r < nextRef w)%nat) /\
  (forall r, fst (acquire None 400 400 w) = Queued r ->
     r = nextRef w /\
     queue (lim (snd (acquire None 400 400 w))) = queue (lim w) ++ [r]).
Proof.
  apply (waiters_first_come_first_served 5 2 true 0 race_limiter race_ops None 400 400).
  reflexivity.
Defined.

(** *** One run of [processQueue] *)

Lemma drain_prefix turns w :
  exists served,
    queue (lim w) = served ++ queue (lim (drain turns w)) /\
    removals (drain turns w) = removals w ++ map (fun r => (r, Granted)) served /\
    tokens (lim (drain turns w)) == tokens (lim w) - inj (length served) /\
    timer (lim (drain turns w)) = timer (lim w).
Proof.
  revert w. induction turns as [| n IH]; intros w; simpl.
  - exists []. simpl. rewrite app_nil_r. repeat split; try reflexivity.
    change (inj 0) with 0. lra.
  - destruct (queue (lim w)) as [| next rest] eqn:Eq.
    + exists []. simpl. rewrite Eq, app_nil_r. repeat split; try reflexivity.
      change (inj 0) with 0. lra.
    + destruct (Qle_bool 1 (tokens (lim w))).
      * destruct (IH (grant next rest w)) as (served & Hq & Hr & Ht & Htm).
        rewrite lim_grant in Hq, Ht, Htm. simpl in Hq, Ht, Htm.
        rewrite removals_grant in Hr.
        exists (next :: served). simpl. rewrite <- Hq.
        split; [reflexivity |]. split; [now rewrite Hr, <- app_assoc |].
        split; [| exact Htm].
        rewrite Ht. rewrite (inj_S (length served)). lra.
      * exists []. simpl. rewrite Eq, app_nil_r. repeat split; try reflexivity.
        change (inj 0) with 0. lra.
Qed.

(** X5.  One run of [processQueue], on any world a limiter can reach: after
    its refill it serves a front part of the queue, in queue order, taking
    one token for each waiter served and resolving its promise; it stops
    only when the queue is empty or less than one token is left.  If nobody
    is left waiting no timer is left armed; otherwise exactly the rest of
    the queue is kept and a new wake-up timer is armed. *)
Theorem processQueue_serves_front (rate C : Q) (startFull : bool) (t0 : Q)
    (l : Limiter) (ops : list Op) (now now' : Q) :
  new rate C startFull t0 = inr l ->
  let w := run ops (init l) in
  let l1 := refillTokens now (lim w) in
  let w' := processQueue now now' w in
  exists served,
    queue (lim w) = served ++ queue (lim w') /\
    removals w' = removals w ++ map (fun r => (r, Granted)) served /\
    (forall r, r ∈ served -> heap w' !! r = Some (mkEntry None Resolved)) /\
    ((queue (lim w') = [] /\ timer (lim w') = None /\
      tokens (lim w') == tokens l1 - inj (length served)) \/
     (queue (lim w') <> [] /\ tokens l1 - inj (length served) < 1 /\
      exists h d, timer (lim w') = Some h /\
                  timers w' !! h = Some (mkTimeout ProcessQueue d))).
Proof.
  intros Hnew. cbv zeta. apply new_inr in Hnew as (_ & _ & ->).
  set (w := run ops _).
  assert (Hwf : wf w) by (apply wf_run, wf_init; reflexivity).
  pose proof (wf_processQueue now now' w Hwf) as Hwf'.
  unfold processQueue in *.
  set (w1 := on_lim (fun l => refillTokens now (set_timer None l)) w) in *.
  assert (Hq1 : queue (lim w1) = queue (lim w))
    by (simpl; now rewrite (proj1 (refillTokens_frame _ _))).
  assert (Ht1 : timer (lim w1) = None)
    by (simpl; now rewrite (proj1 (proj2 (refillTokens_frame _ _)))).
  assert (Hk1 : tokens (lim w1) = tokens (refillTokens now (lim w))).
  { simpl. change (set_timer None (lim w))
      with (set_timer None (set_queue (queue (lim w)) (lim w))).
    now rewrite refillTokens_requeue. }
  destruct (drain_prefix (length (queue (lim w1))) w1) as (served & Hq & Hr & Ht & Htm).
  pose proof (drain_exit (length (queue (lim w1))) w1 (le_n _)) as Hexit.
  set (D := drain (length (queue (lim w1))) w1) in *.
  rewrite Hq1 in Hq. rewrite Ht1 in Htm. rewrite Hk1 in Ht.
  change (removals w1) with (removals w) in Hr.
  exists served.
  assert (Hres : forall v, wf v -> removals v = removals w ++ map (fun r => (r, Granted)) served ->
            forall r, r ∈ served -> heap v !! r = Some (mkEntry None Resolved)).
  { intros v Hv Hrm r Hin. apply (wf_removed _ _ Hv r Granted).
    rewrite Hrm. apply elem_of_app. right.
    apply list_elem_of_fmap. now exists r. }
  destruct (queue (lim D)) as [| x rest] eqn:EqD.
  - split; [now rewrite EqD |]. split; [exact Hr |].
    split; [now apply Hres |].
    left. split; [exact EqD |]. split; [exact Htm | exact Ht].
  - rewrite scheduleProcess_delay in *. cbn [lim removals timers timer set_timer queue].
    rewrite (proj1 (refillTokens_frame _ _)), EqD.
    split; [exact Hq |]. split; [exact Hr |].
    split; [now apply Hres |].
    right. split; [discriminate |]. split.
    + destruct Hexit as [Hexit | Hexit]; [discriminate |]. now rewrite <- Ht.
    + do 2 eexists. split; [reflexivity | apply lookup_insert_eq].
Qed.

Lemma processQueue_serves_front_witness :
  let w := run [OpAcquire None 0 0; OpAcquire None 0 0; OpAcquire None 0 0]
               (init (mkLimiter 0 0 [] None 5 5)) in
  let l1 := refillTokens 500 (lim w) in
  let w' := processQueue 500 500 w in
  exists served,
    queue (lim w) = served ++ queue (lim w') /\
    removals w' = removals w ++ map (fun r => (r, Granted)) served /\
    (forall r, r ∈ served -> heap w' !! r = Some (mkEntry None Resolved)) /\
    ((queue (lim w') = [] /\ timer (lim w') = None /\
      tokens (lim w') == tokens l1 - inj (length served)) \/
     (queue (lim w') <> [] /\ tokens l1 - inj (length served) < 1 /\
      exists h d, timer (lim w') = Some h /\
                  timers w' !! h = Some (mkTimeout ProcessQueue d))).
Proof.
  apply (processQueue_serves_front 5 5 false 0 (mkLimiter 0 0 [] None 5 5)
           [OpAcquire None 0 0; OpAcquire None 0 0; OpAcquire None 0 0] 500 500).
  reflexivity.
Defined.

(** Half a second after three callers queued on an empty bucket of rate 5,
    the wake-up serves the first two and leaves the third waiting. *)
Example processQueue_serves_two_of_three :
  let w := run [OpAcquire None 0 0; OpAcquire None 0 0; OpAcquire None 0 0]
               (init (mkLimiter 0 0 [] None 5 5)) in
  removals (processQueue 500 500 w) = [(0%nat, Granted); (1%nat, Granted)] /\
  queue (lim (processQueue 500 500 w)) = [2%nat].
Proof. vm_compute. auto. Qed.

(** *** At most one wake-up timer, and what [shutdown] leaves *)

(** [one_wake w]: the only pending timer that runs [processQueue] is the one
    the limiter remembers in [timer]. *)
Definition one_wake (w : World) : Prop :=
  forall h t, timers w !! h = Some t -> callback t = ProcessQueue ->
              timer (lim w) = Some h.

Definition no_wake (w : World) : Prop :=
  forall h t, timers w !! h = Some t -> callback t <> ProcessQueue.

(** [w'] has no pending timer that [w] did not have. *)
Definition subtimers (w w' : World) : Prop :=
  forall h t, timers w' !! h = Some t -> timers w !! h = Some t.

Lemma subtimers_refl w : subtimers w w.
Proof. intros h t H. exact H. Qed.

Lemma subtimers_trans w1 w2 w3 : subtimers w1 w2 -> subtimers w2 w3 -> subtimers w1 w3.
Proof. intros H1 H2 h t H. auto. Qed.

Lemma subtimers_same w w' : timers w' = timers w -> subtimers w w'.
Proof. intros E h t. now rewrite E. Qed.

Lemma subtimers_delete h w w' : timers w' = delete h (timers w) -> subtimers w w'.
Proof.
  intros E h' t. rewrite E, lookup_delete. case_decide; [discriminate | auto].
Qed.

Lemma subtimers_clearEntryTimer r w : subtimers w (clearEntryTimer r w).
Proof.
  unfold clearEntryTimer. destruct (heap w !! r) as [[[h|] p]|];
    [now apply (subtimers_delete h) | apply subtimers_refl | apply subtimers_refl].
Qed.

Lemma subtimers_retire r s w : subtimers w (retire r s w).
Proof.
  unfold retire. eapply subtimers_trans; [apply subtimers_clearEntryTimer |].
  apply subtimers_same. unfold settle.
  now destruct (heap (clearEntryTimer r w) !! r) as [[t [| |m]]|].
Qed.

Lemma subtimers_grant next rest w : subtimers w (grant next rest w).
Proof.
  unfold grant. change (entry_resolve next) with (retire next Resolved).
  eapply subtimers_trans; [| apply subtimers_retire].
  eapply subtimers_trans; [| apply subtimers_clearEntryTimer].
  now apply subtimers_same.
Qed.

Lemma subtimers_drain turns w : subtimers w (drain turns w).
Proof.
  revert w. induction turns as [| n IH]; intros w; simpl; [apply subtimers_refl |].
  destruct (queue (lim w)) as [| next rest]; [apply subtimers_refl |].
  destruct (Qle_bool 1 (tokens (lim w))); [| apply subtimers_refl].
  eapply subtimers_trans; [apply subtimers_grant | apply IH].
Qed.

Lemma subtimers_waiterTimeout r w : subtimers w (waiterTimeout r w).
Proof.
  unfold waiterTimeout.
  change (entry_reject r "RateLimiter: acquire timeout")
    with (retire r (Rejected "RateLimiter: acquire timeout")).
  eapply subtimers_trans; [| apply subtimers_retire].
  apply subtimers_same. now destruct (indexOf _ _).
Qed.

Lemma subtimers_rejectAll turns w : subtimers w (rejectAll turns w).
Proof.
  revert w. induction turns as [| n IH]; intros w; simpl; [apply subtimers_refl |].
  destruct (queue (lim w)) as [| e rest]; [apply subtimers_refl |].
  eapply subtimers_trans; [| apply IH].
  change (entry_reject e "RateLimiter: shutdown")
    with (retire e (Rejected "RateLimiter: shutdown")).
  eapply subtimers_trans; [| apply subtimers_retire].
  eapply subtimers_trans; [| apply subtimers_clearEntryTimer].
  now apply subtimers_same.
Qed.

Lemma no_wake_sub w w' : subtimers w w' -> no_wake w -> no_wake w'.
Proof. intros Hs Hn h t Ht. eauto. Qed.

Lemma one_wake_sub w w' :
  subtimers w w' -> timer (lim w') = timer (lim w) -> one_wake w -> one_wake w'.
Proof. intros Hs Ht H h t Hh Hc. rewrite Ht. eauto. Qed.

Lemma no_wake_one_wake w : no_wake w -> one_wake w.
Proof. intros H h t Ht Hc. now destruct (H h t Ht). Qed.

Lemma one_wake_scheduleProcess now w : no_wake w -> one_wake (scheduleProcess now w).
Proof.
  intros Hn. rewrite scheduleProcess_delay. intros h t. simpl.
  rewrite lookup_insert. case_decide as E; [now subst |].
  intros Ht Hc. now destruct (Hn h t Ht).
Qed.

Lemma no_wake_after_timer h w :
  one_wake w -> timer (lim w) = Some h ->
  no_wake (set_timers (delete h (timers w)) w).
Proof.
  intros H1 Hh h' t. simpl. rewrite lookup_delete. case_decide as Eh; [discriminate |].
  intros Ht Hc. pose proof (H1 h' t Ht Hc). congruence.
Qed.

Lemma one_wake_processQueue now now' w : no_wake w -> one_wake (processQueue now now' w).
Proof.
  intros Hn. unfold processQueue. set (w1 := on_lim _ w).
  assert (H1 : no_wake (drain (length (queue (lim w1))) w1)).
  { apply (no_wake_sub w); [| exact Hn].
    eapply subtimers_trans; [| apply subtimers_drain]. now apply subtimers_same. }
  destruct (queue (lim (drain _ w1)));
    [now apply no_wake_one_wake | now apply one_wake_scheduleProcess].
Qed.

Lemma one_wake_step w op : one_wake w -> one_wake (step w op).
Proof.
  intros H. destruct op as [now | ms now now' | h now now' |]; simpl.
  - revert H. apply one_wake_sub; [now apply subtimers_same |].
    simpl. apply tryAcquire_frame.
  - pose proof (tryAcquire_frame now (lim w)) as (_ & Ht & _).
    destruct (tryAcquire now (lim w)) as [[|] l1] eqn:E; simpl in Ht.
    + rewrite (acquire_fast _ _ _ _ _ E). simpl.
      revert H. apply one_wake_sub; [now apply subtimers_same | exact Ht].
    + rewrite (acquire_slow _ _ _ _ _ E). simpl.
      assert (H3 : forall h t, timers (enqueued (deadline ms) l1 w) !! h = Some t ->
                     callback t = ProcessQueue -> timers w !! h = Some t).
      { intros h t. unfold enqueued. destruct (deadline ms); simpl; [| auto].
        rewrite lookup_insert. case_decide; [| auto]. now intros [= <-]. }
      destruct (timer l1) as [h0|] eqn:Et.
      * intros h t Hh Hc. pose proof (H h t (H3 h t Hh Hc) Hc) as Hw.
        unfold enqueued. destruct (deadline ms); simpl; congruence.
      * apply one_wake_scheduleProcess. intros h t Hh Hc.
        pose proof (H h t (H3 h t Hh Hc) Hc). congruence.
  - unfold fire. destruct (timers w !! h) as [[[| r] d]|] eqn:Eh; cbn [callback];
      [| | exact H].
    + apply one_wake_processQueue, no_wake_after_timer; [exact H |].
      now apply (H h _ Eh).
    + apply (one_wake_sub w); [| | exact H].
      * eapply subtimers_trans; [| apply subtimers_waiterTimeout].
        now apply (subtimers_delete h).
      * rewrite lim_waiterTimeout. simpl. now destruct (indexOf _ _).
  - apply no_wake_one_wake. unfold shutdown.
    destruct (timer (lim w)) as [h|] eqn:Et.
    + apply (no_wake_sub (set_timers (delete h (timers w)) w));
        [| now apply no_wake_after_timer].
      eapply subtimers_trans; [| apply subtimers_rejectAll]. now apply subtimers_same.
    + apply (no_wake_sub w); [apply subtimers_rejectAll |].
      intros h t Hh Hc. pose proof (H h t Hh Hc). congruence.
Qed.

Lemma one_wake_run ops w : one_wake w -> one_wake (run ops w).
Proof.
  revert w. induction ops as [| op ops IH]; intros w H; simpl; [exact H |].
  apply IH, one_wake_step, H.
Qed.

Lemma no_wake_shutdown w : one_wake w -> no_wake (shutdown w).
Proof.
  intros H. unfold shutdown. destruct (timer (lim w)) as [h|] eqn:Et.
  - apply (no_wake_sub (set_timers (delete h (timers w)) w));
      [| now apply no_wake_after_timer].
    eapply subtimers_trans; [| apply subtimers_rejectAll]. now apply subtimers_same.
  - apply (no_wake_sub w); [apply subtimers_rejectAll |].
    intros h t Hh Hc. pose proof (H h t Hh Hc). congruence.
Qed.

(** X6.  [shutdown], on any world a limiter can reach, leaves nothing
    behind: the queue is empty, the wake-up timer is forgotten and no timer
    at all stays pending; the waiters that were queued are rejected in queue
    order, each with the shutdown error; no promise [acquire] ever returned
    is left pending; and a second [shutdown] changes nothing. *)
Theorem shutdown_leaves_nothing_pending (rate C : Q) (startFull : bool) (t0 : Q)
    (l : Limiter) (ops : list Op) :
  new rate C startFull t0 = inr l ->
  let w := run ops (init l) in
  let w' := shutdown w in
  queue (lim w') = [] /\ timer (lim w') = None /\ timers w' = ∅ /\
  removals w' = removals w ++ map (fun r => (r, ShutDown)) (queue (lim w)) /\
  (forall r, r ∈ queue (lim w) ->
     heap w' !! r = Some (mkEntry None (Rejected "RateLimiter: shutdown"))) /\
  (forall r, (r < nextRef w')%nat ->
     exists s, heap w' !! r = Some (mkEntry None s) /\ s <> Pending) /\
  shutdown w' = w'.
Proof.
  intros Hnew. cbv zeta. apply new_inr in Hnew as (_ & _ & ->).
  set (w := run ops _).
  assert (Hwf : wf w) by (apply wf_run, wf_init; reflexivity).
  assert (How : one_wake w).
  { apply one_wake_run. intros h t. simpl. rewrite lookup_empty. discriminate. }
  pose proof (wf_shutdown w Hwf) as Hwf'.
  destruct (shutdown_frame w) as (Hl & _ & _).
  assert (Hq : queue (lim (shutdown w)) = []) by now rewrite Hl.
  assert (Ht : timer (lim (shutdown w)) = None) by now rewrite Hl.
  split; [exact Hq |]. split; [exact Ht |]. split.
  { apply map_empty. intros h.
    destruct (timers (shutdown w) !! h) as [[[| r] d]|] eqn:Eh; [| | reflexivity].
    - now destruct (no_wake_shutdown w How h _ Eh).
    - destruct (wf_timers _ _ Hwf' h r d Eh) as [Hin _].
      rewrite Hq in Hin. now apply not_elem_of_nil in Hin. }
  split; [apply removals_shutdown |]. split.
  { intros r Hr. apply (wf_removed _ _ Hwf' r ShutDown).
    rewrite removals_shutdown. apply elem_of_app. right.
    apply list_elem_of_fmap. now exists r. }
  split.
  { intros r Hr. apply (wf_created _ _ Hwf') in Hr as [Hr | Hr].
    - rewrite Hq in Hr. now apply not_elem_of_nil in Hr.
    - apply list_elem_of_fmap in Hr as [[r' k] [-> Hk]]. simpl.
      exists (outcome k). split; [now apply (wf_removed _ _ Hwf') |].
      destruct k; discriminate. }
  unfold shutdown at 1. rewrite Ht, Hq. reflexivity.
Qed.

Lemma shutdown_leaves_nothing_pending_witness :
  let w := run [OpAcquire (Some 100) 0 0; OpAcquire None 0 0]
               (init (mkLimiter 0 0 [] None 5 5)) in
  let w' := shutdown w in
  queue (lim w') = [] /\ timer (lim w') = None /\ timers w' = ∅ /\
  removals w' = removals w ++ map (fun r => (r, ShutDown)) (queue (lim w)) /\
  (forall r, r ∈ queue (lim w) ->
     heap w' !! r = Some (mkEntry None (Rejected "RateLimiter: shutdown"))) /\
  (forall r, (r < nextRef w')%nat ->
     exists s, heap w' !! r = Some (mkEntry None s) /\ s <> Pending) /\
  shutdown w' = w'.
Proof.
  apply (shutdown_leaves_nothing_pending 5 5 false 0 (mkLimiter 0 0 [] None 5 5)
           [OpAcquire (Some 100) 0 0; OpAcquire None 0 0]).
  reflexivity.
Defined.

(** *** A bucket smaller than one token *)

Lemma tryAcquire_small now l :
  config_ok l -> bucket_ok l -> bucketSize l < 1 -> fst (tryAcquire now l) = false.
Proof.
  intros Hc Hb Hs. pose proof (refillTokens_bucket_ok now l Hc Hb) as [_ H1].
  pose proof (refillTokens_frame now l) as (_ & _ & _ & E).
  rewrite E in H1. unfold tryAcquire.
  assert (H : Qle_bool 1 (tokens (refillTokens now l)) = false)
    by (apply Qle_bool_false; lra).
  now rewrite H.
Qed.

Lemma drain_small turns w : tokens (lim w) < 1 -> drain turns w = w.
Proof.
  intros H. destruct turns as [| n]; simpl; [reflexivity |].
  destruct (queue (lim w)); [reflexivity |].
  apply Qle_bool_false in H. now rewrite H.
Qed.

Lemma granted_step_small C w op :
  C < 1 -> bucket_inv C w -> granted (step w op) = granted w /\ instant w op = 0%nat.
Proof.
  intros HC (Hc & Hb & Hs).
  assert (Hf : forall now, fst (tryAcquire now (lim w)) = false).
  { intros now. apply tryAcquire_small; [exact Hc | exact Hb | rewrite Hs; exact HC]. }
  destruct op as [now | ms now now' | h now now' |]; simpl.
  - rewrite Hf. split; [now apply granted_same | reflexivity].
  - rewrite Hf. split; [apply granted_same, removals_acquire | reflexivity].
  - split; [| reflexivity]. unfold fire.
    destruct (timers w !! h) as [[[| r] d]|]; cbn [callback]; [| | reflexivity].
    + unfold processQueue.
      set (w1 := on_lim (fun l => refillTokens now (set_timer None l))
                        (set_timers (delete h (timers w)) w)).
      assert (H1 : tokens (lim w1) < 1).
      { assert (Hi : bucket_inv C w1).
        { apply (bucket_inv_refill C now (on_lim (set_timer None)
                   (set_timers (delete h (timers w)) w))).
          repeat split; simpl; first [apply Hc | apply Hb | exact Hs]. }
        destruct Hi as (_ & [_ Hle] & Hs1). rewrite Hs1 in Hle. lra. }
      rewrite (drain_small _ _ H1).
      destruct (queue (lim w1)); now apply granted_same.
    + set (w1 := set_timers (delete h (timers w)) w).
      pose proof (removals_waiterTimeout r w1) as Hrm.
      destruct (indexOf (queue (lim w1)) r).
      * now rewrite (granted_snoc w1 _ r TimedOut Hrm).
      * rewrite app_nil_r in Hrm. now rewrite (granted_same w1 _ Hrm).
  - split; [| reflexivity].
    now rewrite (granted_app_others w (shutdown w) (queue (lim w)) ShutDown
                   ltac:(discriminate) (removals_shutdown w)).
Qed.

Lemma admissions_small C ops w :
  C < 1 -> bucket_inv C w ->
  granted (run ops w) = granted w /\ instants ops w = 0%nat.
Proof.
  intros HC. revert w. induction ops as [| op ops IH]; intros w Hi; simpl; [auto |].
  destruct (granted_step_small C w op HC Hi) as [Hg Hn].
  destruct (IH (step w op) (bucket_inv_step C w op Hi)) as [Hg' Hn'].
  rewrite Hg', Hg, Hn, Hn'. auto.
Qed.

(** X7.  The constructor accepts any positive capacity, also one below a
    whole token; such a limiter never hands out a token.  Over every
    sequence of operations and timer firings no caller is admitted, and
    afterwards [tryAcquire] still answers [false] and [acquire] queues its
    caller, whatever the clock reads. *)
Theorem small_bucket_never_admits (rate C : Q) (startFull : bool) (t0 : Q)
    (l : Limiter) (ops : list Op) :
  new rate C startFull t0 = inr l -> C < 1 ->
  let w := run ops (init l) in
  admissions ops (init l) = 0%nat /\
  List.filter isGranted (removals w) = [] /\
  forall now, fst (tryAcquire now (lim w)) = false /\
    forall ms now', fst (acquire ms now now' w) = Queued (nextRef w).
Proof.
  intros Hnew HC. cbv zeta.
  assert (Hi : bucket_inv C (init l)) by (eapply bucket_inv_new; eassumption).
  destruct (admissions_small C ops (init l) HC Hi) as [Hg Hn].
  assert (Hf : forall now, fst (tryAcquire now (lim (run ops (init l)))) = false).
  { intros now. destruct (bucket_inv_run C ops _ Hi) as (Hc & Hb & Hs).
    apply tryAcquire_small; [exact Hc | exact Hb | rewrite Hs; exact HC]. }
  split; [unfold admissions; rewrite Hg, Hn; lia |]. split.
  { apply length_zero_iff_nil. exact Hg. }
  intros now. split; [apply Hf |]. intros ms now'.
  now rewrite acquire_fst, Hf.
Qed.

Lemma small_bucket_never_admits_witness :
  let l := mkLimiter (1 # 2) 0 [] None 100 (1 # 2) in
  let ops := [OpAcquire None 0 0; OpFire 0 5 5; OpTryAcquire 60000] in
  let w := run ops (init l) in
  admissions ops (init l) = 0%nat /\
  List.filter isGranted (removals w) = [] /\
  forall now, fst (tryAcquire now (lim w)) = false /\
    forall ms now', fst (acquire ms now now' w) = Queued (nextRef w).
Proof.
  apply (small_bucket_never_admits 100 (1 # 2) true 0
           (mkLimiter (1 # 2) 0 [] None 100 (1 # 2))
           [OpAcquire None 0 0; OpFire 0 5 5; OpTryAcquire 60000]).
  - reflexivity.
  - reflexivity.
Defined.

(** *** Callers that do not queue *)

(** A run of [n] calls of [tryAcquire] with no time passing, on a bucket
    that holds [n] tokens: each takes one, nothing else changes. *)
Lemma run_tryAcquire_idle (n : nat) (now : Q) (w : World) :
  now <= lastRefill (lim w) -> inj n <= tokens (lim w) ->
  exists t, t == tokens (lim w) - inj n /\
    run (replicate n (OpTryAcquire now)) w = on_lim (set_tokens t) w.
Proof.
  revert w. induction n as [| n IH]; intros w Hidle Hn.
  - exists (tokens (lim w)). split; [change (inj 0) with 0; lra |].
    destruct w as [[t lr q tm r c] hp ts nr nh rm]. reflexivity.
  - rewrite inj_S in Hn.
    assert (H1 : 1 <= tokens (lim w)).
    { assert (0 <= inj n); [| lra]. unfold inj. change 0 with (inject_Z 0).
      rewrite <- Zle_Qle. lia. }
    set (w1 := on_lim (set_tokens (tokens (lim w) - 1)) w).
    assert (Es : step w (OpTryAcquire now) = w1).
    { unfold step, on_lim. now rewrite (tryAcquire_idle_take now (lim w) Hidle H1). }
    change (run (replicate (S n) (OpTryAcquire now)) w)
      with (run (replicate n (OpTryAcquire now)) (step w (OpTryAcquire now))).
    rewrite Es.
    destruct (IH w1) as (t & Ht & Hrun).
    + exact Hidle.
    + unfold w1. cbn [lim on_lim tokens set_tokens set_bucket].
      revert Hn. generalize (inj n). intros x Hx. lra.
    + exists t. split.
      * rewrite Ht, inj_S. unfold w1. cbn [lim on_lim tokens set_tokens set_bucket].
        generalize (inj n). intros x. lra.
      * rewrite Hrun. reflexivity.
Qed.

(** X19.  Arrival order is kept among queued callers only.  Every limiter
    with room for a whole token can be brought, by calls alone, to a state in
    which one caller is queued and pending, and in that state any later
    [acquire] -- made once two tokens' worth of time has passed and before
    the wake-up has run -- is served on the spot: the newcomer has its token
    while the earlier caller is still in the queue, unserved. *)
Theorem newcomer_overtakes_waiters (rate C : Q) (startFull : bool) (t0 : Q)
    (l : Limiter) :
  new rate C startFull t0 = inr l -> 1 <= C ->
  exists ops r,
    let w := run ops (init l) in
    queue (lim w) = [r] /\ heap w !! r = Some (mkEntry None Pending) /\
    forall ms now now', t0 + 2000 / rate <= now ->
      let w' := snd (acquire ms now now' w) in
      fst (acquire ms now now' w) = Immediate /\
      queue (lim w') = [r] /\ heap w' !! r = Some (mkEntry None Pending) /\
      removals w' = [].
Proof.
  intros Hnew HC. pose proof (bucket_inv_new _ _ _ _ _ Hnew) as (_ & [H0 H1] & _).
  apply new_inr in Hnew as (Hr & Hs & ->). cbn [lim init tokens bucketSize] in H0, H1.
  set (T := if startFull then C else 0) in *.
  set (l := mkLimiter T t0 [] None rate C).
  set (n := Z.to_nat (Qfloor T)).
  assert (Hfl : (0 <= Qfloor T)%Z) by (change 0%Z with (Qfloor 0); now apply Qfloor_resp_le).
  assert (Hn : inj n = inject_Z (Qfloor T)) by (unfold inj, n; now rewrite Z2Nat.id).
  destruct (run_tryAcquire_idle n t0 (init l)) as (t & Ht & Hrun).
  { apply Qle_refl. }
  { rewrite Hn. change (tokens (lim (init l))) with T. apply Qfloor_le. }
  change (tokens (lim (init l))) with T in Ht. rewrite Hn in Ht.
  assert (Ht0 : 0 <= t) by (pose proof (Qfloor_le T); lra).
  assert (Ht1 : t < 1).
  { pose proof (Qlt_floor T) as H. rewrite inject_Z_plus in H.
    change (inject_Z 1) with 1 in H. lra. }
  exists (replicate n (OpTryAcquire t0) ++ [OpAcquire None t0 t0]), 0%nat.
  cbv zeta. unfold run. rewrite fold_left_app.
  change (fold_left step (replicate n (OpTryAcquire t0)) (init l))
    with (run (replicate n (OpTryAcquire t0)) (init l)).
  rewrite Hrun. cbn [fold_left step].
  set (l1 := set_tokens t l).
  assert (E : tryAcquire t0 l1 = (false, l1))
    by (apply tryAcquire_idle_refuse; [apply Qle_refl | exact Ht1]).
  change (on_lim (set_tokens t) (init l)) with (init l1).
  rewrite (acquire_slow None t0 t0 (init l1) l1 E). cbn [snd timer l1 set_tokens set_bucket l].
  rewrite scheduleProcess_delay.
  cbn [lim enqueued deadline init nextRef nextHandle heap timers removals].
  rewrite refillTokens_idle by apply Qle_refl.
  cbn [lim queue set_timer set_queue heap app].
  split; [reflexivity |]. split; [apply lookup_insert_eq |].
  intros ms now now' Hnow.
  set (w := mkWorld _ _ _ _ _ _).
  assert (Hq : 2000 / rate * rate == 2000) by (field; lra).
  assert (Hq0 : 0 < 2000 / rate).
  { unfold Qdiv. apply Qmult_lt_0_compat; [reflexivity | now apply Qinv_lt_0_compat]. }
  set (d := 2000 / rate) in *. clearbody d.
  assert (Hadv : lastRefill (lim w) < now) by (change (t0 < now); lra).
  assert (Htok : 1 <= tokens (refillTokens now (lim w))).
  { rewrite (refillTokens_advance _ _ Hadv).
    unfold w, l1, l.
    cbn [lim tokens lastRefill tokensPerSecond bucketSize set_bucket set_timer set_queue
         set_tokens queue timer].
    apply Q.min_glb; [exact HC |].
    assert (2 <= (now - t0) / 1000 * rate); [| lra].
    assert (Hx : d * rate <= (now - t0) * rate)
      by (apply Qmult_le_compat_r; lra).
    rewrite Hq in Hx.
    assert (Ey : (now - t0) / 1000 * rate == (now - t0) * rate / 1000) by field.
    rewrite Ey. apply Qle_shift_div_l; [reflexivity | lra]. }
  assert (Etry : tryAcquire now (lim w)
                 = (true, set_tokens (tokens (refillTokens now (lim w)) - 1)
                            (refillTokens now (lim w)))).
  { unfold tryAcquire. apply Qle_bool_iff in Htok. now rewrite Htok. }
  rewrite (acquire_fast _ _ _ _ _ Etry). cbn [fst snd on_lim lim heap removals].
  split; [reflexivity |]. split; [| split; [apply lookup_insert_eq | reflexivity]].
  cbn [set_tokens set_bucket queue].
  rewrite (proj1 (refillTokens_frame now (lim w))). reflexivity.
Qed.

Lemma newcomer_overtakes_waiters_witness :
  exists ops r,
    let w := run ops (init (mkLimiter 5 0 [] None 5 5)) in
    queue (lim w) = [r] /\ heap w !! r = Some (mkEntry None Pending) /\
    forall ms now now', 0 + 2000 / 5 <= now ->
      let w' := snd (acquire ms now now' w) in
      fst (acquire ms now now' w) = Immediate /\
      queue (lim w') = [r] /\ heap w' !! r = Some (mkEntry None Pending) /\
      removals w' = [].
Proof.
  apply (newcomer_overtakes_waiters 5 5 true 0 (mkLimiter 5 0 [] None 5 5)).
  - reflexivity.
  - discriminate.
Defined.

End RateLimiterMore.

(** ** The bucket in double arithmetic: facts *)

Module DoublesFacts.
Import RateLimiter RateLimiterFacts RateLimiterMore Rounding.

(** *** Rounding to the nearest double is monotone *)

Ltac decode H :=
  first [ apply (proj2 (Qeq_alt _ _)) in H
        | apply (proj2 (Qlt_alt _ _)) in H
        | apply (proj2 (Qgt_alt _ _)) in H ].

Lemma rne_floor x : (Qfloor x <= rne x <= Qfloor x + 1)%Z.
Proof.
  unfold rne. destruct (Qcompare _ _); [destruct (Z.even _) | |]; lia.
Qed.

Lemma rne_Z z : rne (inject_Z z) = z.
Proof.
  unfold rne. rewrite Qfloor_Z.
  assert (E : Qcompare (inject_Z z - inject_Z z) (1 # 2) = Lt).
  { apply (proj1 (Qlt_alt _ _)). lra. }
  now rewrite E.
Qed.

Lemma Qfloor_spec x : inject_Z (Qfloor x) <= x /\ x < inject_Z (Qfloor x) + 1.
Proof.
  split; [apply Qfloor_le |].
  pose proof (Qlt_floor x) as H. rewrite inject_Z_plus in H. exact H.
Qed.

Lemma rne_mono x y : x <= y -> (rne x <= rne y)%Z.
Proof.
  intros Hxy. pose proof (Qfloor_resp_le x y Hxy) as Hf.
  destruct (Z.eq_dec (Qfloor x) (Qfloor y)) as [E | E].
  - unfold rne. rewrite E.
    destruct (Qcompare (x - inject_Z (Qfloor y)) (1 # 2)) eqn:Cx;
      destruct (Qcompare (y - inject_Z (Qfloor y)) (1 # 2)) eqn:Cy;
      try destruct (Z.even (Qfloor y)); try lia;
      decode Cx; decode Cy; exfalso; lra.
  - pose proof (rne_floor x). pose proof (rne_floor y). lia.
Qed.

Lemma rne_nonneg x : 0 <= x -> (0 <= rne x)%Z.
Proof.
  intros H. apply rne_mono in H. change (rne 0) with (rne (inject_Z 0)) in H.
  now rewrite rne_Z in H.
Qed.

Lemma pow2_pos e : 0 < 2 ^ e.
Proof. now apply Qpower_0_lt. Qed.

Lemma pow2_add a b : 2 ^ (a + b) == 2 ^ a * 2 ^ b.
Proof. now apply Qpower_plus. Qed.

Lemma pow2_le a b : (a <= b)%Z -> 2 ^ a <= 2 ^ b.
Proof. intros H. now apply Qpower_le_compat_l. Qed.

Lemma pow2_lt_inv a b : 2 ^ a < 2 ^ b -> (a < b)%Z.
Proof. intros H. now apply (Qpower_lt_compat_l_inv 2). Qed.

Lemma pow2_Z n : (0 <= n)%Z -> 2 ^ n == inject_Z (2 ^ n).
Proof. intros H. now rewrite Zpower_Qpower. Qed.

(** Fractions against powers of two. *)
Lemma frac_lt_pow2 (n : Z) (d : BinNums.positive) (u v : Z) :
  (0 <= u)%Z -> (0 <= v)%Z -> (n * 2 ^ v < 2 ^ u * Zpos d)%Z -> n # d < 2 ^ (u - v).
Proof.
  intros Hu Hv H. unfold Z.sub. rewrite pow2_add, Qpower_opp, !pow2_Z by assumption.
  assert (Hv0 : (0 < 2 ^ v)%Z) by (apply Z.pow_pos_nonneg; lia).
  rewrite Qmake_Qdiv.
  apply Qlt_shift_div_r; [reflexivity |].
  assert (E : inject_Z (2 ^ u) * / inject_Z (2 ^ v) * inject_Z (Zpos d)
              == inject_Z (2 ^ u * Zpos d) / inject_Z (2 ^ v)).
  { rewrite inject_Z_mult. field. intros E. unfold Qeq in E. simpl in E. lia. }
  rewrite E. apply Qlt_shift_div_l; [change 0 with (inject_Z 0); now rewrite <- Zlt_Qlt |].
  rewrite <- inject_Z_mult, <- Zlt_Qlt. exact H.
Qed.

Lemma pow2_lt_frac (n : Z) (d : BinNums.positive) (u v : Z) :
  (0 <= u)%Z -> (0 <= v)%Z -> (2 ^ u * Zpos d < n * 2 ^ v)%Z -> 2 ^ (u - v) < n # d.
Proof.
  intros Hu Hv H. unfold Z.sub. rewrite pow2_add, Qpower_opp, !pow2_Z by assumption.
  assert (Hv0 : (0 < 2 ^ v)%Z) by (apply Z.pow_pos_nonneg; lia).
  rewrite Qmake_Qdiv.
  apply Qlt_shift_div_l; [reflexivity |].
  assert (E : inject_Z (2 ^ u) * / inject_Z (2 ^ v) * inject_Z (Zpos d)
              == inject_Z (2 ^ u * Zpos d) / inject_Z (2 ^ v)).
  { rewrite inject_Z_mult. field. intros E. unfold Qeq in E. simpl in E. lia. }
  rewrite E. apply Qlt_shift_div_r; [change 0 with (inject_Z 0); now rewrite <- Zlt_Qlt |].
  rewrite <- inject_Z_mult, <- Zlt_Qlt. exact H.
Qed.

Lemma exponent_spec x :
  0 < x -> 2 ^ exponent x <= x /\ x < 2 ^ (exponent x + 1).
Proof.
  intros Hx. destruct x as [n d]. assert (Hn : (0 < n)%Z).
  { unfold Qlt in Hx. simpl in Hx. lia. }
  unfold exponent. cbn [Qnum Qden].
  destruct (Z.log2_spec n Hn) as [Ha1 Ha2].
  destruct (Z.log2_spec (Zpos d) (Pos2Z.is_pos d)) as [Hb1 Hb2].
  pose proof (Z.log2_nonneg n) as Ha0. pose proof (Z.log2_nonneg (Zpos d)) as Hb0.
  set (a := Z.log2 n) in *. set (b := Z.log2 (Zpos d)) in *.
  assert (Hpa : (0 < 2 ^ a)%Z) by (apply Z.pow_pos_nonneg; lia).
  assert (Hpb : (0 < 2 ^ b)%Z) by (apply Z.pow_pos_nonneg; lia).
  assert (Hup : n # d < 2 ^ (a - b + 1)).
  { replace (a - b + 1)%Z with (Z.succ a - b)%Z by lia.
    apply frac_lt_pow2; [lia | lia | nia]. }
  assert (Hlo : 2 ^ (a - b - 1) < n # d).
  { replace (a - b - 1)%Z with (a - Z.succ b)%Z by lia.
    apply pow2_lt_frac; [lia | lia | nia]. }
  destruct (Qle_bool (2 ^ (a - b)) (n # d)) eqn:E.
  - apply Qle_bool_iff in E. split; [exact E | exact Hup].
  - split; [now apply Qlt_le_weak |].
    replace (a - b - 1 + 1)%Z with (a - b)%Z by lia.
    destruct (Qlt_le_dec (n # d) (2 ^ (a - b))) as [H | H]; [exact H |].
    apply Qle_bool_iff in H. congruence.
Qed.

Lemma exponent_mono x y : 0 < x -> x <= y -> (exponent x <= exponent y)%Z.
Proof.
  intros Hx Hxy. destruct (exponent_spec x Hx) as [H1 _].
  destruct (exponent_spec y) as [_ H2]; [lra |].
  assert (H : 2 ^ exponent x < 2 ^ (exponent y + 1)) by lra.
  apply pow2_lt_inv in H. lia.
Qed.

Lemma ulp_pos x : 0 < ulp x.
Proof. apply pow2_pos. Qed.

Lemma nearest_nonneg x : 0 <= x -> 0 <= nearest x.
Proof.
  intros Hx. unfold nearest. pose proof (ulp_pos x) as Hu.
  apply Qmult_le_0_compat; [| lra].
  change 0 with (inject_Z 0). rewrite <- Zle_Qle. apply rne_nonneg.
  apply Qle_shift_div_l; [exact Hu | lra].
Qed.

Lemma nearest_mono x y : 0 < x -> x <= y -> nearest x <= nearest y.
Proof.
  intros Hx Hxy. assert (Hy : 0 < y) by lra.
  pose proof (exponent_mono x y Hx Hxy) as He.
  destruct (exponent_spec x Hx) as [_ Hxu]. destruct (exponent_spec y Hy) as [Hyl _].
  unfold nearest, ulp.
  set (sx := Z.max (exponent x - 52) (-1074)). set (sy := Z.max (exponent y - 52) (-1074)).
  pose proof (pow2_pos sx) as Hsx. pose proof (pow2_pos sy) as Hsy.
  destruct (Z.eq_dec sx sy) as [E | E].
  - rewrite E. apply Qmult_le_compat_r; [| lra].
    rewrite <- Zle_Qle. apply rne_mono.
    apply Qmult_le_compat_r; [exact Hxy |].
    apply Qlt_le_weak, Qinv_lt_0_compat. fold sy. exact Hsy.
  - assert (Hs : (sx < sy)%Z) by lia.
    assert (Esy : sy = (exponent y - 52)%Z) by lia.
    assert (Hlt : (exponent x + 1 <= exponent y)%Z) by lia.
    apply Qle_trans with (2 ^ exponent y).
    + (* nearest x <= 2^ey *)
      assert (Hk : (0 <= exponent y - sx)%Z) by lia.
      assert (Hq : x / 2 ^ sx <= inject_Z (2 ^ (exponent y - sx))).
      { rewrite <- pow2_Z by exact Hk. unfold Z.sub. rewrite pow2_add, Qpower_opp.
        apply Qmult_le_compat_r; [| apply Qlt_le_weak, Qinv_lt_0_compat; exact Hsx].
        apply Qle_trans with (2 ^ (exponent x + 1)); [lra | now apply pow2_le]. }
      apply rne_mono in Hq. rewrite rne_Z in Hq.
      rewrite Zle_Qle in Hq.
      apply Qle_trans with (inject_Z (2 ^ (exponent y - sx)) * 2 ^ sx).
      * apply Qmult_le_compat_r; [exact Hq | lra].
      * rewrite <- pow2_Z by exact Hk.
        rewrite <- pow2_add. replace (exponent y - sx + sx)%Z with (exponent y) by lia.
        apply Qle_refl.
    + (* 2^ey <= nearest y *)
      assert (Hq : inject_Z (2 ^ 52) <= y / 2 ^ sy).
      { rewrite <- pow2_Z by lia.
        apply Qle_shift_div_l; [exact Hsy |]. rewrite <- pow2_add.
        replace (52 + sy)%Z with (exponent y) by lia. exact Hyl. }
      apply rne_mono in Hq. rewrite rne_Z in Hq. rewrite Zle_Qle in Hq.
      apply Qle_trans with (inject_Z (2 ^ 52) * 2 ^ sy).
      * rewrite <- pow2_Z by lia. rewrite <- pow2_add.
        replace (52 + sy)%Z with (exponent y) by lia. apply Qle_refl.
      * apply Qmult_le_compat_r; [exact Hq | lra].
Qed.

Lemma binary64_mono x y : x <= y -> binary64 x <= binary64 y.
Proof.
  intros Hxy. unfold binary64.
  destruct (Qcompare x 0) eqn:Cx; destruct (Qcompare y 0) eqn:Cy;
    decode Cx; decode Cy; try (exfalso; lra); try apply Qle_refl.
  - apply nearest_nonneg. lra.
  - assert (0 <= nearest (- x)) by (apply nearest_nonneg; lra). lra.
  - assert (nearest (- y) <= nearest (- x)) by (apply nearest_mono; lra). lra.
  - assert (0 <= nearest (- x)) by (apply nearest_nonneg; lra).
    assert (0 <= nearest y) by (apply nearest_nonneg; lra). lra.
  - now apply nearest_mono.
Qed.

Lemma binary64_0 : binary64 0 == 0.
Proof. reflexivity. Qed.

(** The rounding is to a nearest double: it is off by half a spacing at
    most. *)
Lemma rne_near x : Qabs (inject_Z (rne x) - x) <= 1 # 2.
Proof.
  destruct (Qfloor_spec x) as [H1 H2]. unfold rne.
  destruct (Qcompare (x - inject_Z (Qfloor x)) (1 # 2)) eqn:C; decode C;
    [destruct (Z.even (Qfloor x)) | |];
    rewrite ?inject_Z_plus; change (inject_Z 1) with 1;
    apply Qabs_Qle_condition; split; lra.
Qed.

Lemma nearest_near x : 0 < x -> Qabs (nearest x - x) <= ulp x * (1 # 2).
Proof.
  intros Hx. pose proof (ulp_pos x) as Hu. unfold nearest.
  set (u := ulp x) in *.
  assert (E : inject_Z (rne (x / u)) * u - x == (inject_Z (rne (x / u)) - x / u) * u)
    by (field; lra).
  rewrite E, Qabs_Qmult, (Qabs_pos u) by lra.
  rewrite (Qmult_comm u). apply Qmult_le_compat_r; [apply rne_near | lra].
Qed.

(** It is a double: at most 53 significant bits on the grid of its
    spacing. *)
Lemma nearest_significand x :
  0 < x ->
  nearest x = inject_Z (rne (x / ulp x)) * ulp x /\
  (0 <= rne (x / ulp x) <= 2 ^ 53)%Z.
Proof.
  intros Hx. split; [reflexivity |]. pose proof (ulp_pos x) as Hu.
  destruct (exponent_spec x Hx) as [_ Hup].
  split; [apply rne_nonneg, Qle_shift_div_l; [exact Hu | lra] |].
  rewrite <- (rne_Z (2 ^ 53)). apply rne_mono.
  apply Qle_shift_div_r; [exact Hu |]. rewrite <- pow2_Z by lia.
  unfold ulp. rewrite <- pow2_add.
  apply Qle_trans with (2 ^ (exponent x + 1)); [lra | apply pow2_le; lia].
Qed.

(** With the identity for rounding, the arithmetic is that of
    [RateLimiter]. *)
Lemma exact_arithmetic now l :
  Doubles.refillTokens (fun x => x) now l = refillTokens now l /\
  Doubles.tryAcquire (fun x => x) now l = tryAcquire now l /\
  Doubles.waitMs (fun x => x) l = wakeDelay l.
Proof. repeat split. Qed.

(** *** What holds whatever the rounding *)

(** A rounding rounds no number past another. *)
Definition monotone (fl : Q -> Q) : Prop := forall x y, x <= y -> fl x <= fl y.

Lemma binary64_monotone : monotone binary64.
Proof. intros x y. apply binary64_mono. Qed.

Lemma exact_monotone : monotone (fun x => x).
Proof. intros x y H. exact H. Qed.

Section Rounded.

Variable fl : Q -> Q.
Hypothesis fl_mono : monotone fl.
Hypothesis fl_0 : fl 0 == 0.

Lemma fl_nonneg x : 0 <= x -> 0 <= fl x.
Proof. intros H. apply fl_mono in H. now rewrite fl_0 in H. Qed.

Lemma added_nonneg (elapsedMs rate : Q) :
  0 <= elapsedMs -> 0 <= rate -> 0 <= fl (fl (elapsedMs / 1000) * rate).
Proof.
  intros He Hr. apply fl_nonneg, Qmult_le_0_compat; [| exact Hr].
  apply fl_nonneg. apply Qle_shift_div_l; [reflexivity | lra].
Qed.

Lemma refillTokens_cases now l :
  (fl (now - lastRefill l) <= 0 /\ Doubles.refillTokens fl now l = l) \/
  (0 < fl (now - lastRefill l) /\
   Doubles.refillTokens fl now l =
   set_bucket (Qmin (bucketSize l)
                 (fl (tokens l + fl (fl (fl (now - lastRefill l) / 1000)
                                     * tokensPerSecond l)))) now l).
Proof.
  unfold Doubles.refillTokens.
  destruct (Qle_bool (fl (now - lastRefill l)) 0) eqn:E.
  - left. split; [now apply Qle_bool_iff | reflexivity].
  - right. split; [now apply Qle_bool_false | reflexivity].
Qed.

(** The bucket invariant, with the capacity a double. *)
Definition bounded (l : Limiter) : Prop :=
  0 <= tokensPerSecond l /\ fl (bucketSize l) == bucketSize l /\
  0 <= tokens l <= bucketSize l.

Lemma bounded_refillTokens now l : bounded l -> bounded (Doubles.refillTokens fl now l).
Proof.
  intros (Hr & Hc & H0 & H1).
  destruct (refillTokens_cases now l) as [[_ ->] | [He ->]]; [repeat split; assumption |].
  unfold bounded. cbn [tokens tokensPerSecond bucketSize set_bucket].
  repeat split; try assumption; [| apply Q.le_min_l].
  apply Q.min_glb; [lra |]. apply fl_nonneg.
  pose proof (added_nonneg (fl (now - lastRefill l)) (tokensPerSecond l)
                ltac:(lra) Hr). lra.
Qed.

Lemma bounded_tryAcquire now l : bounded l -> bounded (snd (Doubles.tryAcquire fl now l)).
Proof.
  intros H. apply (bounded_refillTokens now) in H. unfold Doubles.tryAcquire.
  destruct (Qle_bool 1 (tokens (Doubles.refillTokens fl now l))) eqn:E; [| exact H].
  apply Qle_bool_iff in E. destruct H as (Hr & Hc & H0 & H1).
  unfold bounded. cbn [snd tokens tokensPerSecond bucketSize set_tokens set_bucket].
  repeat split; try assumption; [apply fl_nonneg; lra |].
  apply Qle_trans with (fl (bucketSize (Doubles.refillTokens fl now l)));
    [apply fl_mono; lra | rewrite Hc; apply Qle_refl].
Qed.

Lemma frame_refillTokens now l :
  tokensPerSecond (Doubles.refillTokens fl now l) = tokensPerSecond l /\
  bucketSize (Doubles.refillTokens fl now l) = bucketSize l.
Proof. unfold Doubles.refillTokens. now destruct (Qle_bool _ _). Qed.

Lemma frame_call c l :
  tokensPerSecond (Doubles.call fl l c) = tokensPerSecond l /\
  bucketSize (Doubles.call fl l c) = bucketSize l.
Proof.
  destruct c as [now | now]; cbn [Doubles.call]; [| apply frame_refillTokens].
  unfold Doubles.tryAcquire. destruct (Qle_bool 1 _); cbn [snd];
    [cbn [tokensPerSecond bucketSize set_tokens set_bucket] |]; apply frame_refillTokens.
Qed.

Lemma bounded_calls cs l :
  bounded l ->
  bounded (Doubles.calls fl cs l) /\
  tokensPerSecond (Doubles.calls fl cs l) = tokensPerSecond l /\
  bucketSize (Doubles.calls fl cs l) = bucketSize l.
Proof.
  revert l. induction cs as [| c cs IH]; intros l H; [auto |].
  unfold Doubles.calls in *. cbn [fold_left].
  destruct (frame_call c l) as [Er Ec].
  destruct (IH (Doubles.call fl l c)) as (Hb & -> & ->).
  - destruct c as [now | now]; [now apply bounded_tryAcquire | now apply bounded_refillTokens].
  - auto.
Qed.

End Rounded.

(** *** The refill *)

(** The limiter of ["Gemini"] (5 tokens per second, capacity 15) once its
    15 tokens are gone, as a [tryAcquire] that comes 16 ms later leaves it:
    0.08 tokens, as a double. *)
Definition gemini : Limiter := mkLimiter 15 0 [] None 5 15.

Definition gemini16 : Limiter :=
  Doubles.calls binary64
    (replicate 15 (Doubles.CallTryAcquire 0) ++ [Doubles.CallTryAcquire 16]) gemini.



(** In doubles the gain of that refill is not [min(capacity - tokens,
    r * dt)]: from 0.08 tokens, 184 ms at 5 tokens per second give
    [1 - 2^-53], not 1.  The doubles of the machine agree. *)
Example refill_in_doubles :
  tokens gemini16 == binary64 (8 # 100) /\
  tokens (Doubles.refillTokens binary64 200 gemini16) == 1 - (1 # 2 ^ 53) /\
  1 <= tokens (refillTokens 200 gemini16) /\
  ~ tokens (Doubles.refillTokens binary64 200 gemini16) - tokens gemini16
    == Qmin (15 - tokens gemini16) ((200 - 16) / 1000 * 5) /\
  toQ (PrimFloat.add (PrimFloat.div (ofZ 8) (ofZ 100))
         (PrimFloat.mul (PrimFloat.div (PrimFloat.sub (ofZ 200) (ofZ 16)) (ofZ 1000))
                        (ofZ 5)))
  = Some (9007199254740991 # 9007199254740992).
Proof. vm_compute. repeat split; discriminate. Qed.

(** *** The bucket stays within its bounds *)

(** X20.  The bounds of the bucket do not depend on exact arithmetic.  With
    every operation rounded -- by any rounding that rounds no number past
    another and leaves 0 and the capacity as they are, as rounding to the
    nearest double does -- the count stays between 0 and the capacity over
    every sequence of [tryAcquire] calls and refills, at any clock
    readings, and rate and capacity stay what they were. *)
Theorem bucket_bounds_in_doubles (fl : Q -> Q) (cs : list Doubles.Call) (l : Limiter) :
  monotone fl -> fl 0 == 0 -> fl (bucketSize l) == bucketSize l ->
  0 <= tokensPerSecond l -> 0 <= tokens l <= bucketSize l ->
  let l' := Doubles.calls fl cs l in
  0 <= tokens l' <= bucketSize l /\
  tokensPerSecond l' = tokensPerSecond l /\ bucketSize l' = bucketSize l.
Proof.
  intros Hmono H0 Hcap Hrate Hb. cbv zeta.
  destruct (bounded_calls fl Hmono H0 cs l) as ((_ & _ & Hb') & Er & Ec).
  { repeat split; tauto. }
  rewrite Ec in Hb'. auto.
Qed.

Lemma bucket_bounds_in_doubles_witness :
  let cs := replicate 15 (Doubles.CallTryAcquire 0)
            ++ [Doubles.CallTryAcquire 16; Doubles.CallRefill 200;
                Doubles.CallTryAcquire 201] in
  let l' := Doubles.calls binary64 cs gemini in
  0 <= tokens l' <= bucketSize gemini /\
  tokensPerSecond l' = tokensPerSecond gemini /\ bucketSize l' = bucketSize gemini.
Proof.
  apply (bucket_bounds_in_doubles binary64
           (replicate 15 (Doubles.CallTryAcquire 0)
            ++ [Doubles.CallTryAcquire 16; Doubles.CallRefill 200;
                Doubles.CallTryAcquire 201]) gemini).
  - exact binary64_monotone.
  - reflexivity.
  - vm_compute. reflexivity.
  - vm_compute. discriminate.
  - split; vm_compute; discriminate.
Defined.

(** *** The wake-up *)



(** Rounding can also let a caller in before its time: at 3 tokens per
    second and capacity 1, a second [tryAcquire] 333.3333333333333 ms after
    the first succeeds, a little less than a third of a second later. *)
Example rounding_admits_early :
  let l := mkLimiter 1 0 [] None 3 1 in
  let later := binary64 (3333333333333333 # 10000000000000) in
  later < 1000 / 3 /\
  fst (Doubles.tryAcquire binary64 0 l) = true /\
  fst (Doubles.tryAcquire binary64 later (snd (Doubles.tryAcquire binary64 0 l))) = true /\
  fst (tryAcquire later (snd (tryAcquire 0 l))) = false.
Proof. vm_compute. repeat split. Qed.

End DoublesFacts.

(** ** More on the orchestrator *)

Module OrchestratorMore.
Import Orchestrator OrchestratorFacts.

(** *** Tasks only append to their trace *)

(** What a task computation does depends on the clock and the random
    numbers, not on the trace so far, to which it only appends. *)
Definition framed {A : Type} (c : Task A) : Prop :=
  forall a es,
    c (mkTask a es) =
    (fst (c (mkTask a [])),
     mkTask (ambient (snd (c (mkTask a [])))) (es ++ effects (snd (c (mkTask a []))))).

Lemma framed_ret {A : Type} (x : A) : framed (mret x).
Proof. intros a es. cbv [mret eff_ret]. simpl. now rewrite app_nil_r. Qed.

Lemma framed_throw {A : Type} (e : Thrown) : framed (throw e : Task A).
Proof. intros a es. cbv [throw]. simpl. now rewrite app_nil_r. Qed.

Lemma framed_lift {A : Type} (c : Eff Ambient A) : framed (lift c).
Proof.
  intros a es. unfold lift. simpl. destruct (c a) as [r a1]. simpl.
  now rewrite app_nil_r.
Qed.

Lemma framed_emit e : framed (emit e).
Proof. intros a es. reflexivity. Qed.

Lemma framed_bind {A B : Type} (c : Task A) (f : A -> Task B) :
  framed c -> (forall x, framed (f x)) -> framed (c ≫= f).
Proof.
  intros Hc Hf a es. unfold mbind, eff_bind. rewrite (Hc a es).
  destruct (c (mkTask a [])) as [[e | x] [a1 es1]]; cbn [fst snd ambient effects];
    [reflexivity |].
  rewrite (Hf x a1 (es ++ es1)), (Hf x a1 es1).
  cbn [fst snd ambient effects]. now rewrite app_assoc.
Qed.

Lemma framed_tryCatch {A : Type} (c : Task A) (h : Thrown -> Task A) :
  framed c -> (forall e, framed (h e)) -> framed (tryCatch c h).
Proof.
  intros Hc Hh a es. unfold tryCatch. rewrite (Hc a es).
  destruct (c (mkTask a [])) as [[e | x] [a1 es1]]; cbn [fst snd ambient effects];
    [| reflexivity].
  rewrite (Hh e a1 (es ++ es1)), (Hh e a1 es1).
  cbn [fst snd ambient effects]. now rewrite app_assoc.
Qed.

Create HintDb framed.

#[local] Hint Resolve framed_ret framed_throw framed_lift framed_emit : framed.

Ltac framed_step :=
  first [ apply framed_bind; [| intros ?]
        | apply framed_tryCatch; [| intros ?]
        | solve [auto with framed] ].

(** Counting what a trace records. *)
Definition callsOf (es : list Effect) : list nat :=
  omap (fun e => match e with ECall _ attempt => Some attempt | _ => None end) es.

Definition errorsOf (es : list Effect) : list (nat * Thrown) :=
  omap (fun e => match e with EConsoleError n _ e => Some (n, e) | _ => None end) es.

Definition acquiresOf (es : list Effect) : list (string * Z) :=
  omap (fun e => match e with EAcquire m ms => Some (m, ms) | _ => None end) es.

(** The limiters exist for the models of [MODELS] and for nothing else. *)
Lemma rateLimiters_others created m : m ∉ MODELS -> rateLimiters created !! m = None.
Proof.
  intros Hm. unfold rateLimiters. apply not_elem_of_list_to_map_1.
  assert (E : (omap (fun m => match MODEL_CONFIGS !! m with
                      | Some cfg =>
                          match RateLimiter.new (cfg_tokensPerSecond cfg)
                                  (cfg_bucketSize cfg) true created with
                          | inr l => Some (m, l)
                          | inl _ => None
                          end
                      | None => None
                      end) MODELS).*1 = MODELS) by reflexivity.
  now rewrite E.
Qed.

Section More.

Variable call : string -> string -> Eff Ambient (list ModelResponse).
Variable admission : string -> Z * option string.
Variable created : Q.

Lemma framed_attemptOnce m prompt retries attempt :
  framed (attemptOnce call m prompt retries attempt).
Proof.
  unfold attemptOnce, sleep. repeat framed_step.
  destruct (attempt =? retries - 1)%nat; repeat framed_step.
Qed.

Lemma framed_retryLoop remaining m prompt retries attempt :
  framed (retryLoop call remaining m prompt retries attempt).
Proof.
  revert attempt. induction remaining as [| n IH]; intros attempt; simpl.
  - apply framed_throw.
  - apply framed_bind; [apply framed_attemptOnce |].
    intros [r |]; [apply framed_ret | apply IH].
Qed.

Lemma framed_queryModel m prompt retries :
  framed (queryModel call admission created m prompt retries).
Proof.
  unfold queryModel. destruct (rateLimiters created !! m); [| apply framed_throw].
  apply framed_bind; [| intros ?; apply framed_retryLoop].
  unfold limiterAcquire. destruct (admission m) as [waited [msg |]];
    repeat framed_step.
Qed.

(** The three ways through one turn of the retry loop. *)
Lemma retryLoop_answer n m prompt retries attempt s response a1 :
  call m prompt (ambient s) = (inr response, a1) ->
  retryLoop call (S n) m prompt retries attempt s =
  (inr (mkApiResponse response (clock a1) m),
   mkTask a1 (effects s ++ [ECall m attempt])).
Proof.
  intros Hcall. cbn [retryLoop].
  cbv [mbind eff_bind mret eff_ret attemptOnce tryCatch emit lift throw dateNow].
  cbn [ambient effects]. rewrite Hcall. reflexivity.
Qed.

Lemma retryLoop_again n m prompt retries attempt s e a1 :
  call m prompt (ambient s) = (inl e, a1) -> attempt <> (retries - 1)%nat ->
  retryLoop call (S n) m prompt retries attempt s =
  retryLoop call n m prompt retries (S attempt)
    (mkTask (mkAmbient (clock a1 + backoffMs attempt (entropy a1 0%nat))
                       (fun k => entropy a1 (S k)))
            (effects s ++ [ECall m attempt; EConsoleError (attempt + 1) m e;
                           ESleep (backoffMs attempt (entropy a1 0%nat))])).
Proof.
  intros Hcall Hmore. apply Nat.eqb_neq in Hmore. cbn [retryLoop].
  cbv [mbind eff_bind mret eff_ret attemptOnce tryCatch emit lift sleep throw
       mathRandom wait].
  cbn [ambient effects]. rewrite Hcall, Hmore.
  cbn [ambient effects clock entropy]. rewrite <- !app_assoc. reflexivity.
Qed.

Lemma retryLoop_giveup n m prompt retries attempt s e a1 :
  call m prompt (ambient s) = (inl e, a1) -> attempt = (retries - 1)%nat ->
  retryLoop call (S n) m prompt retries attempt s =
  (inl e, mkTask a1 (effects s ++ [ECall m attempt; EConsoleError (attempt + 1) m e])).
Proof.
  intros Hcall Hlast. apply Nat.eqb_eq in Hlast. cbn [retryLoop].
  cbv [mbind eff_bind mret eff_ret attemptOnce tryCatch emit lift throw].
  cbn [ambient effects]. rewrite Hcall, Hlast.
  cbn [ambient effects]. rewrite <- !app_assoc. reflexivity.
Qed.

(** *** What one query costs *)

(** The account of a run of the retry loop entered at [attempt] with
    [remaining] turns to go, which ended with [r] and added [new] to the
    trace. *)
Definition accounted (m : string) (retries remaining attempt : nat)
    (r : Thrown + ApiResponse) (new : list Effect) : Prop :=
  let calls := length (callsOf new) in
  callsOf new = seq attempt calls /\
  map fst (errorsOf new) = seq (attempt + 1) (length (errorsOf new)) /\
  acquiresOf new = [] /\
  match r with
  | inr response =>
      source response = m /\ (1 <= calls <= remaining)%nat /\
      (length (errorsOf new) + 1 = calls)%nat /\
      (length (sleepsOf new) + 1 = calls)%nat
  | inl e =>
      (remaining = 0%nat /\ new = [] /\
       e = ErrorObject ("Failed after " +:+ pretty retries +:+ " retries")) \/
      (calls = remaining /\ length (errorsOf new) = remaining /\
       (length (sleepsOf new) + 1 = remaining)%nat /\
       last (errorsOf new) = Some (retries, e))
  end.

Lemma retryLoop_accounted m prompt retries remaining attempt s :
  (attempt + remaining = retries)%nat ->
  exists new,
    effects (snd (retryLoop call remaining m prompt retries attempt s))
    = effects s ++ new /\
    accounted m retries remaining attempt
      (fst (retryLoop call remaining m prompt retries attempt s)) new.
Proof.
  revert attempt s. induction remaining as [| n IH]; intros attempt s Hsum.
  - exists []. split; [simpl; now rewrite app_nil_r |].
    repeat split. left. auto.
  - destruct (call m prompt (ambient s)) as [[e | response] a1] eqn:Hcall.
    + destruct (decide (attempt = (retries - 1)%nat)) as [Hlast | Hmore].
      * rewrite (retryLoop_giveup _ _ _ _ _ _ _ _ Hcall Hlast).
        exists [ECall m attempt; EConsoleError (attempt + 1) m e].
        split; [reflexivity |]. assert (n = 0%nat) as -> by lia.
        repeat split. right. repeat split. simpl. do 2 f_equal. lia.
      * rewrite (retryLoop_again _ _ _ _ _ _ _ _ Hcall Hmore).
        set (s2 := mkTask _ _).
        destruct (IH (S attempt) s2 ltac:(lia)) as (new & Hnew & Hc & He & Ha & Hr).
        exists ([ECall m attempt; EConsoleError (attempt + 1) m e;
                 ESleep (backoffMs attempt (entropy a1 0%nat))] ++ new).
        split; [rewrite Hnew; unfold s2; cbn [effects]; now rewrite <- app_assoc |].
        unfold accounted. cbn [app callsOf errorsOf acquiresOf sleepsOf omap list_omap
                               length map fst seq].
        fold (callsOf new) (errorsOf new) (acquiresOf new) (sleepsOf new).
        split; [now rewrite Hc at 1 |].
        split; [rewrite He at 1; now replace (S attempt + 1)%nat with (S (attempt + 1)) by lia |].
        split; [exact Ha |].
        destruct (fst (retryLoop call n m prompt retries (S attempt) s2)) as [e' | r'].
        -- right. destruct Hr as [(-> & _) | (H1 & H2 & H3 & H4)]; [lia |].
           repeat split; try lia.
           rewrite last_cons, H4. reflexivity.
        -- destruct Hr as (H1 & H2 & H3 & H4). repeat split; try assumption; lia.
    + rewrite (retryLoop_answer _ _ _ _ _ _ _ _ Hcall).
      exists [ECall m attempt]. split; [reflexivity |].
      repeat split; simpl; lia.
Qed.

(** X8.  What one [queryModel] costs, for a model of [MODELS], any provider
    and any limiter.  It asks the limiter for exactly one token, with a
    30-second timeout, before anything else -- retries do not go through the
    limiter again.  If the limiter rejects, that error is the outcome and the
    provider is never called.  Otherwise attempts [0, 1, ...] are made in
    order, at most [retries] of them; every failed attempt is logged with
    its number (counted from 1), and every failed attempt but the last is
    followed by one wait.  A response means the last attempt made succeeded
    and carries the model as its [source]; an error means all [retries]
    attempts failed and is the error of the last one -- the loop's closing
    error, [Failed after N retries], is thrown only if [retries] is 0, in
    which case the token is taken and no call is made. *)
Theorem queryModel_accounting (m prompt : string) (retries : nat) (s : TaskState) :
  m ∈ MODELS ->
  let q := queryModel call admission created m prompt retries s in
  exists new,
    effects (snd q) = effects s ++ EAcquire m 30000 :: new /\
    match snd (admission m) with
    | Some message => fst q = inl (ErrorObject message) /\ new = []
    | None => accounted m retries retries 0 (fst q) new
    end.
Proof.
  intros Hm. cbv zeta.
  destruct (rateLimiters_models created m Hm) as (rate & size & _ & Hl).
  unfold queryModel. rewrite Hl. unfold limiterAcquire.
  destruct (admission m) as [waited [message |]]; cbn [snd];
    cbv [mbind eff_bind mret eff_ret emit lift wait throw];
    cbn [ambient effects].
  - exists []. repeat split.
  - set (s1 := mkTask _ _).
    destruct (retryLoop_accounted m prompt retries retries 0 s1 eq_refl)
      as (new & Hnew & Hacc).
    exists new. split; [| exact Hacc].
    rewrite Hnew. unfold s1. cbn [effects]. now rewrite <- app_assoc.
Qed.

(** X9.  The constructor makes a limiter for the models of [MODELS] and for
    no other name, and for a name without one [queryModel] throws
    [No rate limiter for <model>] at once: no token is asked for, the
    provider is not called, nothing is logged and no time passes. *)
Theorem queryModel_unknown_model (m prompt : string) (retries : nat) (s : TaskState) :
  (m ∈ MODELS <-> is_Some (rateLimiters created !! m)) /\
  (m ∉ MODELS ->
   queryModel call admission created m prompt retries s
   = (inl (ErrorObject ("No rate limiter for " +:+ m)), s)).
Proof.
  split; [split |].
  - intros Hm. destruct (rateLimiters_models created m Hm) as (rate & size & _ & ->).
    eauto.
  - intros Hsome. destruct (decide (m ∈ MODELS)) as [Hm | Hm]; [exact Hm |].
    rewrite (rateLimiters_others created m Hm) in Hsome. now destruct Hsome.
  - intros Hm. unfold queryModel. now rewrite (rateLimiters_others created m Hm).
Qed.

(** *** The observer *)

(** The run of [queryModel] for [m] in a call of [queryAllModels], taken on
    its own: outcome and final state. *)
Definition queried (prompt : string) (t0 : Z) (supply : string -> nat -> Q)
    (m : string) : (Thrown + ApiResponse) * TaskState :=
  queryModel call admission created m prompt 3 (start t0 supply m).

(** The clock reading at which the query of [m] ends. *)
Definition finished (prompt : string) (t0 : Z) (supply : string -> nat -> Q)
    (m : string) : Z :=
  clock (ambient (snd (queried prompt t0 supply m))).

Lemma queryModel_told observer prompt m s ev :
  fst (queryModel call admission created m prompt 3 (told observer s ev))
  = fst (queryModel call admission created m prompt 3 (mkTask (ambient s) [])) /\
  ambient (snd (queryModel call admission created m prompt 3 (told observer s ev)))
  = ambient (snd (queryModel call admission created m prompt 3 (mkTask (ambient s) []))).
Proof.
  destruct s as [a es]. unfold told.
  destruct observer; cbn [ambient effects];
    rewrite (framed_queryModel m prompt 3 a); cbn [fst snd ambient]; auto.
Qed.

Lemma queryTask_queried observer prompt t0 supply m :
  fst (queryTask call admission observer created prompt m (start t0 supply m))
  = fst (queried prompt t0 supply m).
Proof.
  rewrite queryTask_outcome.
  apply (queryModel_told observer prompt m (start t0 supply m)).
Qed.

Lemma heard_observer prompt t0 supply m :
  progressOf (effects (snd
    (queryTask call admission true created prompt m (start t0 supply m))))
  = [pendingEvent m;
     terminalEvent m t0 (finished prompt t0 supply m) (fst (queried prompt t0 supply m))].
Proof.
  rewrite queryTask_run. cbv zeta. cbn [fst snd].
  destruct (queryModel_told true prompt m (start t0 supply m) (pendingEvent m))
    as [Hout Hamb].
  change (mkTask (ambient (start t0 supply m)) []) with (start t0 supply m) in Hout, Hamb.
  fold (queried prompt t0 supply m) in Hout, Hamb.
  rewrite Hout, Hamb. fold (finished prompt t0 supply m).
  pose proof (quiet_queryModel call admission created m prompt 3
                (told true (start t0 supply m) (pendingEvent m))) as Hq.
  unfold told at 1. cbn [effects]. rewrite progressOf_snoc, Hq. reflexivity.
Qed.

Lemma flat_map_singletons {A B : Type} (f : A -> list B) (g : A -> B) (l : list A) :
  (forall x, f x = [g x]) -> flat_map f l = map g l.
Proof.
  intros H. induction l as [| x l IH]; simpl; [reflexivity |].
  now rewrite H, IH.
Qed.

Lemma queryAllModels_queried prompt t0 supply observer settled :
  fst (queryAllModels call admission observer created prompt t0 supply settled)
  = inr (concat (map (fun m => contribution m (fst (queried prompt t0 supply m)))
                     MODELS)).
Proof.
  rewrite queryAllModels_result. do 2 f_equal.
  apply map_ext. intros m. now rewrite queryTask_queried.
Qed.

(** X10.  Passing [onProgress] changes nothing in what [queryAllModels]
    returns, and neither does the order in which the tasks finish: the
    result is the concatenation over [MODELS] of what each model's
    [queryModel], run on its own from the time of the call, contributes. *)
Theorem observer_changes_no_result (prompt : string) (t0 : Z)
    (supply : string -> nat -> Q) (observer observer' : bool)
    (settled settled' : list string) :
  fst (queryAllModels call admission observer created prompt t0 supply settled)
  = inr (concat (map (fun m => contribution m (fst (queried prompt t0 supply m)))
                     MODELS)) /\
  fst (queryAllModels call admission observer created prompt t0 supply settled)
  = fst (queryAllModels call admission observer' created prompt t0 supply settled').
Proof.
  split; [apply queryAllModels_queried |]. now rewrite !queryAllModels_queried.
Qed.

Lemma queryAllModels_heard prompt t0 supply settled :
  snd (queryAllModels call admission true created prompt t0 supply settled)
  = map pendingEvent MODELS ++
    map (fun m => terminalEvent m t0 (finished prompt t0 supply m)
                    (fst (queried prompt t0 supply m))) settled.
Proof.
  unfold queryAllModels; cbn [snd].
  f_equal; apply flat_map_singletons; intros m; now rewrite heard_observer.
Qed.

(** X11.  What the observer hears, exactly: first one [pending] event per
    model, in the order of [MODELS], before any task has finished; then,
    task by task in the order in which they finish, one terminal event --
    [success] with the time the query took, or [error] with the message of
    the failure; and nothing else.  Without [onProgress] nothing is
    reported. *)
Theorem observer_hears_each_task (prompt : string) (t0 : Z)
    (supply : string -> nat -> Q) (settled : list string) :
  snd (queryAllModels call admission true created prompt t0 supply settled)
  = map pendingEvent MODELS ++
    map (fun m => terminalEvent m t0 (finished prompt t0 supply m)
                    (fst (queried prompt t0 supply m))) settled /\
  snd (queryAllModels call admission false created prompt t0 supply settled) = [].
Proof.
  split; [apply queryAllModels_heard |]. unfold queryAllModels; cbn [snd].
  - assert (H : forall (f : string -> list ModelStatus) l,
              (forall m, f m = []) -> flat_map f l = []).
    { intros f l Hf. induction l as [| x l IH]; simpl; [reflexivity |].
      now rewrite Hf, IH. }
    rewrite !H; [reflexivity | |];
      intros m; now rewrite (queryTask_unheard call admission false created).
Qed.

End More.

Lemma queryModel_accounting_witness :
  let s := start 0 (fun _ _ => 1 # 2) "GPT-4o" in
  let q := queryModel flaky geminiDown 0 "GPT-4o" "hello" 3 s in
  exists new,
    effects (snd q) = effects s ++ EAcquire "GPT-4o" 30000 :: new /\
    match snd (geminiDown "GPT-4o") with
    | Some message => fst q = inl (ErrorObject message) /\ new = []
    | None => accounted "GPT-4o" 3 3 0 (fst q) new
    end.
Proof.
  apply (queryModel_accounting flaky geminiDown 0 "GPT-4o" "hello" 3
           (start 0 (fun _ _ => 1 # 2) "GPT-4o")).
  apply list_elem_of_here.
Defined.

(** *** The built-in provider, end to end *)

(** The item the built-in provider gives for [m], once [queryAllModels] has
    tagged it, when the limiter let the query through after [waited] ms. *)
Definition simulatedItem (t0 : Z) (supply : string -> nat -> Q) (waited : Z)
    (m : string) : ModelResponse :=
  mkResponse
    (m +:+ "-" +:+ pretty (t0 + waited + (200 + Qfloor (supply m 0%nat * 400)))%Z)
    ("Simulated response from " +:+ m) (supply m 1%nat) [m; m] m.

Lemma queried_simulated admission created prompt t0 supply m :
  m ∈ MODELS ->
  queried simulateAPICall admission created prompt t0 supply m =
  let t1 := (t0 + fst (admission m))%Z in
  let t2 := (t1 + (200 + Qfloor (supply m 0%nat * 400)))%Z in
  match snd (admission m) with
  | Some message =>
      (inl (ErrorObject message),
       mkTask (mkAmbient t1 (supply m)) [EAcquire m 30000])
  | None =>
      (inr (mkApiResponse
              [mkResponse (m +:+ "-" +:+ pretty t2)
                 ("Simulated response from " +:+ m) (supply m 1%nat) [m] m] t2 m),
       mkTask (mkAmbient t2 (fun n => supply m (S (S n))))
              [EAcquire m 30000; ECall m 0])
  end.
Proof.
  intros Hm. destruct (rateLimiters_models created m Hm) as (rate & size & _ & Hl).
  unfold queried, queryModel. rewrite Hl. unfold limiterAcquire.
  destruct (admission m) as [waited [message |]]; reflexivity.
Qed.

(** X13.  With the built-in provider the query of a model fails only if its
    limiter rejects it.  [queryAllModels] returns, in the order of [MODELS],
    one item for every model whose limiter let it through and none for the
    others: the first attempt succeeds, so no retry is made and no backoff
    waited.  The latency reported for a success is the wait at the limiter
    plus the simulated latency; the error reported for a failure is the
    limiter's. *)
Theorem simulated_run (admission : string -> Z * option string) (observer : bool)
    (created : Q) (prompt : string) (t0 : Z) (supply : string -> nat -> Q)
    (settled : list string) :
  fst (queryAllModels simulateAPICall admission observer created prompt t0 supply settled)
  = inr (concat (map (fun m =>
           match snd (admission m) with
           | Some _ => []
           | None => [simulatedItem t0 supply (fst (admission m)) m]
           end) MODELS)) /\
  forall m, m ∈ MODELS ->
    let q := queried simulateAPICall admission created prompt t0 supply m in
    sleepsOf (effects (snd q)) = [] /\
    length (callsOf (effects (snd q)))
    = match snd (admission m) with Some _ => 0%nat | None => 1%nat end /\
    terminalEvent m t0 (finished simulateAPICall admission created prompt t0 supply m)
                  (fst q)
    = match snd (admission m) with
      | Some message => mkStatus m StError None (Some message)
      | None =>
          mkStatus m StSuccess
            (Some (t0 + fst (admission m)
                   + (200 + Qfloor (supply m 0%nat * 400)) - t0)%Z) None
      end.
Proof.
  split.
  - rewrite queryAllModels_queried. do 2 f_equal.
    apply map_ext_in. intros m Hm. apply (proj2 (list_elem_of_In _ _)) in Hm.
    rewrite (queried_simulated admission created prompt t0 supply m Hm). cbv zeta.
    destruct (snd (admission m)); reflexivity.
  - intros m Hm. cbv zeta. unfold finished.
    rewrite (queried_simulated admission created prompt t0 supply m Hm). cbv zeta.
    destruct (snd (admission m)); repeat split.
Qed.

End OrchestratorMore.

(** ** The page

    [Home] keeps the latest status of every model and the results of the
    last search; [StatusPanel] shows one status per model and the page lists
    the results by confidence.  A [useState] cell is a field of the page
    state, a setter an update of it, in the order of the calls. *)

Module Page.
Import Orchestrator.

(** The [MODELS] of [StatusPanel], declared apart from the orchestrator's. *)
Definition MODELS : list string := ["GPT-4o"; "Claude Sonnet 3.5"; "Gemini"].

(** [ModelStatus & { updatedAt?: number }] *)
Record ExtendedStatus := mkExtended { shown : ModelStatus; updatedAt : option Z }.

Record Home := mkHome {
  isLoading : bool;
  error : option string;
  results : option (list ModelResponse);
  statuses : gmap string ExtendedStatus
}.

(** The [onProgress] that [onSearch] passes on; [now] is what [Date.now()]
    returns when the event arrives. *)
Definition onProgress (now : Z) (s : ModelStatus) (h : Home) : Home :=
  mkHome (isLoading h) (error h) (results h)
         (<[status_model s := mkExtended s (Some now)]> (statuses h)).

(** The events of one search reaching the page, the [i]-th one at clock
    reading [stamp i]. *)
Fixpoint deliver (stamp : nat -> Z) (i : nat) (events : list ModelStatus) (h : Home)
  : Home :=
  match events with
  | [] => h
  | s :: events' => deliver stamp (S i) events' (onProgress (stamp i) s h)
  end.

(** [onSearch], given what [queryAllModels] settles with and tells the
    observer meanwhile: what it settles with, and the page afterwards. *)
Definition onSearch (stamp : nat -> Z)
    (answer : (Thrown + list ModelResponse) * list ModelStatus) (h : Home)
  : (Thrown + list ModelResponse) * Home :=
  let h1 := mkHome true None None ∅ in
  let h2 := deliver stamp 0 (snd answer) h1 in
  match fst answer with
  | inr res => (inr res, mkHome false (error h2) (Some res) (statuses h2))
  | inl err =>
      (inl err, mkHome false (Some (errorMessage err)) (results h2) (statuses h2))
  end.

(** [StatusPanel]: one status per model, [idle] for a model without one. *)
Definition StatusPanel (statuses : gmap string ExtendedStatus) : list ExtendedStatus :=
  map (fun m => default (mkExtended (mkStatus m StIdle None None) None) (statuses !! m))
      MODELS.

(** The colour of an [AlertItem]. *)
Definition alertColor (s : ExtendedStatus) : string :=
  match status (shown s) with
  | StError => "danger"
  | StSuccess => "success"
  | _ => "default"
  end.

(** [(a, b) => b.confidence - a.confidence] *)
Definition byConfidence (a b : ModelResponse) : Q := confidence b - confidence a.

(** [Array.prototype.sort] is a stable sort: elements that compare equal
    keep their order.  For a comparator that is a total preorder there is
    one such arrangement (proved below), given here by insertion. *)
Fixpoint insert {A : Type} (cmp : A -> A -> Q) (x : A) (l : list A) : list A :=
  match l with
  | [] => [x]
  | y :: l' => if Qle_bool (cmp x y) 0 then x :: y :: l' else y :: insert cmp x l'
  end.

Definition sort {A : Type} (cmp : A -> A -> Q) (l : list A) : list A :=
  foldr (insert cmp) [] l.

(** [[...results].sort((a, b) => b.confidence - a.confidence)]: the cards of
    the page, the first of which is the recommended response. *)
Definition ranked (results : list ModelResponse) : list ModelResponse :=
  sort byConfidence results.

(** [results && results.length > 0 && ...] *)
Definition cards (h : Home) : list ModelResponse :=
  match results h with
  | Some (r :: rs) => ranked (r :: rs)
  | _ => []
  end.

Definition recommended (h : Home) : option ModelResponse := head (cards h).

End Page.

Module PageFacts.
Import Orchestrator OrchestratorFacts OrchestratorMore Page.

(** *** Ranking *)

(** [a] is placed no later than [b]. *)
Definition above (a b : ModelResponse) : Prop := confidence b <= confidence a.

Definition sameConfidence (c : Q) (r : ModelResponse) : bool :=
  Qeq_bool (confidence r) c.

Lemma insert_Permutation x l : insert byConfidence x l ≡ₚ x :: l.
Proof.
  induction l as [| y l IH]; simpl; [reflexivity |].
  destruct (Qle_bool (byConfidence x y) 0); [reflexivity |].
  rewrite IH. apply Permutation_swap.
Qed.

Lemma ranked_Permutation l : ranked l ≡ₚ l.
Proof.
  induction l as [| x l IH]; simpl; [reflexivity |].
  unfold ranked, sort in *. simpl. rewrite insert_Permutation. now rewrite IH.
Qed.

Lemma insert_sorted x l :
  StronglySorted above l -> StronglySorted above (insert byConfidence x l).
Proof.
  induction l as [| y l IH]; intros Hs; simpl.
  - repeat constructor.
  - apply StronglySorted_inv in Hs as [Hl Hy].
    destruct (Qle_bool (byConfidence x y) 0) eqn:E.
    + apply Qle_bool_iff in E. unfold byConfidence in E.
      constructor; [constructor; assumption |].
      constructor; [unfold above; lra |].
      eapply Forall_impl; [exact Hy |]. unfold above. intros z Hz. lra.
    + apply RateLimiterFacts.Qle_bool_false in E. unfold byConfidence in E.
      constructor; [now apply IH |].
      rewrite insert_Permutation. constructor; [unfold above; lra | exact Hy].
Qed.

Lemma ranked_sorted l : StronglySorted above (ranked l).
Proof.
  induction l as [| x l IH]; [constructor |].
  unfold ranked, sort in *. simpl. now apply insert_sorted.
Qed.

Lemma sameConfidence_insert c x l :
  List.filter (sameConfidence c) (insert byConfidence x l)
  = List.filter (sameConfidence c) (x :: l).
Proof.
  induction l as [| y l IH]; [reflexivity |].
  cbn [insert]. destruct (Qle_bool (byConfidence x y) 0) eqn:E; [reflexivity |].
  apply RateLimiterFacts.Qle_bool_false in E. unfold byConfidence in E.
  cbn [List.filter] in *. rewrite IH.
  destruct (sameConfidence c x) eqn:Ex; [| reflexivity].
  destruct (sameConfidence c y) eqn:Ey; [| reflexivity].
  unfold sameConfidence in *. apply Qeq_bool_iff in Ex, Ey. lra.
Qed.

Lemma ranked_stable c l :
  List.filter (sameConfidence c) (ranked l) = List.filter (sameConfidence c) l.
Proof.
  induction l as [| x l IH]; [reflexivity |].
  unfold ranked, sort in *. cbn [foldr]. rewrite sameConfidence_insert.
  cbn [List.filter]. now rewrite IH.
Qed.

Lemma sameConfidence_self r : sameConfidence (confidence r) r = true.
Proof. apply Qeq_bool_iff. reflexivity. Qed.

(** Two arrangements by falling confidence in which the items of every
    confidence stand in the same order are the same arrangement. *)
Lemma sorted_stable_unique l1 l2 :
  StronglySorted above l1 -> StronglySorted above l2 ->
  (forall c, List.filter (sameConfidence c) l1 = List.filter (sameConfidence c) l2) ->
  l1 = l2.
Proof.
  revert l2. induction l1 as [| x t1 IH]; intros l2 H1 H2 Hf.
  - destruct l2 as [| y t2]; [reflexivity |].
    specialize (Hf (confidence y)). cbn [List.filter] in Hf.
    rewrite sameConfidence_self in Hf. discriminate.
  - destruct l2 as [| y t2].
    { specialize (Hf (confidence x)). cbn [List.filter] in Hf.
      rewrite sameConfidence_self in Hf. discriminate. }
    apply StronglySorted_inv in H1 as [Ht1 Hx].
    apply StronglySorted_inv in H2 as [Ht2 Hy].
    assert (Hxy : x = y).
    { pose proof (Hf (confidence x)) as Fx. pose proof (Hf (confidence y)) as Fy.
      cbn [List.filter] in Fx, Fy. rewrite sameConfidence_self in Fx, Fy.
      destruct (sameConfidence (confidence x) y) eqn:Eyx; [now inversion Fx |].
      destruct (sameConfidence (confidence y) x) eqn:Exy; [now inversion Fy |].
      assert (Hin : In x t2).
      { apply (proj1 (filter_In (sameConfidence (confidence x)) x t2)).
        rewrite <- Fx. now left. }
      assert (Hin' : In y t1).
      { apply (proj1 (filter_In (sameConfidence (confidence y)) y t1)).
        rewrite Fy. now left. }
      apply (proj2 (list_elem_of_In _ _)) in Hin, Hin'.
      pose proof (proj1 (Forall_forall _ _) Hy x Hin) as Ha.
      pose proof (proj1 (Forall_forall _ _) Hx y Hin') as Hb.
      unfold above in Ha, Hb.
      assert (Heq : sameConfidence (confidence x) y = true)
        by (apply Qeq_bool_iff; lra).
      congruence. }
    subst y. f_equal. apply IH; [assumption | assumption |].
    intros c. specialize (Hf c). cbn [List.filter] in Hf.
    destruct (sameConfidence c x); [now inversion Hf | exact Hf].
Qed.

(** X14.  The results as the page lists them: the same items, by falling
    confidence, items of equal confidence in the order [queryAllModels]
    returned them -- and this is the one arrangement with these properties,
    so it is what any stable sort gives.  The recommended response, the first
    card, has the highest confidence of all. *)
Theorem ranked_by_confidence (results : list ModelResponse) :
  ranked results ≡ₚ results /\
  StronglySorted above (ranked results) /\
  (forall c, List.filter (sameConfidence c) (ranked results)
             = List.filter (sameConfidence c) results) /\
  (forall l, StronglySorted above l ->
     (forall c, List.filter (sameConfidence c) l
                = List.filter (sameConfidence c) results) ->
     l = ranked results) /\
  (forall top r, head (ranked results) = Some top -> r ∈ results ->
     confidence r <= confidence top) /\
  (results <> [] -> is_Some (head (ranked results))).
Proof.
  split; [apply ranked_Permutation |].
  split; [apply ranked_sorted |].
  split; [intros c; apply ranked_stable |].
  split; [| split].
  - intros l Hs Hf. apply sorted_stable_unique; [exact Hs | apply ranked_sorted |].
    intros c. now rewrite ranked_stable.
  - intros top r Htop Hr. rewrite <- ranked_Permutation in Hr.
    pose proof (ranked_sorted results) as Hs.
    destruct (ranked results) as [| x l]; [discriminate |].
    injection Htop as ->. apply StronglySorted_inv in Hs as [_ Hx].
    apply elem_of_cons in Hr as [-> | Hr]; [lra |].
    exact (proj1 (Forall_forall _ _) Hx r Hr).
  - intros Hne. pose proof (ranked_Permutation results) as Hp.
    destruct (ranked results) as [| x l]; [| eauto].
    apply Permutation_nil_l in Hp. congruence.
Qed.

(** *** The status panel *)

(** The status the page holds for [m], if any. *)
Definition latest (h : Home) (m : string) : option ModelStatus :=
  shown <$> (statuses h !! m).

Lemma latest_deliver stamp i events h m :
  latest (deliver stamp i events h) m =
  match last (filter (fun s => status_model s = m) events) with
  | Some s => Some s
  | None => latest h m
  end.
Proof.
  revert i h. induction events as [| s events IH]; intros i h; [reflexivity |].
  cbn [deliver]. rewrite IH, filter_cons.
  destruct (decide (status_model s = m)) as [E | E].
  - rewrite last_cons. destruct (last (filter _ events)); [reflexivity |].
    unfold latest, onProgress. cbn [statuses]. rewrite E, lookup_insert.
    now rewrite decide_True by reflexivity.
  - destruct (last (filter _ events)); [reflexivity |].
    unfold latest, onProgress. cbn [statuses].
    now rewrite lookup_insert_ne by exact E.
Qed.

Lemma deliver_frame stamp i events h :
  isLoading (deliver stamp i events h) = isLoading h /\
  error (deliver stamp i events h) = error h /\
  results (deliver stamp i events h) = results h.
Proof.
  revert i h. induction events as [| s events IH]; intros i h; [auto |].
  cbn [deliver]. destruct (IH (S i) (onProgress (stamp i) s h)) as (-> & -> & ->). auto.
Qed.

(** The entry of the panel for [m]. *)
Lemma StatusPanel_shown sts :
  map shown (StatusPanel sts)
  = map (fun m => default (mkStatus m StIdle None None) (shown <$> (sts !! m))) MODELS.
Proof.
  unfold StatusPanel. rewrite map_map. apply map_ext. intros m.
  now destruct (sts !! m).
Qed.

Section Panel.

Variable call : string -> string -> Eff Ambient (list ModelResponse).
Variable admission : string -> Z * option string.
Variable created : Q.
Variable prompt : string.
Variable t0 : Z.
Variable supply : string -> nat -> Q.

(** The event that ends the task of [m]. *)
Definition ending (m : string) : ModelStatus :=
  terminalEvent m t0 (finished call admission created prompt t0 supply m)
                (fst (queried call admission created prompt t0 supply m)).

Lemma ending_model m : status_model (ending m) = m.
Proof. unfold ending, terminalEvent. now destruct (fst _). Qed.

Lemma ending_settled m : status (ending m) = StSuccess \/ status (ending m) = StError.
Proof. unfold ending, terminalEvent. destruct (fst _); auto. Qed.

(** Among the terminal events of the tasks in [l], the last one about [m]. *)
Lemma last_ending m l :
  last (filter (fun s => status_model s = m) (map ending l))
  = if decide (m ∈ l) then Some (ending m) else None.
Proof.
  induction l as [| x l IH]; [reflexivity |].
  cbn [map]. rewrite filter_cons, ending_model.
  destruct (decide (x = m)) as [-> | Hx].
  - rewrite last_cons, IH. rewrite (decide_True (P := m ∈ m :: l)) by apply list_elem_of_here.
    now destruct (decide (m ∈ l)).
  - rewrite IH. destruct (decide (m ∈ l)) as [Hl | Hl].
    + now rewrite decide_True by (now apply list_elem_of_further).
    + rewrite decide_False; [reflexivity |].
      intros Hin. apply elem_of_cons in Hin as [-> | Hin]; [now apply Hx | now apply Hl].
Qed.

Lemma last_pending m l :
  last (filter (fun s => status_model s = m) (map pendingEvent l))
  = if decide (m ∈ l) then Some (pendingEvent m) else None.
Proof.
  induction l as [| x l IH]; [reflexivity |].
  cbn [map]. rewrite filter_cons. cbn [pendingEvent status_model].
  destruct (decide (x = m)) as [-> | Hx].
  - rewrite last_cons, IH. rewrite (decide_True (P := m ∈ m :: l)) by apply list_elem_of_here.
    now destruct (decide (m ∈ l)).
  - rewrite IH. destruct (decide (m ∈ l)) as [Hl | Hl].
    + now rewrite decide_True by (now apply list_elem_of_further).
    + rewrite decide_False; [reflexivity |].
      intros Hin. apply elem_of_cons in Hin as [-> | Hin]; [now apply Hx | now apply Hl].
Qed.

(** The status the page holds for [m] once the tasks in [started] have
    started and those in [done] have finished. *)
Lemma latest_search stamp started done m :
  latest (deliver stamp 0 (map pendingEvent started ++ map ending done)
            (mkHome true None None ∅)) m
  = if decide (m ∈ done) then Some (ending m)
    else if decide (m ∈ started) then Some (pendingEvent m)
    else None.
Proof.
  rewrite latest_deliver, filter_app, last_app, last_ending, last_pending.
  destruct (decide (m ∈ done)); [reflexivity |].
  destruct (decide (m ∈ started)); [reflexivity |].
  unfold latest. cbn [statuses]. now rewrite lookup_empty.
Qed.

(** X15.  One search, seen on the page, when every task finishes.
    [onSearch] settles with what [queryAllModels] returned and never with an
    error: afterwards the page is not loading, shows no error, and holds the
    results.  The panel names the models the orchestrator queries and shows
    for each of them the event that ended its task -- [success] or [error],
    none is left [idle] or [pending] -- in green or red accordingly,
    whatever the page showed before and in whatever order the tasks
    finished. *)
Theorem search_settles_panel (settled : list string) (stamp : nat -> Z) (h : Home) :
  (forall m, m ∈ Orchestrator.MODELS -> m ∈ settled) ->
  let answer := queryAllModels call admission true created prompt t0 supply settled in
  let h' := snd (onSearch stamp answer h) in
  Page.MODELS = Orchestrator.MODELS /\
  fst (onSearch stamp answer h) = fst answer /\
  isLoading h' = false /\ error h' = None /\
  results h' = Some (concat (map (fun m => contribution m
                      (fst (queried call admission created prompt t0 supply m)))
                      Orchestrator.MODELS)) /\
  map shown (StatusPanel (statuses h')) = map ending Page.MODELS /\
  map alertColor (StatusPanel (statuses h'))
  = map (fun m => match fst (queried call admission created prompt t0 supply m) with
                  | inr _ => "success"
                  | inl _ => "danger"
                  end) Page.MODELS.
Proof.
  intros Hall. cbv zeta. unfold onSearch.
  rewrite (queryAllModels_queried call admission created prompt t0 supply true settled).
  rewrite (queryAllModels_heard call admission created prompt t0 supply settled).
  fold ending. cbn [fst snd isLoading error results statuses].
  set (h2 := deliver stamp 0 _ _).
  assert (Hlatest : forall m, m ∈ Page.MODELS -> statuses h2 !! m <> None /\
                      latest h2 m = Some (ending m)).
  { intros m Hm. assert (Hl : latest h2 m = Some (ending m)).
    { unfold h2. rewrite latest_search. now rewrite decide_True by (now apply Hall). }
    split; [| exact Hl]. unfold latest in Hl. now destruct (statuses h2 !! m). }
  destruct (deliver_frame stamp 0
              (map pendingEvent Orchestrator.MODELS ++ map ending settled)
              (mkHome true None None ∅)) as (_ & He & _).
  fold h2 in He.
  repeat split; try reflexivity; try exact He.
  - rewrite StatusPanel_shown. apply map_ext_in. intros m Hm.
    apply (proj2 (list_elem_of_In _ _)) in Hm.
    destruct (Hlatest m Hm) as [_ Hl]. unfold latest in Hl. now rewrite Hl.
  - unfold StatusPanel. rewrite map_map. apply map_ext_in. intros m Hm.
    apply (proj2 (list_elem_of_In _ _)) in Hm.
    destruct (Hlatest m Hm) as [_ Hl]. unfold latest in Hl.
    destruct (statuses h2 !! m) as [x |]; [| discriminate].
    cbn [fmap option_fmap option_map] in Hl. injection Hl as Hl.
    cbn [default]. unfold alertColor. change (Datatypes.id x) with x. rewrite Hl.
    unfold ending, terminalEvent. now destruct (fst _).
Qed.

Lemma elem_of_take_le {A : Type} (x : A) (l : list A) (a b : nat) :
  (a <= b)%nat -> x ∈ take a l -> x ∈ take b l.
Proof.
  intros Hab Hx. replace a with (Nat.min a b) in Hx by lia.
  rewrite <- take_take in Hx. exact (subseteq_take a _ _ Hx).
Qed.

(** X16.  The panel during a search, after any number [k] of the events
    [queryAllModels] reports, whatever the order in which the tasks finish:
    a model is shown [idle], [pending] or with the event that ended its
    task; once it shows that event it keeps showing it, and once [pending]
    it never goes back to [idle]. *)
Theorem panel_never_regresses (settled : list string) (stamp : nat -> Z)
    (k k' : nat) (m : string) :
  let events := snd (queryAllModels call admission true created prompt t0 supply settled) in
  let page := fun n => deliver stamp 0 (take n events) (mkHome true None None ∅) in
  let entry := fun n => default (mkStatus m StIdle None None) (latest (page n) m) in
  map shown (StatusPanel (statuses (page k)))
  = map (fun m' => default (mkStatus m' StIdle None None) (latest (page k) m'))
        Page.MODELS /\
  (entry k = mkStatus m StIdle None None \/ entry k = pendingEvent m \/
   entry k = ending m) /\
  ((k <= k')%nat -> entry k = ending m -> entry k' = ending m) /\
  ((k <= k')%nat -> entry k = pendingEvent m ->
   entry k' = pendingEvent m \/ entry k' = ending m).
Proof.
  cbv zeta. split; [apply StatusPanel_shown |].
  rewrite (queryAllModels_heard call admission created prompt t0 supply settled).
  fold ending.
  set (E := fun n =>
    if decide (m ∈ take (n - length (map pendingEvent Orchestrator.MODELS)) settled)
    then Some (ending m)
    else if decide (m ∈ take n Orchestrator.MODELS) then Some (pendingEvent m)
    else None).
  assert (HE : forall n,
    latest (deliver stamp 0
              (take n (map pendingEvent Orchestrator.MODELS ++ map ending settled))
              (mkHome true None None ∅)) m = E n).
  { intros n. rewrite take_app, !firstn_map. apply latest_search. }
  rewrite !HE. unfold E.
  assert (Hne : pendingEvent m <> ending m /\ mkStatus m StIdle None None <> ending m).
  { destruct (ending_settled m) as [H | H]; split; intros Heq;
      rewrite <- Heq in H; discriminate. }
  destruct Hne as [Hp Hi].
  destruct (decide (m ∈ take (k - _) settled)) as [Hk | Hk]; cbn [default].
  - split; [auto |]. split.
    + intros Hle _. rewrite decide_True; [reflexivity |].
      revert Hk. apply elem_of_take_le. lia.
    + intros _ Heq. now destruct Hp.
  - destruct (decide (m ∈ take k Orchestrator.MODELS)) as [Hs | Hs]; cbn [default].
    + split; [auto |]. split; [intros _ Heq; now destruct Hp |].
      intros Hle _.
      destruct (decide (m ∈ take (k' - _) settled)); cbn [default]; [auto |].
      rewrite decide_True; [auto |]. revert Hs. now apply elem_of_take_le.
    + split; [auto |]. split; [intros _ Heq; now destruct Hi |].
      intros _ Heq. discriminate.
Qed.

End Panel.

Lemma search_settles_panel_witness :
  let settled := ["Gemini"; "GPT-4o"; "Claude Sonnet 3.5"] in
  let stamp := fun i => Z.of_nat i in
  let h := mkHome false (Some "stale") None ∅ in
  let answer := queryAllModels simulateAPICall geminiDown true 0 "hello" 1000
                  (fun _ _ => 1 # 2) settled in
  let h' := snd (onSearch stamp answer h) in
  Page.MODELS = Orchestrator.MODELS /\
  fst (onSearch stamp answer h) = fst answer /\
  isLoading h' = false /\ error h' = None /\
  results h' = Some (concat (map (fun m => contribution m
                      (fst (queried simulateAPICall geminiDown 0 "hello" 1000
                              (fun _ _ => 1 # 2) m)))
                      Orchestrator.MODELS)) /\
  map shown (StatusPanel (statuses h'))
  = map (ending simulateAPICall geminiDown 0 "hello" 1000 (fun _ _ => 1 # 2))
        Page.MODELS /\
  map alertColor (StatusPanel (statuses h'))
  = map (fun m => match fst (queried simulateAPICall geminiDown 0 "hello" 1000
                               (fun _ _ => 1 # 2) m) with
                  | inr _ => "success"
                  | inl _ => "danger"
                  end) Page.MODELS.
Proof.
  apply (search_settles_panel simulateAPICall geminiDown 0 "hello" 1000
           (fun _ _ => 1 # 2) ["Gemini"; "GPT-4o"; "Claude Sonnet 3.5"]
           (fun i => Z.of_nat i) (mkHome false (Some "stale") None ∅)).
  intros m Hm. unfold Orchestrator.MODELS in Hm.
  repeat (apply elem_of_cons in Hm as [-> | Hm];
          [repeat first [apply list_elem_of_here | apply list_elem_of_further] |]).
  now apply not_elem_of_nil in Hm.
Defined.

(** A search in which the limiter of one model times out: the page shows the
    two answers, the better one first, and the panel one error. *)
Example one_error_on_the_page :
  let answer := queryAllModels simulateAPICall geminiDown true 0 "hello" 1000
                  (fun m n => if String.eqb m "GPT-4o" then 1 # 4 else 1 # 2)
                  ["Claude Sonnet 3.5"; "GPT-4o"; "Gemini"] in
  let h' := snd (onSearch (fun i => Z.of_nat i) answer (mkHome false None None ∅)) in
  map model (cards h') = ["Claude Sonnet 3.5"; "GPT-4o"] /\
  model <$> recommended h' = Some "Claude Sonnet 3.5" /\
  map alertColor (StatusPanel (statuses h')) = ["success"; "success"; "danger"] /\
  error h' = None /\ isLoading h' = false.
Proof. vm_compute. auto. Qed.

End PageFacts.
